(** * YTSync: a shallow embedding of [yt_sync.py] and its job orchestration core

    The development follows the source file top to bottom:

    - [PyStr]    the [str] methods the program calls ([rstrip], [strip],
                 [lower], [in]) on text whose code points are below 256;
    - [Regex]    the fragment of Python's backtracking [re] engine that the two
                 compiled patterns need, with capture groups;
    - the data store ([load_data], [save_data]) over an explicit data file;
    - [fetch_playlist_info], [parse_line];
    - the job table (an insertion-ordered [dict]), [add_job], [_run_job],
      [_worker] as programs made of atomic sections;
    - the handlers of [/api/jobs/clear] and [/api/video/delete-file];
    - a thread pool semantics that interleaves those programs. *)

From Stdlib Require Import List String Ascii Bool Arith ZArith QArith Lia
  Permutation.
Import ListNotations.

Close Scope Q_scope.
Local Open Scope string_scope.
Local Open Scope list_scope.
Local Open Scope nat_scope.

(* ------------------------------------------------------------------------- *)
(** ** Python [str] on 8-bit code points *)

Module PyStr.

Definition code (c : ascii) : nat := nat_of_ascii c.

(** [str.isspace] / [\s] of a Unicode pattern, restricted to code points
    below 256: TAB..CR, FS..US, SPACE, NEL (0x85) and NBSP (0xA0). *)
Definition isspace (c : ascii) : bool :=
  let n := code c in
  ((9 <=? n) && (n <=? 13)) || ((28 <=? n) && (n <=? 32))
  || (n =? 133) || (n =? 160).

(** [\d] of a Unicode pattern below 256 is [0-9]. *)
Definition isdigit (c : ascii) : bool :=
  let n := code c in (48 <=? n) && (n <=? 57).

(** [str.lower] on one code point below 256: [A-Z] and the Latin-1 capitals
    0xC0..0xDE except the multiplication sign 0xD7. *)
Definition lower_char (c : ascii) : ascii :=
  let n := code c in
  if ((65 <=? n) && (n <=? 90))
     || ((192 <=? n) && (n <=? 222) && negb (n =? 215))
  then ascii_of_nat (n + 32) else c.

Fixpoint lower (s : string) : string :=
  match s with
  | EmptyString => EmptyString
  | String c s' => String (lower_char c) (lower s')
  end.

Fixpoint startswith (p s : string) : bool :=
  match p, s with
  | EmptyString, _ => true
  | String a p', String b s' => Ascii.eqb a b && startswith p' s'
  | String _ _, EmptyString => false
  end.

(** [needle in hay] *)
Fixpoint contains (needle hay : string) : bool :=
  startswith needle hay ||
  match hay with
  | EmptyString => false
  | String _ hay' => contains needle hay'
  end.

Fixpoint lstrip_by (p : ascii -> bool) (s : string) : string :=
  match s with
  | EmptyString => EmptyString
  | String c s' => if p c then lstrip_by p s' else s
  end.

(** Drops the longest suffix whose characters all satisfy [p]. *)
Fixpoint rstrip_by (p : ascii -> bool) (s : string) : string :=
  match s with
  | EmptyString => EmptyString
  | String c s' =>
      match rstrip_by p s' with
      | EmptyString => if p c then EmptyString else String c EmptyString
      | r => String c r
      end
  end.

Definition rstrip (s : string) : string := rstrip_by isspace s.
Definition strip (s : string) : string := lstrip_by isspace (rstrip_by isspace s).
Definition strip_char (ch : ascii) (s : string) : string :=
  lstrip_by (Ascii.eqb ch) (rstrip_by (Ascii.eqb ch) s).

(** Truthiness of a [str]. *)
Definition nonempty (s : string) : bool :=
  match s with EmptyString => false | _ => true end.

End PyStr.

(* ------------------------------------------------------------------------- *)
(** ** The backtracking regular expressions of [re]

    Repetition is only ever applied to a character class in the two patterns
    of the program, so [Plus] and [Star] take a class.  Matching is the
    engine's: leftmost start, greedy repetition, alternatives left to right,
    giving back characters one at a time when the rest fails. *)

Module Regex.

Inductive regex : Type :=
| Lit  (s : string)
| Plus (cls : ascii -> bool)
| Star (cls : ascii -> bool)
| Opt  (r : regex)
| Alt  (r1 r2 : regex)
| Cat  (r1 r2 : regex)
| Grp  (n : nat) (r : regex).

Definition groups := list (nat * string).

Fixpoint group (n : nat) (g : groups) : option string :=
  match g with
  | [] => None
  | (m, s) :: g' => if Nat.eqb m n then Some s else group n g'
  end.

Definition orelse {A} (x : option A) (y : option A) : option A :=
  match x with Some _ => x | None => y end.

Section Matcher.
Context {A : Type}.

(** [cls{min,}] greedy: take a character while possible, and stop where we
    are (if [min] were taken) only when the longer attempt failed. *)
Fixpoint greedy (cls : ascii -> bool) (min : nat) (s : string)
         (k : string -> option A) : option A :=
  let stop := if Nat.eqb min 0 then k s else None in
  match s with
  | String c s' =>
      if cls c then orelse (greedy cls (pred min) s' k) stop else stop
  | EmptyString => stop
  end.

Fixpoint drop_prefix (p s : string) : option string :=
  match p, s with
  | EmptyString, _ => Some s
  | String a p', String b s' =>
      if Ascii.eqb a b then drop_prefix p' s' else None
  | String _ _, EmptyString => None
  end.

(** What was consumed between [s] and its suffix [rest]. *)
Definition consumed (s rest : string) : string :=
  substring 0 (String.length s - String.length rest) s.

Fixpoint rmatch (r : regex) (s : string) (g : groups)
         (k : string -> groups -> option A) : option A :=
  match r with
  | Lit l => match drop_prefix l s with Some s' => k s' g | None => None end
  | Plus cls => greedy cls 1 s (fun s' => k s' g)
  | Star cls => greedy cls 0 s (fun s' => k s' g)
  | Opt r1 => orelse (rmatch r1 s g k) (k s g)
  | Alt r1 r2 => orelse (rmatch r1 s g k) (rmatch r2 s g k)
  | Cat r1 r2 => rmatch r1 s g (fun s' g' => rmatch r2 s' g' k)
  | Grp n r1 => rmatch r1 s g (fun s' g' => k s' ((n, consumed s s') :: g'))
  end.
End Matcher.

(** [pattern.search(s)]: the groups of the first match, scanning the start
    position from left to right. *)
Fixpoint search (r : regex) (s : string) : option groups :=
  orelse (rmatch r s [] (fun _ g => Some g))
         match s with
         | EmptyString => None
         | String _ s' => search r s'
         end.

Fixpoint seq (rs : list regex) : regex :=
  match rs with
  | [] => Lit ""
  | [r] => r
  | r :: rs' => Cat r (seq rs')
  end.

End Regex.

Import Regex.

(* ------------------------------------------------------------------------- *)
(** ** Results and exceptions *)

(** The [Exception] instances the modelled code can raise; [str(e)] is
    [message]. *)
Inductive Exn : Type :=
| KeyError (key : string)
| ValueError (msg : string)
| JSONDecodeError (msg : string)
| OSError (msg : string)
| RuntimeError (msg : string)
| AttributeError (msg : string).

Definition str_exn (e : Exn) : string :=
  match e with
  | KeyError k => ("'" ++ k ++ "'")%string
  | ValueError m | JSONDecodeError m | OSError m | RuntimeError m
  | AttributeError m => m
  end.

Inductive Res (A : Type) : Type :=
| Ok (a : A)
| Raise (e : Exn).
Arguments Ok {A} a.
Arguments Raise {A} e.

(* ------------------------------------------------------------------------- *)
(** ** Progress parsing *)

Definition digit_or_dot (c : ascii) : bool :=
  PyStr.isdigit c || Ascii.eqb c ".".
Definition digit_or_colon (c : ascii) : bool :=
  PyStr.isdigit c || Ascii.eqb c ":".
Definition nonspace (c : ascii) : bool := negb (PyStr.isspace c).
Definition dquote : ascii := ascii_of_nat 34.
Definition squote : ascii := ascii_of_nat 39.
Definition not_quote_nl (c : ascii) : bool :=
  negb (Ascii.eqb c dquote || (PyStr.code c =? 10)).

(** [\[download\]\s+([\d.]+)%\s+of\s+~?\s*([\d.]+\s*\S+)\s+at\s+([\d.]+\s*\S+/s)\s+ETA\s+([\d:]+)] *)
Definition _RE_PROGRESS : regex :=
  seq [ Lit "[download]"; Plus PyStr.isspace;
        Grp 1 (Plus digit_or_dot); Lit "%"; Plus PyStr.isspace;
        Lit "of"; Plus PyStr.isspace; Opt (Lit "~"); Star PyStr.isspace;
        Grp 2 (seq [Plus digit_or_dot; Star PyStr.isspace; Plus nonspace]);
        Plus PyStr.isspace; Lit "at"; Plus PyStr.isspace;
        Grp 3 (seq [Plus digit_or_dot; Star PyStr.isspace; Plus nonspace; Lit "/s"]);
        Plus PyStr.isspace; Lit "ETA"; Plus PyStr.isspace;
        Grp 4 (Plus digit_or_colon) ].

(** [(?:Destination:|Merging formats into)\s+Q?([^Q\n]+)Q?], where Q stands
    for the double quote character. *)
Definition _RE_DEST : regex :=
  seq [ Alt (Lit "Destination:") (Lit "Merging formats into");
        Plus PyStr.isspace; Opt (Lit (String dquote ""));
        Grp 1 (Plus not_quote_nl); Opt (Lit (String dquote "")) ].

(** [float(s)] for the strings [([\d.]+)] can hand over: decimal digits with
    at most one point and at least one digit; anything else is a
    [ValueError].  The value is kept as the exact decimal fraction (the
    rounding to binary64 is not modelled). *)
Fixpoint digits_value (acc : Z) (s : string) : Z * nat * string :=
  match s with
  | String c s' =>
      if PyStr.isdigit c
      then let '(v, n, rest) :=
             digits_value (10 * acc + Z.of_nat (PyStr.code c - 48)) s' in
           (v, S n, rest)
      else (acc, 0, s)
  | EmptyString => (acc, 0, s)
  end.

Definition float (s : string) : Res Q :=
  let bad :=
    Raise (ValueError ("could not convert string to float: '" ++ s ++ "'")%string) in
  match digits_value 0 s with
  | (i, ni, EmptyString) =>
      if Nat.eqb ni 0 then bad else Ok (Qred (Qmake i 1))
  | (i, ni, String c frac) =>
      if Ascii.eqb c "." then
        match digits_value i frac with
        | (v, nf, EmptyString) =>
            if Nat.eqb (ni + nf) 0 then bad
            else Ok (Qred (Qmake v (Z.to_pos (10 ^ Z.of_nat nf))))
        | _ => bad
        end
      else bad
  end.

Record Progress : Type := {
  pct : Q;
  size : string;
  speed : string;
  eta : string;
}.

Definition group_or_empty (n : nat) (g : groups) : string :=
  match group n g with Some s => s | None => "" end.

Definition parse_line (line : string) : Res (option Progress) :=
  match search _RE_PROGRESS line with
  | Some m =>
      match float (group_or_empty 1 m) with
      | Ok p => Ok (Some {| pct := p;
                            size := PyStr.strip (group_or_empty 2 m);
                            speed := PyStr.strip (group_or_empty 3 m);
                            eta := PyStr.strip (group_or_empty 4 m) |})
      | Raise e => Raise e
      end
  | None => Ok None
  end.

(* ------------------------------------------------------------------------- *)
(** ** Data model: the catalog *)

(** A video entry of a playlist.  [v_quality] and [v_audio_only] are the keys
    ["quality"] and ["audio_only"], absent until a download succeeds. *)
Record Video : Type := {
  v_id : string;
  v_title : string;
  v_uploader : string;
  v_duration : option Q;
  v_thumbnail : string;
  v_url : string;
  v_downloaded : bool;
  v_file_path : option string;
  v_quality : option string;
  v_audio_only : option bool;
}.

Record Playlist : Type := {
  pl_id : string;
  pl_url : string;
  pl_title : string;
  pl_videos : list Video;
  pl_added : Q;
  pl_synced : Q;
}.

Record Settings : Type := {
  download_dir : string;
  threads : Z;
}.

(** The document of [data.json]; [playlists] is keyed by playlist id. *)
Record Data : Type := {
  playlists : list (string * Playlist);
  settings : Settings;
}.

(** ** Data model: jobs *)

Inductive Status : Type := Queued | Running | Done | Error.

Definition Status_eqb (a b : Status) : bool :=
  match a, b with
  | Queued, Queued | Running, Running | Done, Done | Error, Error => true
  | _, _ => false
  end.

Record Job : Type := {
  j_id : string;
  j_playlist_id : string;
  j_video_id : string;
  j_title : string;
  j_quality : string;
  j_audio_only : bool;
  j_status : Status;
  j_queue_pos : nat;
  j_progress : Q;
  j_speed : string;
  j_eta : string;
  j_size : string;
  j_phase : string;
  j_log : list string;
  j_started : option Q;
  j_finished : option Q;
  j_file : option string;
  j_error : option string;
}.

Definition set_status (x : Status) (j : Job) : Job :=
  {| j_id := j_id j; j_playlist_id := j_playlist_id j;
     j_video_id := j_video_id j; j_title := j_title j;
     j_quality := j_quality j; j_audio_only := j_audio_only j;
     j_status := x; j_queue_pos := j_queue_pos j;
     j_progress := j_progress j; j_speed := j_speed j; j_eta := j_eta j;
     j_size := j_size j; j_phase := j_phase j; j_log := j_log j;
     j_started := j_started j; j_finished := j_finished j;
     j_file := j_file j; j_error := j_error j |}.
Definition set_queue_pos (x : nat) (j : Job) : Job :=
  {| j_id := j_id j; j_playlist_id := j_playlist_id j;
     j_video_id := j_video_id j; j_title := j_title j;
     j_quality := j_quality j; j_audio_only := j_audio_only j;
     j_status := j_status j; j_queue_pos := x; j_progress := j_progress j;
     j_speed := j_speed j; j_eta := j_eta j; j_size := j_size j;
     j_phase := j_phase j; j_log := j_log j; j_started := j_started j;
     j_finished := j_finished j; j_file := j_file j; j_error := j_error j |}.
Definition set_progress (x : Q) (j : Job) : Job :=
  {| j_id := j_id j; j_playlist_id := j_playlist_id j;
     j_video_id := j_video_id j; j_title := j_title j;
     j_quality := j_quality j; j_audio_only := j_audio_only j;
     j_status := j_status j; j_queue_pos := j_queue_pos j; j_progress := x;
     j_speed := j_speed j; j_eta := j_eta j; j_size := j_size j;
     j_phase := j_phase j; j_log := j_log j; j_started := j_started j;
     j_finished := j_finished j; j_file := j_file j; j_error := j_error j |}.
Definition set_speed (x : string) (j : Job) : Job :=
  {| j_id := j_id j; j_playlist_id := j_playlist_id j;
     j_video_id := j_video_id j; j_title := j_title j;
     j_quality := j_quality j; j_audio_only := j_audio_only j;
     j_status := j_status j; j_queue_pos := j_queue_pos j;
     j_progress := j_progress j; j_speed := x; j_eta := j_eta j;
     j_size := j_size j; j_phase := j_phase j; j_log := j_log j;
     j_started := j_started j; j_finished := j_finished j;
     j_file := j_file j; j_error := j_error j |}.
Definition set_eta (x : string) (j : Job) : Job :=
  {| j_id := j_id j; j_playlist_id := j_playlist_id j;
     j_video_id := j_video_id j; j_title := j_title j;
     j_quality := j_quality j; j_audio_only := j_audio_only j;
     j_status := j_status j; j_queue_pos := j_queue_pos j;
     j_progress := j_progress j; j_speed := j_speed j; j_eta := x;
     j_size := j_size j; j_phase := j_phase j; j_log := j_log j;
     j_started := j_started j; j_finished := j_finished j;
     j_file := j_file j; j_error := j_error j |}.
Definition set_size (x : string) (j : Job) : Job :=
  {| j_id := j_id j; j_playlist_id := j_playlist_id j;
     j_video_id := j_video_id j; j_title := j_title j;
     j_quality := j_quality j; j_audio_only := j_audio_only j;
     j_status := j_status j; j_queue_pos := j_queue_pos j;
     j_progress := j_progress j; j_speed := j_speed j; j_eta := j_eta j;
     j_size := x; j_phase := j_phase j; j_log := j_log j;
     j_started := j_started j; j_finished := j_finished j;
     j_file := j_file j; j_error := j_error j |}.
Definition set_phase (x : string) (j : Job) : Job :=
  {| j_id := j_id j; j_playlist_id := j_playlist_id j;
     j_video_id := j_video_id j; j_title := j_title j;
     j_quality := j_quality j; j_audio_only := j_audio_only j;
     j_status := j_status j; j_queue_pos := j_queue_pos j;
     j_progress := j_progress j; j_speed := j_speed j; j_eta := j_eta j;
     j_size := j_size j; j_phase := x; j_log := j_log j;
     j_started := j_started j; j_finished := j_finished j;
     j_file := j_file j; j_error := j_error j |}.
Definition set_log (x : list string) (j : Job) : Job :=
  {| j_id := j_id j; j_playlist_id := j_playlist_id j;
     j_video_id := j_video_id j; j_title := j_title j;
     j_quality := j_quality j; j_audio_only := j_audio_only j;
     j_status := j_status j; j_queue_pos := j_queue_pos j;
     j_progress := j_progress j; j_speed := j_speed j; j_eta := j_eta j;
     j_size := j_size j; j_phase := j_phase j; j_log := x;
     j_started := j_started j; j_finished := j_finished j;
     j_file := j_file j; j_error := j_error j |}.
Definition set_started (x : option Q) (j : Job) : Job :=
  {| j_id := j_id j; j_playlist_id := j_playlist_id j;
     j_video_id := j_video_id j; j_title := j_title j;
     j_quality := j_quality j; j_audio_only := j_audio_only j;
     j_status := j_status j; j_queue_pos := j_queue_pos j;
     j_progress := j_progress j; j_speed := j_speed j; j_eta := j_eta j;
     j_size := j_size j; j_phase := j_phase j; j_log := j_log j;
     j_started := x; j_finished := j_finished j; j_file := j_file j;
     j_error := j_error j |}.
Definition set_finished (x : option Q) (j : Job) : Job :=
  {| j_id := j_id j; j_playlist_id := j_playlist_id j;
     j_video_id := j_video_id j; j_title := j_title j;
     j_quality := j_quality j; j_audio_only := j_audio_only j;
     j_status := j_status j; j_queue_pos := j_queue_pos j;
     j_progress := j_progress j; j_speed := j_speed j; j_eta := j_eta j;
     j_size := j_size j; j_phase := j_phase j; j_log := j_log j;
     j_started := j_started j; j_finished := x; j_file := j_file j;
     j_error := j_error j |}.
Definition set_file (x : option string) (j : Job) : Job :=
  {| j_id := j_id j; j_playlist_id := j_playlist_id j;
     j_video_id := j_video_id j; j_title := j_title j;
     j_quality := j_quality j; j_audio_only := j_audio_only j;
     j_status := j_status j; j_queue_pos := j_queue_pos j;
     j_progress := j_progress j; j_speed := j_speed j; j_eta := j_eta j;
     j_size := j_size j; j_phase := j_phase j; j_log := j_log j;
     j_started := j_started j; j_finished := j_finished j; j_file := x;
     j_error := j_error j |}.
Definition set_error (x : option string) (j : Job) : Job :=
  {| j_id := j_id j; j_playlist_id := j_playlist_id j;
     j_video_id := j_video_id j; j_title := j_title j;
     j_quality := j_quality j; j_audio_only := j_audio_only j;
     j_status := j_status j; j_queue_pos := j_queue_pos j;
     j_progress := j_progress j; j_speed := j_speed j; j_eta := j_eta j;
     j_size := j_size j; j_phase := j_phase j; j_log := j_log j;
     j_started := j_started j; j_finished := j_finished j;
     j_file := j_file j; j_error := x |}.

(* ------------------------------------------------------------------------- *)
(** ** An insertion-ordered [dict] with [str] keys

    A list of entries in insertion order.  Assigning to a key that is present
    keeps its place; a new key goes to the end.  All operations keep the keys
    distinct ([keys_set_nodup], [keys_update], [keys_filter_nodup] below). *)

Module Dict.
Section Ops.
Context {V : Type}.

Definition dict : Type := list (string * V).

Fixpoint get (k : string) (d : dict) : option V :=
  match d with
  | [] => None
  | (k', v) :: d' => if String.eqb k' k then Some v else get k d'
  end.

Definition mem (k : string) (d : dict) : bool :=
  match get k d with Some _ => true | None => false end.

(** [d[k][...] = ...]: the value under [k] (there is at most one entry)
    changed in place. *)
Definition update (k : string) (f : V -> V) (d : dict) : dict :=
  map (fun e => if String.eqb (fst e) k then (fst e, f (snd e)) else e) d.

(** [d[k] = v] *)
Definition set (k : string) (v : V) (d : dict) : dict :=
  if mem k d then update k (fun _ => v) d else d ++ [(k, v)].

(** [del d[k]] *)
Definition del (k : string) (d : dict) : dict :=
  filter (fun e => negb (String.eqb (fst e) k)) d.

Definition keys (d : dict) : list string := map fst d.
Definition values (d : dict) : list V := map snd d.
End Ops.
Arguments dict V : clear implicits.
End Dict.

(* ------------------------------------------------------------------------- *)
(** ** Data store *)

(** [DOWNLOAD_DIR], relative to the directory of the script. *)
Definition DOWNLOAD_DIR : string := "YTSync/downloads".
Definition DEFAULT_THREADS : Z := 3%Z.

(** The state of [DATA_FILE]: missing, or present, in which case [content] is
    what [open] followed by [json.load] gives: the decoded document, or the
    exception raised when the file is unreadable or not valid JSON. *)
Inductive DataFile : Type :=
| NoFile
| File (content : Res Data).

Definition empty_catalog : Data :=
  {| playlists := [];
     settings := {| download_dir := DOWNLOAD_DIR; threads := DEFAULT_THREADS |} |}.

Definition load_data (f : DataFile) : Res Data :=
  match f with
  | File content => content      (* if DATA_FILE.exists(): return json.load(f) *)
  | NoFile => Ok empty_catalog
  end.

(** The shared state of the process: the job table [jobs], the admission
    queue [job_queue], the data file, and [write_fault], the exception that
    opening the data file for writing raises at present, if any. *)
Record World : Type := {
  jobs : Dict.dict Job;
  job_queue : list string;
  data_file : DataFile;
  write_fault : option Exn;
}.

Definition with_jobs (js : Dict.dict Job) (w : World) : World :=
  {| jobs := js; job_queue := job_queue w;
     data_file := data_file w; write_fault := write_fault w |}.
Definition with_queue (q : list string) (w : World) : World :=
  {| jobs := jobs w; job_queue := q;
     data_file := data_file w; write_fault := write_fault w |}.
Definition with_data_file (f : DataFile) (w : World) : World :=
  {| jobs := jobs w; job_queue := job_queue w;
     data_file := f; write_fault := write_fault w |}.

(** [save_data]: [open(DATA_FILE, "w")], then [json.dump].  The fault is
    that of [open], which leaves the file as it is; a write that fails
    once the file is open is not modelled. *)
Definition save_data (data : Data) (w : World) : Res unit * World :=
  match write_fault w with
  | Some e => (Raise e, w)
  | None => (Ok tt, with_data_file (File (Ok data)) w)
  end.

(* ------------------------------------------------------------------------- *)
(** ** Programs: sequences of atomic sections

    A thread's code is a tree of atomic sections on the shared [World] (a
    [with lock:] block, or one unlocked read), each handing a value to the
    rest of the code.  Between two sections other threads may run. *)

Inductive Prog (A : Type) : Type :=
| Ret (a : A)
| Throw (e : Exn)
| Atomic {X : Type} (m : World -> X * World) (k : X -> Prog A).
Arguments Ret {A} a.
Arguments Throw {A} e.
Arguments Atomic {A X} m k.

Fixpoint bind {A B} (p : Prog A) (f : A -> Prog B) : Prog B :=
  match p with
  | Ret a => f a
  | Throw e => Throw e
  | Atomic m k => Atomic m (fun x => bind (k x) f)
  end.

Notation "x <- p ;; q" := (bind p (fun x => q))
  (at level 61, p at next level, right associativity).
Notation "p ;; q" := (bind p (fun _ => q))
  (at level 61, right associativity).

Definition lift {A} (r : Res A) : Prog A :=
  match r with Ok a => Ret a | Raise e => Throw e end.

(** One atomic section that may raise. *)
Definition act {A} (m : World -> Res A * World) : Prog A :=
  Atomic m lift.

(** [try: p except Exception as e: h e] *)
Fixpoint try_catch {A} (p : Prog A) (h : Exn -> Prog A) : Prog A :=
  match p with
  | Ret a => Ret a
  | Throw e => h e
  | Atomic m k => Atomic m (fun x => try_catch (k x) h)
  end.

(** [try: p finally: q] *)
Fixpoint try_finally {A} (p : Prog A) (q : Prog unit) : Prog A :=
  match p with
  | Ret a => q ;; Ret a
  | Throw e => q ;; Throw e
  | Atomic m k => Atomic m (fun x => try_finally (k x) q)
  end.

(** Running a program alone, with no other thread in between. *)
Fixpoint exec {A} (p : Prog A) (w : World) : Res A * World :=
  match p with
  | Ret a => (Ok a, w)
  | Throw e => (Raise e, w)
  | Atomic m k => let (x, w') := m w in exec (k x) w'
  end.

(** The same run, recording the world after every atomic section. *)
Fixpoint trace {A} (p : Prog A) (w : World) : list World :=
  match p with
  | Atomic m k => let (x, w') := m w in w' :: trace (k x) w'
  | _ => []
  end.

(* ------------------------------------------------------------------------- *)
(** ** yt-dlp helpers: [fetch_playlist_info] *)

(** The JSON object printed by [yt-dlp --flat-playlist -J], with the keys the
    program reads; a key that is absent is [None].  An element of ["entries"]
    is [None] when it is falsy ([null] or an empty object). *)
#[local] Unset Elimination Schemes.
Inductive Info : Type :=
| mkInfo (id title uploader : option string) (duration : option Q)
         (thumbnail webpage_url_basename : option string)
         (entries : option (list (option Info))).
#[local] Set Elimination Schemes.

Definition i_id (i : Info) := let (x, _, _, _, _, _, _) := i in x.
Definition i_title (i : Info) := let (_, x, _, _, _, _, _) := i in x.
Definition i_uploader (i : Info) := let (_, _, x, _, _, _, _) := i in x.
Definition i_duration (i : Info) := let (_, _, _, x, _, _, _) := i in x.
Definition i_thumbnail (i : Info) := let (_, _, _, _, x, _, _) := i in x.
Definition i_basename (i : Info) := let (_, _, _, _, _, x, _) := i in x.
Definition i_entries (i : Info) := let (_, _, _, _, _, _, x) := i in x.

(** [d.get(key, default)] *)
Definition get_or {A} (x : option A) (default : A) : A :=
  match x with Some a => a | None => default end.

(** The outcome of [subprocess.run(cmd, capture_output=True, ...)] together
    with that of [json.loads(result.stdout)]; the url only selects it. *)
Record YtDlpRun : Type := {
  returncode : Z;
  stderr : string;
  stdout_json : Res Info;
}.

Definition video_of_entry (e : Info) : Video :=
  {| v_id := get_or (i_id e) "";
     v_title := get_or (i_title e) "Unknown";
     v_uploader := get_or (i_uploader e) "";
     v_duration := i_duration e;
     v_thumbnail := get_or (i_thumbnail e) "";
     v_url := ("https://www.youtube.com/watch?v=" ++ get_or (i_id e) "")%string;
     v_downloaded := false;
     v_file_path := None;
     v_quality := None;
     v_audio_only := None |}.

Fixpoint videos_of_entries (es : list (option Info)) : list Video :=
  match es with
  | [] => []
  | Some e :: es' => video_of_entry e :: videos_of_entries es'
  | None :: es' => videos_of_entries es'
  end.

Definition fetch_playlist_info (result : YtDlpRun) : Res (string * list Video) :=
  if negb (Z.eqb (returncode result) 0) then
    Raise (RuntimeError
             (if PyStr.nonempty (PyStr.strip (stderr result))
              then PyStr.strip (stderr result) else "yt-dlp failed"))
  else
    match stdout_json result with
    | Raise e => Raise e
    | Ok data =>
        let entries := get_or (i_entries data) [Some data] in
        Ok (get_or (i_title data) (get_or (i_basename data) "Playlist"),
            videos_of_entries entries)
    end.

(* ------------------------------------------------------------------------- *)
(** ** Thread-pool job queue: the job table *)

Definition is_queued (j : Job) : bool := Status_eqb (j_status j) Queued.

(** [_update_queue_positions], counting from [pos]. *)
Fixpoint update_positions_from (pos : nat) (js : Dict.dict Job) : Dict.dict Job :=
  match js with
  | [] => []
  | (k, j) :: js' =>
      if is_queued j
      then (k, set_queue_pos pos j) :: update_positions_from (S pos) js'
      else (k, j) :: update_positions_from pos js'
  end.

Definition _update_queue_positions (js : Dict.dict Job) : Dict.dict Job :=
  update_positions_from 1 js.

Definition new_job (job_id playlist_id video_id title quality : string)
           (audio_only : bool) : Job :=
  {| j_id := job_id; j_playlist_id := playlist_id;
     j_video_id := video_id; j_title := title;
     j_quality := quality; j_audio_only := audio_only;
     j_status := Queued; j_queue_pos := 0;
     j_progress := 0%Q; j_speed := ""; j_eta := ""; j_size := "";
     j_phase := "queued"; j_log := [];
     j_started := None; j_finished := None; j_file := None; j_error := None |}.

(** [job_queue.put(job_id)] *)
Definition queue_put (job_id : string) (w : World) : unit * World :=
  (tt, with_queue (job_queue w ++ [job_id]) w).

(** [add_job]; [job_id] is the value of [str(uuid.uuid4())[:8]]. *)
Definition add_job (job_id playlist_id video_id title quality : string)
           (audio_only : bool) : Prog string :=
  Atomic (fun w =>
            (tt, with_jobs
                   (_update_queue_positions
                      (Dict.set job_id
                         (new_job job_id playlist_id video_id title quality audio_only)
                         (jobs w))) w))
         (fun _ => Atomic (queue_put job_id) (fun _ => Ret job_id)).

(** [jobs[job_id][field]], read on its own. *)
Definition job_get {X} (job_id : string) (field : Job -> X) (w : World)
  : Res X * World :=
  match Dict.get job_id (jobs w) with
  | Some j => (Ok (field j), w)
  | None => (Raise (KeyError job_id), w)
  end.

(** A block of assignments [jobs[job_id][...] = ...]. *)
Definition job_modify (job_id : string) (f : Job -> Job) (w : World)
  : Res unit * World :=
  match Dict.get job_id (jobs w) with
  | Some _ => (Ok tt, with_jobs (Dict.update job_id f (jobs w)) w)
  | None => (Raise (KeyError job_id), w)
  end.

Definition fail_with (msg : string) (t : Q) (j : Job) : Job :=
  set_finished (Some t) (set_error (Some msg) (set_status Error j)).

(** *** The per-line block of [_run_job] *)

Definition lastn {A} (n : nat) (l : list A) : list A :=
  skipn (List.length l - n) l.

(** [j["log"].append(line)] and the cut to the last 60. *)
Definition log_append (log : list string) (line : string) : list string :=
  let log' := log ++ [line] in
  if 60 <? List.length log' then lastn 60 log' else log'.

Definition phase_in_starting_queued (j : Job) : bool :=
  String.eqb (j_phase j) "starting" || String.eqb (j_phase j) "queued".

Definition apply_progress (parsed : option Progress) (j : Job) : Job :=
  match parsed with
  | Some p => set_size (size p) (set_eta (eta p) (set_speed (speed p)
                (set_progress (pct p) j)))
  | None => j
  end.

Definition is_some {A} (x : option A) : bool :=
  match x with Some _ => true | None => false end.

Definition apply_download_phase (line : string) (parsed : option Progress)
           (j : Job) : Job :=
  let low := PyStr.lower line in
  if PyStr.contains "[download]" line then
    if PyStr.contains "audio" low then set_phase "audio" j
    else if PyStr.contains "video" low then set_phase "video" j
    else if is_some parsed && phase_in_starting_queued j
         then set_phase "downloading" j
         else j
  else j.

Definition post_processing (phase : string) (j : Job) : Job :=
  set_eta "" (set_speed "" (set_progress 99%Q (set_phase phase j))).

Definition apply_merger (line : string) (j : Job) : Job :=
  if PyStr.contains "[merger]" (PyStr.lower line)
  then post_processing "merging" j else j.

Definition apply_extractaudio (line : string) (j : Job) : Job :=
  if PyStr.contains "[extractaudio]" (PyStr.lower line)
  then post_processing "converting" j else j.

Definition apply_line (line : string) (parsed : option Progress) (j : Job) : Job :=
  apply_extractaudio line
    (apply_merger line
       (apply_download_phase line parsed
          (apply_progress parsed
             (set_log (log_append (j_log j) line) j)))).

(** [dm = _RE_DEST.search(line)] and the new value of [output_file]. *)
Definition dest_of_line (line : string) (output_file : option string)
  : option string :=
  match search _RE_DEST line with
  | Some dm => Some (PyStr.strip_char squote
                       (PyStr.strip_char dquote
                          (PyStr.strip (group_or_empty 1 dm))))
  | None => output_file
  end.

Definition line_block (job_id line : string) (parsed : option Progress)
           (output_file : option string) (w : World)
  : Res (option string) * World :=
  match Dict.get job_id (jobs w) with
  | Some _ => (Ok (dest_of_line line output_file),
               with_jobs (Dict.update job_id (apply_line line parsed) (jobs w)) w)
  | None => (Raise (KeyError job_id), w)
  end.

(** [for raw in proc.stdout: ...] *)
Fixpoint stream (job_id : string) (lines : list string)
         (output_file : option string) : Prog (option string) :=
  match lines with
  | [] => Ret output_file
  | raw :: rest =>
      let line := PyStr.rstrip raw in
      parsed <- lift (parse_line line) ;;
      output_file' <- act (line_block job_id line parsed output_file) ;;
      stream job_id rest output_file'
  end.

(** *** [_run_job] *)

(** What the outside world answers during one run of [_run_job]: the clock at
    the places that read it, [out_dir.mkdir], [subprocess.Popen] (which either
    raises or gives the lines of [proc.stdout] and [proc.returncode]), and the
    file system queries of the success path.  The command line built by
    [build_ydl_args] only selects which of these answers the subprocess
    gives, so it does not appear. *)
Record RunEnv : Type := {
  now_started : Q;
  now_finished : Q;
  now_failed : Q;
  now_caught : Q;
  mkdir : Res unit;
  popen : Res (list string * Z);
  path_exists : string -> bool;
  (** [sorted(out_dir.glob(f"*{vid_id}*"), key=mtime, reverse=True)] *)
  out_dir_files : string -> list string;
}.

(** [Path(p).suffix]: from the last dot of the final component, unless that
    dot is its first or its last character. *)
Fixpoint basename (p : string) : string :=
  match p with
  | EmptyString => EmptyString
  | String c p' =>
      if PyStr.contains "/" p then basename p' else p
  end.

Fixpoint from_last_dot (s : string) : option string :=
  match s with
  | EmptyString => None
  | String c s' =>
      match from_last_dot s' with
      | Some x => Some x
      | None => if Ascii.eqb c "." then Some s else None
      end
  end.

Definition suffix (p : string) : string :=
  match basename p with
  | EmptyString => ""
  | String _ rest =>
      match from_last_dot rest with
      | Some x => if String.length x =? 1 then "" else x
      | None => ""
      end
  end.

Definition media_suffixes : list string :=
  [".mp4"; ".mp3"; ".webm"; ".mkv"; ".m4a"].

(** [not output_file or not Path(output_file).exists()] *)
Definition needs_scan (env : RunEnv) (output_file : option string) : bool :=
  match output_file with
  | None => true
  | Some f => negb (PyStr.nonempty f) || negb (path_exists env f)
  end.

(** The first listed file with a known media suffix, if there is one. *)
Definition scan_output (files : list string) (output_file : option string)
  : option string :=
  match find (fun f => existsb (String.eqb (suffix f)) media_suffixes) files with
  | Some f => Some f
  | None => output_file
  end.

Definition running_block (t : Q) (job_id : string) (w : World)
  : Res unit * World :=
  match Dict.get job_id (jobs w) with
  | Some _ =>
      (Ok tt,
       with_jobs
         (_update_queue_positions
            (Dict.update job_id
               (fun j => set_phase "starting"
                           (set_started (Some t) (set_status Running j)))
               (jobs w))) w)
  | None => (Raise (KeyError job_id), w)
  end.

Definition finish_done (output_file : option string) (t : Q) (j : Job) : Job :=
  set_finished (Some t)
    (set_file output_file
       (set_phase "done"
          (set_eta "" (set_speed "" (set_progress 100%Q (set_status Done j)))))).

Definition with_videos (vs : list Video) (pl : Playlist) : Playlist :=
  {| pl_id := pl_id pl; pl_url := pl_url pl; pl_title := pl_title pl;
     pl_videos := vs; pl_added := pl_added pl; pl_synced := pl_synced pl |}.

Definition with_playlists (pls : Dict.dict Playlist) (d : Data) : Data :=
  {| playlists := pls; settings := settings d |}.

Definition downloaded_as (output_file : option string) (quality : string)
           (audio_only : bool) (v : Video) : Video :=
  {| v_id := v_id v; v_title := v_title v; v_uploader := v_uploader v;
     v_duration := v_duration v; v_thumbnail := v_thumbnail v;
     v_url := v_url v;
     v_downloaded := true;
     v_file_path := output_file;
     v_quality := Some quality;
     v_audio_only := Some audio_only |}.

(** [for v in pl["videos"]: if v["id"] == video_id: ...; break] *)
Fixpoint mark_downloaded (video_id : string) (output_file : option string)
         (quality : string) (audio_only : bool) (vs : list Video) : list Video :=
  match vs with
  | [] => []
  | v :: vs' =>
      if String.eqb (v_id v) video_id
      then downloaded_as output_file quality audio_only v :: vs'
      else v :: mark_downloaded video_id output_file quality audio_only vs'
  end.

(** The [with data_lock:] block of the success path. *)
Definition reconcile (job_id : string) (output_file : option string) (w : World)
  : Res unit * World :=
  match load_data (data_file w) with
  | Raise e => (Raise e, w)
  | Ok data =>
      match Dict.get job_id (jobs w) with
      | None => (Raise (KeyError job_id), w)
      | Some j =>
          match Dict.get (j_playlist_id j) (playlists data) with
          | None => (Ok tt, w)
          | Some _ =>
              save_data
                (with_playlists
                   (Dict.update (j_playlist_id j)
                      (fun pl => with_videos
                                   (mark_downloaded (j_video_id j) output_file
                                      (j_quality j) (j_audio_only j)
                                      (pl_videos pl)) pl)
                      (playlists data)) data) w
          end
      end
  end.

(** [next((l.strip() for l in reversed(log) if l.strip()), "yt-dlp error")] *)
Definition last_nonblank (log : list string) : string :=
  match find (fun l => PyStr.nonempty (PyStr.strip l)) (rev log) with
  | Some l => PyStr.strip l
  | None => "yt-dlp error"
  end.

Definition read_data (w : World) : Res Data * World :=
  (load_data (data_file w), w).

Definition _run_job (env : RunEnv) (job_id : string) : Prog unit :=
  act (running_block (now_started env) job_id) ;;
  data <- act read_data ;;
  playlist_id <- act (job_get job_id j_playlist_id) ;;
  match Dict.get playlist_id (playlists data) with
  | None =>
      act (job_modify job_id (fail_with "Playlist not found" (now_finished env)))
  | Some _ =>
      act (job_get job_id j_playlist_id) ;;
      lift (mkdir env) ;;
      act (job_get job_id (fun j => j)) ;;
      try_catch
        (proc <- lift (popen env) ;;
         output_file <- stream job_id (fst proc) None ;;
         if Z.eqb (snd proc) 0 then
           output_file <-
             (if needs_scan env output_file
              then vid_id <- act (job_get job_id j_video_id) ;;
                   Ret (scan_output (out_dir_files env vid_id) output_file)
              else Ret output_file) ;;
           act (job_modify job_id (finish_done output_file (now_finished env))) ;;
           act (reconcile job_id output_file)
         else
           act (job_modify job_id
                  (fun j => fail_with (last_nonblank (j_log j)) (now_finished env) j)))
        (fun e =>
           act (job_modify job_id (fail_with (str_exn e) (now_failed env))))
  end.

(** *** [_worker] *)

(** The [except Exception as e:] block of [_worker]. *)
Definition caught_block (job_id : string) (e : Exn) (t : Q) (w : World)
  : unit * World :=
  (tt, if Dict.mem job_id (jobs w)
       then with_jobs (Dict.update job_id (fail_with (str_exn e) t) (jobs w)) w
       else w).

(** [job_queue.task_done()]; the count of unfinished tasks is not part of
    [World]. *)
Definition task_done (w : World) : unit * World := (tt, w).

(** The body of the [while True:] loop of [_worker], once [job_queue.get()]
    has returned [job_id]. *)
Definition _worker_iter (env : RunEnv) (job_id : string) : Prog unit :=
  try_finally
    (try_catch (_run_job env job_id)
       (fun e => Atomic (caught_block job_id e (now_caught env)) Ret))
    (Atomic task_done Ret).

(* ------------------------------------------------------------------------- *)
(** ** HTTP handlers that touch jobs and videos *)

Definition is_terminal (j : Job) : bool :=
  match j_status j with Done | Error => true | _ => false end.

(** [POST /api/jobs/clear]; the result is the ["cleared"] count. *)
Definition jobs_clear (w : World) : nat * World :=
  let done := map fst (filter (fun e => is_terminal (snd e)) (jobs w)) in
  (List.length done,
   with_jobs (fold_left (fun js jid => Dict.del jid js) done (jobs w)) w).

Inductive Reply : Type :=
| ReplyError (code : nat) (msg : string)
| ReplyDeleted.

Definition forget_file (v : Video) : Video :=
  {| v_id := v_id v; v_title := v_title v; v_uploader := v_uploader v;
     v_duration := v_duration v; v_thumbnail := v_thumbnail v;
     v_url := v_url v;
     v_downloaded := false;
     v_file_path := None;
     v_quality := None;
     v_audio_only := None |}.

(** [v.get("file_path")] as a condition. *)
Definition has_file_path (v : Video) : bool :=
  match v_file_path v with Some p => PyStr.nonempty p | None => false end.

Definition delete_files (video_ids : list string) (vs : list Video) : list Video :=
  map (fun v => if existsb (String.eqb (v_id v)) video_ids && has_file_path v
                then forget_file v else v) vs.

(** The [with data_lock:] block of [POST /api/video/delete-file].  Unlinking
    the files and the ["deleted"] count concern the file system only and are
    left out. *)
Definition delete_file_block (pl_id : string) (video_ids : list string)
           (w : World) : Res Reply * World :=
  match load_data (data_file w) with
  | Raise e => (Raise e, w)
  | Ok data =>
      match Dict.get pl_id (playlists data) with
      | None => (Ok (ReplyError 404 "Playlist not found"), w)
      | Some _ =>
          match save_data
                  (with_playlists
                     (Dict.update pl_id
                        (fun pl => with_videos
                                     (delete_files video_ids (pl_videos pl)) pl)
                        (playlists data)) data) w with
          | (Ok _, w') => (Ok ReplyDeleted, w')
          | (Raise e, w') => (Raise e, w')
          end
      end
  end.

Definition delete_file_handler (pl_id : option string)
           (video_ids : string + list string) : Prog Reply :=
  let video_ids := match video_ids with inl s => [s] | inr l => l end in
  match pl_id, video_ids with
  | Some p, _ :: _ =>
      if PyStr.nonempty p then act (delete_file_block p video_ids)
      else Ret (ReplyError 400 "playlist_id and video_ids required")
  | _, _ => Ret (ReplyError 400 "playlist_id and video_ids required")
  end.

(* ------------------------------------------------------------------------- *)
(** ** The thread pool

    [start_thread_pool n] starts [n] workers; request threads come and go.
    A worker is either blocked in [job_queue.get()] or inside the loop body
    for the job it dequeued.  Every step below is one atomic section of one
    thread. *)

Inductive Thread : Type :=
| Idle
| Busy (job_id : string) (p : Prog unit)
| Adding (job_id : string) (p : Prog string).

Record Sys : Type := {
  world : World;
  pool : list Thread;
}.

(** One atomic section of a program, if it has one left. *)
Definition advance {A} (p : Prog A) (w : World) : option (Prog A * World) :=
  match p with
  | Atomic m k => let (x, w') := m w in Some (k x, w')
  | _ => None
  end.

Definition finished {A} (p : Prog A) : bool :=
  match p with Ret _ => true | _ => false end.

(** The job ids a thread still has to hand over or to work on. *)
Definition thread_ids (t : Thread) : list string :=
  match t with
  | Idle => []
  | Busy job_id _ => [job_id]
  | Adding job_id p => if finished p then [] else [job_id]
  end.

Definition live_ids (s : Sys) : list string :=
  job_queue (world s) ++ flat_map thread_ids (pool s).

Definition with_store (f : DataFile) (fault : option Exn) (w : World) : World :=
  {| jobs := jobs w; job_queue := job_queue w;
     data_file := f; write_fault := fault |}.

Inductive step : Sys -> Sys -> Prop :=
| step_request_add s job_id playlist_id video_id title quality audio_only :
    (* uuid4 does not repeat an id that is still on its way *)
    ~ In job_id (live_ids s) ->
    step s {| world := world s;
              pool := Adding job_id
                        (add_job job_id playlist_id video_id title quality
                                 audio_only) :: pool s |}
| step_adding w l1 l2 job_id p p' w' :
    advance p w = Some (p', w') ->
    step {| world := w; pool := l1 ++ Adding job_id p :: l2 |}
         {| world := w'; pool := l1 ++ Adding job_id p' :: l2 |}
| step_request_clear s :
    step s {| world := snd (jobs_clear (world s)); pool := pool s |}
| step_store s f fault :
    (* any other writer of the data file, inside or outside the process *)
    step s {| world := with_store f fault (world s); pool := pool s |}
| step_dequeue w l1 l2 job_id rest env :
    job_queue w = job_id :: rest ->
    step {| world := w; pool := l1 ++ Idle :: l2 |}
         {| world := with_queue rest w;
            pool := l1 ++ Busy job_id (_worker_iter env job_id) :: l2 |}
| step_worker w l1 l2 job_id p p' w' :
    advance p w = Some (p', w') ->
    step {| world := w; pool := l1 ++ Busy job_id p :: l2 |}
         {| world := w'; pool := l1 ++ Busy job_id p' :: l2 |}
| step_loop w l1 l2 job_id :
    step {| world := w; pool := l1 ++ Busy job_id (Ret tt) :: l2 |}
         {| world := w; pool := l1 ++ Idle :: l2 |}.

Inductive reachable (s0 : Sys) : Sys -> Prop :=
| reach_refl : reachable s0 s0
| reach_step s s' : reachable s0 s -> step s s' -> reachable s0 s'.

(** The process right after [start_thread_pool n]. *)
Definition boot (n : nat) (f : DataFile) (fault : option Exn) : Sys :=
  {| world := {| jobs := []; job_queue := [];
                 data_file := f; write_fault := fault |};
     pool := repeat Idle n |}.

(* ------------------------------------------------------------------------- *)
(** ** Properties of states *)

(** The [queue_pos] of the queued jobs, in table order. *)
Definition queued_positions (js : Dict.dict Job) : list nat :=
  map j_queue_pos (filter is_queued (Dict.values js)).

(** They are 1, 2, ..., k. *)
Definition contiguous (js : Dict.dict Job) : Prop :=
  queued_positions js = List.seq 1 (List.length (queued_positions js)).

(** No entry of the table under [job_id] is queued. *)
Definition left_queue (job_id : string) (js : Dict.dict Job) : Prop :=
  Forall (fun e => fst e = job_id -> is_queued (snd e) = false) js.

(** What a step of the worker of [job_id] guarantees once the job is marked
    running: the queue and the keys stay, no job becomes queued, and the
    positions stay contiguous. *)
Definition guar (job_id : string) (w w' : World) : Prop :=
  job_queue w' = job_queue w /\
  Dict.keys (jobs w') = Dict.keys (jobs w) /\
  (forall i, left_queue i (jobs w) -> left_queue i (jobs w')) /\
  (left_queue job_id (jobs w) -> contiguous (jobs w) -> contiguous (jobs w')).

(** The guarantee of the first step, which marks the job running. *)
Definition guar0 (job_id : string) (w w' : World) : Prop :=
  job_queue w' = job_queue w /\
  Dict.keys (jobs w') = Dict.keys (jobs w) /\
  (forall i, left_queue i (jobs w) -> left_queue i (jobs w')) /\
  left_queue job_id (jobs w') /\
  (contiguous (jobs w) -> contiguous (jobs w')).

Fixpoint follows {A} (job_id : string) (p : Prog A) : Prop :=
  match p with
  | Atomic m k =>
      (forall w, guar job_id w (snd (m w))) /\ (forall x, follows job_id (k x))
  | _ => True
  end.

(** The program has a first step, with the guarantee [guar0], and goes on
    with steps that keep [guar]. *)
Definition starts {A} (job_id : string) (p : Prog A) : Prop :=
  match p with
  | Atomic m k =>
      (forall w, guar0 job_id w (snd (m w))) /\ (forall x, follows job_id (k x))
  | _ => False
  end.

(** A change of one record that never queues a job. *)
Definition quiet (f : Job -> Job) : Prop :=
  forall j, is_queued j = false -> is_queued (f j) = false.

(** No continuation of the program is an uncaught exception. *)
Fixpoint never_throws {A} (p : Prog A) : Prop :=
  match p with
  | Ret _ => True
  | Throw _ => False
  | Atomic m k => forall x, never_throws (k x)
  end.

(** A worker is alive when the code it still has to run cannot end in an
    uncaught exception. *)
Definition alive (t : Thread) : Prop :=
  match t with
  | Busy _ p => never_throws p
  | _ => True
  end.

Definition adding_ok (job_id : string) (p : Prog string) : Prop :=
  (exists playlist_id video_id title quality audio_only,
      p = add_job job_id playlist_id video_id title quality audio_only)
  \/ p = Atomic (queue_put job_id) (fun _ => Ret job_id)
  \/ p = Ret job_id.

Definition thread_ok (w : World) (t : Thread) : Prop :=
  match t with
  | Idle => True
  | Busy job_id p =>
      starts job_id p \/ (left_queue job_id (jobs w) /\ follows job_id p)
  | Adding job_id p => adding_ok job_id p
  end.

Record pool_inv (s : Sys) : Prop := {
  inv_contiguous : contiguous (jobs (world s));
  inv_keys : NoDup (Dict.keys (jobs (world s)));
  inv_live : NoDup (live_ids s);
  inv_threads : Forall (thread_ok (world s)) (pool s);
}.

(** The video invariant of the catalog. *)
Definition video_ok (v : Video) : Prop :=
  v_downloaded v = true <-> v_file_path v <> None.

Definition catalog_ok (d : Data) : Prop :=
  forall k pl v, In (k, pl) (playlists d) -> In v (pl_videos pl) -> video_ok v.

(** The moves of the job state machine. *)
Definition allowed (a b : Status) : bool :=
  match a, b with
  | Queued, Running | Running, Done | Running, Error => true
  | _, _ => false
  end.

Definition status_of (job_id : string) (w : World) : option Status :=
  option_map j_status (Dict.get job_id (jobs w)).

(* ------------------------------------------------------------------------- *)
(** ** Concrete scenarios used by the examples below *)

Module Scenario.

Definition progress_line : string :=
  "[download]  42.5% of ~10.00MiB at 512.00KiB/s ETA 00:20".

Definition dotted_line : string :=
  "[download] 1.2.3% of 10MiB at 5KiB/s ETA 00:20".

Definition video (i : string) : Video :=
  video_of_entry (mkInfo (Some i) (Some "Title") None None None None None).

Definition playlist : Playlist :=
  {| pl_id := "p1"; pl_url := "https://www.youtube.com/playlist?list=PL1";
     pl_title := "Mix"; pl_videos := [video "a"; video "b"];
     pl_added := 0%Q; pl_synced := 0%Q |}.

Definition catalog : Data := with_playlists [("p1", playlist)] empty_catalog.

(** One queued job for video [b] of playlist [p1]. *)
Definition queued_world (fault : option Exn) : World :=
  snd (exec (add_job "j1" "p1" "b" "Title" "best" false)
            {| jobs := []; job_queue := [];
               data_file := File (Ok catalog); write_fault := fault |}).

(** yt-dlp prints [lines] and exits with [rc]; the download directory holds
    no file for the video. *)
Definition run_env (lines : list string) (rc : Z) : RunEnv :=
  {| now_started := 1%Q; now_finished := 2%Q;
     now_failed := 3%Q; now_caught := 4%Q;
     mkdir := Ok tt; popen := Ok (lines, rc);
     path_exists := fun _ => false; out_dir_files := fun _ => [] |}.

(** [data.json] is read-only: [open(DATA_FILE, "w")] raises
    [PermissionError], an [OSError]. *)
Definition read_only : Exn :=
  OSError "[Errno 13] Permission denied: 'YTSync/data.json'".

Definition not_json : Exn :=
  JSONDecodeError "Expecting value: line 1 column 1 (char 0)".

Definition probe_job (phase : string) : Job :=
  set_phase phase (new_job "j1" "p1" "b" "Title" "best" false).

(** The state one turn of the worker loop leaves when yt-dlp exits with
    code 0 without printing anything and the download directory holds no
    media file for the video. *)
Definition silent_success : World :=
  snd (exec (_worker_iter (run_env [] 0) "j1") (queued_world None)).

(** Two requests have gone through [add_job]; the one worker is idle. *)
Definition two_queued : Sys :=
  {| world := snd (exec (add_job "j2" "p1" "a" "Title" "720p" true)
                        (queued_world None));
     pool := [Adding "j2" (Ret "j2"); Adding "j1" (Ret "j1"); Idle] |}.

End Scenario.

(* ------------------------------------------------------------------------- *)
(** ** yt-dlp helpers: [build_ydl_args] *)

Definition FFMPEG_LOCATION : string := "ffmpeg".

Definition fmt_map : Dict.dict string :=
  [ ("best",  "bestvideo[ext=mp4]+bestaudio[ext=m4a]/best[ext=mp4]/best");
    ("1080p", "bestvideo[height<=1080][ext=mp4]+bestaudio[ext=m4a]/best[height<=1080]");
    ("720p",  "bestvideo[height<=720][ext=mp4]+bestaudio[ext=m4a]/best[height<=720]");
    ("480p",  "bestvideo[height<=480][ext=mp4]+bestaudio[ext=m4a]/best[height<=480]");
    ("360p",  "bestvideo[height<=360][ext=mp4]+bestaudio[ext=m4a]/best[height<=360]") ].

(** [str(out_dir / name)] for a directory given by its string. *)
Definition path_join (dir name : string) : string :=
  (dir ++ "/" ++ name)%string.

Definition build_ydl_args (video_id quality : string) (audio_only : bool)
           (out_dir : string) : list string :=
  let url := ("https://www.youtube.com/watch?v=" ++ video_id)%string in
  let args := ["yt-dlp"; "--no-playlist"] in
  let args :=
    if audio_only
    then args ++ ["-x"; "--audio-format"; "mp3"; "--audio-quality"; "0"]
    else args ++ ["-f";
                  get_or (Dict.get quality fmt_map)
                         (get_or (Dict.get "best" fmt_map) "");
                  "--merge-output-format"; "mp4"] in
  let tmpl := path_join out_dir "%(title)s [%(id)s].%(ext)s" in
  let args :=
    if PyStr.nonempty FFMPEG_LOCATION
    then args ++ ["--ffmpeg-location"; FFMPEG_LOCATION] else args in
  args ++ ["-o"; tmpl; "--write-info-json"; "--no-write-playlist-metafiles";
           "--progress"; "--newline"; url].

(** [quality in fmt_map] *)
Definition known_tier (quality : string) : bool :=
  Dict.mem quality fmt_map.

(* ------------------------------------------------------------------------- *)
(** ** HTTP handlers of the catalog *)

Inductive Response : Type :=
| RespError (code : nat) (msg : string)
| RespPlaylist (pl : Playlist)
| RespAdded (added : list Video)
| RespJobs (job_ids : list string)
| RespOk.

(** [{v["id"]: v for v in videos}]: a later video replaces an earlier one
    with the same id. *)
Definition index_by_id (vs : list Video) : Dict.dict Video :=
  fold_left (fun d v => Dict.set (v_id v) v d) vs [].

(** [[existing[v["id"]] if v["id"] in existing else v for v in remote]] *)
Definition sync_videos (old remote : list Video) : list Video :=
  let existing := index_by_id old in
  map (fun v => match Dict.get (v_id v) existing with
                | Some known => known
                | None => v
                end) remote.

(** [added = [v for v in remote if v["id"] not in existing]] with
    [existing = {v["id"] for v in old}]. *)
Definition new_videos (old remote : list Video) : list Video :=
  filter (fun v => negb (existsb (String.eqb (v_id v)) (map v_id old))) remote.

(** [pl["videos"] = [v for v in pl["videos"] if v["id"] != video_id]];
    [video_id] is [None] when the request body has none, and then differs
    from every id. *)
Definition remove_video (video_id : option string) (vs : list Video)
  : list Video :=
  filter (fun v => match video_id with
                   | Some i => negb (String.eqb (v_id v) i)
                   | None => true
                   end) vs.

Definition synced_playlist (title : string) (vs : list Video) (now : Q)
           (pl : Playlist) : Playlist :=
  {| pl_id := pl_id pl; pl_url := pl_url pl; pl_title := title;
     pl_videos := vs; pl_added := pl_added pl; pl_synced := now |}.

(** [with data_lock: data = load_data(); pl = data["playlists"].get(pl_id)];
    the key is [None] when the request body has none. *)
Definition find_playlist (pl_id : option string) (w : World)
  : Res (option Playlist) * World :=
  match load_data (data_file w) with
  | Raise e => (Raise e, w)
  | Ok data =>
      (Ok match pl_id with
          | Some k => Dict.get k (playlists data)
          | None => None
          end, w)
  end.

(** [with data_lock: data = load_data(); data["playlists"][pl_id] = pl;
    save_data(data)] *)
Definition store_playlist (pl_id : string) (pl : Playlist) (w : World)
  : Res unit * World :=
  match load_data (data_file w) with
  | Raise e => (Raise e, w)
  | Ok data =>
      save_data (with_playlists (Dict.set pl_id pl (playlists data)) data) w
  end.

(** What [body.get("url", "")] gives: a string, the empty one when the body
    has no url, or a JSON value of another type, given by the name of its
    Python type ([NoneType], [int], [list], ...). *)
Inductive UrlField : Type :=
| UrlStr (s : string)
| UrlOther (type_name : string).

(** [body.get("url", "").strip()] *)
Definition url_of_body (url : UrlField) : Res string :=
  match url with
  | UrlStr s => Ok (PyStr.strip s)
  | UrlOther t =>
      Raise (AttributeError
               ("'" ++ t ++ "' object has no attribute 'strip'")%string)
  end.

(** [fetch_playlist_info] with its call of [subprocess.run], which raises
    itself when the output does not decode or yt-dlp cannot be started;
    [run] is the result of that call. *)
Definition fetch_playlist_info_run (run : Res YtDlpRun)
  : Res (string * list Video) :=
  match run with
  | Raise e => Raise e
  | Ok result => fetch_playlist_info result
  end.


(** [POST /api/playlist/sync] *)
Definition playlist_sync_handler (pl_id : option string) (run : YtDlpRun)
           (now : Q) : Prog Response :=
  pl <- act (find_playlist pl_id) ;;
  match pl, pl_id with
  | Some pl, Some k =>
      try_catch
        (info <- lift (fetch_playlist_info run) ;;
         let pl' := synced_playlist (fst info)
                      (sync_videos (pl_videos pl) (snd info)) now pl in
         act (store_playlist k pl') ;;
         Ret (RespPlaylist pl'))
        (fun e => Ret (RespError 500 (str_exn e)))
  | _, _ => Ret (RespError 404 "Playlist not found")
  end.

(** [POST /api/video/add]; the url is stripped before the playlist is
    looked up, outside the [try]. *)
Definition video_add_handler (pl_id : option string) (url : UrlField)
           (run : Res YtDlpRun) : Prog Response :=
  lift (url_of_body url) ;;
  pl <- act (find_playlist pl_id) ;;
  match pl, pl_id with
  | Some pl, Some k =>
      try_catch
        (info <- lift (fetch_playlist_info_run run) ;;
         let added := new_videos (pl_videos pl) (snd info) in
         act (store_playlist k (with_videos (pl_videos pl ++ added) pl)) ;;
         Ret (RespAdded added))
        (fun e => Ret (RespError 500 (str_exn e)))
  | _, _ => Ret (RespError 404 "Playlist not found")
  end.

(** The [with data_lock:] block of [DELETE /api/playlist/<pl_id>]. *)
Definition playlist_delete_block (pl_id : string) (w : World)
  : Res Response * World :=
  match load_data (data_file w) with
  | Raise e => (Raise e, w)
  | Ok data =>
      if Dict.mem pl_id (playlists data) then
        match save_data (with_playlists (Dict.del pl_id (playlists data)) data) w with
        | (Ok _, w') => (Ok RespOk, w')
        | (Raise e, w') => (Raise e, w')
        end
      else (Ok (RespError 404 "Not found"), w)
  end.

(** The [with data_lock:] block of [DELETE /api/video/remove]. *)
Definition video_remove_block (pl_id video_id : option string)
           (w : World) : Res Response * World :=
  match load_data (data_file w) with
  | Raise e => (Raise e, w)
  | Ok data =>
      match pl_id with
      | Some k =>
          if Dict.mem k (playlists data) then
            match save_data
                    (with_playlists
                       (Dict.update k
                          (fun pl => with_videos
                                       (remove_video video_id (pl_videos pl)) pl)
                          (playlists data)) data) w with
            | (Ok _, w') => (Ok RespOk, w')
            | (Raise e, w') => (Raise e, w')
            end
          else (Ok (RespError 404 "Playlist not found"), w)
      | None => (Ok (RespError 404 "Playlist not found"), w)
      end
  end.

(* ------------------------------------------------------------------------- *)
(** ** Properties of catalogs and runs used further below *)

(** A video as [fetch_playlist_info] makes it. *)
Definition fresh_video (v : Video) : Prop :=
  v_downloaded v = false /\ v_file_path v = None
  /\ v_quality v = None /\ v_audio_only v = None
  /\ v_url v = ("https://www.youtube.com/watch?v=" ++ v_id v)%string.

(** The entries that pass [if e:]. *)
Fixpoint present_entries (es : list (option Info)) : list Info :=
  match es with
  | [] => []
  | Some e :: es' => e :: present_entries es'
  | None :: es' => present_entries es'
  end.

(** A program whose first atomic section runs in [w1] and whose remaining
    sections run, alone, from [w2]: other threads have turned [w1] into [w2]
    in between. *)
Definition exec_resumed {A} (p : Prog A) (w1 w2 : World) : Res A * World :=
  match advance p w1 with
  | Some (p', _) => exec p' w2
  | None => exec p w2
  end.

(** A log line with nothing but white space. *)
Definition blank (l : string) : Prop := PyStr.nonempty (PyStr.strip l) = false.

(** The signal of a line on which [parse_line] does not raise. *)
Definition signal (line : string) : option Progress :=
  match parse_line line with
  | Ok parsed => parsed
  | Raise _ => None
  end.

Definition parses (raw : string) : Prop :=
  exists parsed, parse_line (PyStr.rstrip raw) = Ok parsed.

(** The record of a job and the captured path after the loop of [_run_job]
    has gone through [lines]. *)
Definition streamed_job (lines : list string) (j : Job) : Job :=
  fold_left (fun j raw => apply_line (PyStr.rstrip raw)
                                     (signal (PyStr.rstrip raw)) j) lines j.

Definition streamed_output (lines : list string) (output_file : option string)
  : option string :=
  fold_left (fun o raw => dest_of_line (PyStr.rstrip raw) o) lines output_file.

(** The record of a job once the first block of [_run_job] has run. *)
Definition started_job (t : Q) (j : Job) : Job :=
  set_phase "starting" (set_started (Some t) (set_status Running j)).


(* ------------------------------------------------------------------------- *)
(** ** [GET /api/status] and the workers *)

Definition is_running (j : Job) : bool := Status_eqb (j_status j) Running.

(** [sum(1 for j in jobs.values() if j["status"] == "running")] and the same
    for ["queued"], read under [jobs_lock]. *)
Definition active_jobs (w : World) : nat :=
  List.length (filter is_running (Dict.values (jobs w))).
Definition queued_jobs (w : World) : nat :=
  List.length (filter is_queued (Dict.values (jobs w))).

(** The ids of the jobs that are running. *)
Definition running_ids (js : Dict.dict Job) : list string :=
  map fst (filter (fun e => is_running (snd e)) js).

(** The ids the workers are busy with. *)
Definition busy_ids (ts : list Thread) : list string :=
  flat_map (fun t => match t with Busy job_id _ => [job_id] | _ => [] end) ts.

Definition is_worker (t : Thread) : bool :=
  match t with Adding _ _ => false | _ => true end.

(** A change of one record that does not make it running. *)
Definition keeps_status (f : Job -> Job) : Prop :=
  forall j, is_running (f j) = true -> is_running j = true.

(** No step of the program makes a job running. *)
Fixpoint tame {A} (p : Prog A) : Prop :=
  match p with
  | Atomic m k =>
      (forall w, incl (running_ids (jobs (snd (m w)))) (running_ids (jobs w)))
      /\ (forall x, tame (k x))
  | _ => True
  end.

(** The first step makes at most [job_id] running, the rest is tame. *)
Definition tame_after_first {A} (job_id : string) (p : Prog A) : Prop :=
  match p with
  | Atomic m k =>
      (forall w, incl (running_ids (jobs (snd (m w))))
                      (job_id :: running_ids (jobs w)))
      /\ (forall x, tame (k x))
  | _ => False
  end.

(** Along every run of the program, some step leaves [job_id] not running
    before the program returns with [done] or raises with [raised]. *)
Fixpoint settles {A} (job_id : string) (done : A -> Prop) (raised : Exn -> Prop)
         (p : Prog A) : Prop :=
  match p with
  | Ret a => done a
  | Throw e => raised e
  | Atomic m k =>
      forall w, ~ In job_id (running_ids (jobs (snd (m w))))
                \/ settles job_id done raised (k (fst (m w)))
  end.

(** A worker never returns to the queue with its job still running. *)
Definition settles_job (job_id : string) (p : Prog unit) : Prop :=
  settles job_id (fun _ => False) (fun _ => True) p.

Definition worker_ok (w : World) (t : Thread) : Prop :=
  match t with
  | Busy job_id p =>
      (tame_after_first job_id p /\ settles_job job_id p)
      \/ (tame p
          /\ (~ In job_id (running_ids (jobs w)) \/ settles_job job_id p))
  | _ => True
  end.

Record workers_inv (n : nat) (s : Sys) : Prop := {
  winv_pool : pool_inv s;
  winv_running : incl (running_ids (jobs (world s))) (busy_ids (pool s));
  winv_threads : Forall (worker_ok (world s)) (pool s);
  winv_count : List.length (filter is_worker (pool s)) = n;
}.

(* ------------------------------------------------------------------------- *)
(** ** Serving a media file: [_serve_file]

    The file is the list of its bytes, [range_hdr] the value of the
    [Range] header if the request has one.  The [Content-Type] header is
    left out. *)

Module Py.

(** [s.replace(old, new)] for [old] not empty: the occurrences of [old] are
    taken from the left and do not overlap; [skip] counts the characters of
    an occurrence still to pass over. *)
Fixpoint replace_from (skip : nat) (old new s : string) : string :=
  match s with
  | EmptyString => EmptyString
  | String c s' =>
      match skip with
      | S k => replace_from k old new s'
      | 0 =>
          if PyStr.startswith old s
          then (new ++ replace_from (String.length old - 1) old new s')%string
          else String c (replace_from 0 old new s')
      end
  end.

Definition replace (old new s : string) : string := replace_from 0 old new s.

(** [s.split(sep)] for a separator of one character. *)
Fixpoint split (sep : ascii) (s : string) : list string :=
  match s with
  | EmptyString => [EmptyString]
  | String c s' =>
      if Ascii.eqb c sep then EmptyString :: split sep s'
      else match split sep s' with
           | p :: ps => String c p :: ps
           | [] => [String c EmptyString]
           end
  end.

(** The white space [int] passes over at both ends: that of [str.strip]
    without FS..US. *)
Definition int_space (c : ascii) : bool :=
  let n := PyStr.code c in
  ((9 <=? n) && (n <=? 13)) || (n =? 32) || (n =? 133) || (n =? 160).

(** The digits after a first digit, single underscores between digits
    allowed: the value, the count of digits and what is left. *)
Fixpoint int_digits (acc : Z) (n : nat) (s : string) : Z * nat * string :=
  match s with
  | String c s' =>
      if PyStr.isdigit c
      then int_digits (10 * acc + Z.of_nat (PyStr.code c - 48)) (S n) s'
      else if Ascii.eqb c "_" then
        match s' with
        | String c' s'' =>
            if PyStr.isdigit c'
            then int_digits (10 * acc + Z.of_nat (PyStr.code c' - 48)) (S n) s''
            else (acc, n, s)
        | EmptyString => (acc, n, s)
        end
      else (acc, n, s)
  | EmptyString => (acc, n, s)
  end.

(** An unsigned literal, then white space to the end. *)
Definition int_unsigned (max_str_digits : nat) (s : string) : option Z :=
  match s with
  | String c s' =>
      if PyStr.isdigit c then
        let '(v, n, rest) := int_digits (Z.of_nat (PyStr.code c - 48)) 1 s' in
        match PyStr.lstrip_by int_space rest with
        | EmptyString =>
            if (640 <? n) && (0 <? max_str_digits) && (max_str_digits <? n)
            then None else Some v
        | _ => None
        end
      else None
  | EmptyString => None
  end.

(** [int(s)] for a [str]; [None] stands for the [ValueError].
    [max_str_digits] is [sys.get_int_max_str_digits()], 0 when the
    interpreter has no limit. *)
Definition int (max_str_digits : nat) (s : string) : option Z :=
  match PyStr.lstrip_by int_space s with
  | String c s' =>
      if Ascii.eqb c "+" then int_unsigned max_str_digits s'
      else if Ascii.eqb c "-"
      then option_map Z.opp (int_unsigned max_str_digits s')
      else int_unsigned max_str_digits (String c s')
  | EmptyString => None
  end.

End Py.

(** The [try] block of [_serve_file]: [start] and [end] of the range, or
    [None] when one of its statements raises. *)
Definition parse_range (max_str_digits : nat) (range_hdr : string)
           (file_size : Z) : option (Z * Z) :=
  let byte_range := Py.replace "bytes=" "" (PyStr.strip range_hdr) in
  match Py.split "-" byte_range with
  | [start_str; end_str] =>
      match (if PyStr.nonempty start_str
             then Py.int max_str_digits start_str else Some 0%Z) with
      | Some start =>
          match (if PyStr.nonempty end_str
                 then Py.int max_str_digits end_str
                 else Some (file_size - 1)%Z) with
          | Some end_ => Some (start, Z.min end_ (file_size - 1))
          | None => None
          end
      | None => None
      end
  | _ => None
  end.

(** [f.read(n)] for [n] not negative, on what is left of the file: the
    bytes read and the rest. *)
Definition read_bytes (n : nat) (rest : list Byte.byte)
  : list Byte.byte * list Byte.byte :=
  (firstn n rest, skipn n rest).

(** [f.read(n)] of a [BufferedReader]: everything that is left for [-1], a
    [ValueError] below that. *)
Definition read (n : Z) (rest : list Byte.byte)
  : Res (list Byte.byte * list Byte.byte) :=
  if (n <? -1)%Z
  then Raise (ValueError "read length must be non-negative or -1")
  else if (n <? 0)%Z then Ok (rest, [])
  else Ok (read_bytes (Z.to_nat n) rest).

(** [f.seek(start)] from the beginning of the file; a negative offset is an
    [OSError]. *)
Definition seek (start : Z) (file : list Byte.byte) : Res (list Byte.byte) :=
  if (start <? 0)%Z then Raise (OSError "[Errno 22] Invalid argument")
  else Ok (skipn (Z.to_nat start) file).

(** [while remaining: buf = f.read(min(65536, remaining)) ...]: the bytes
    written and how the loop ends; [None] when [fuel] rounds of the loop
    are not enough. *)
Fixpoint send_range (fuel : nat) (rest : list Byte.byte) (remaining : Z)
  : option (list Byte.byte * Res unit) :=
  if (remaining =? 0)%Z then Some ([], Ok tt)
  else
    match fuel with
    | 0 => None
    | S fuel' =>
        match read (Z.min 65536 remaining) rest with
        | Raise e => Some ([], Raise e)
        | Ok ([], _) => Some ([], Ok tt)
        | Ok (buf, rest') =>
            match send_range fuel' rest'
                             (remaining - Z.of_nat (List.length buf)) with
            | Some (sent, ended) => Some (buf ++ sent, ended)
            | None => None
            end
        end
    end.

(** [while True: buf = f.read(65536) ...] *)
Fixpoint send_all (fuel : nat) (rest : list Byte.byte)
  : option (list Byte.byte) :=
  match fuel with
  | 0 => None
  | S fuel' =>
      let (buf, rest') := read_bytes (Z.to_nat 65536) rest in
      match buf with
      | [] => Some []
      | _ :: _ => option_map (app buf) (send_all fuel' rest')
      end
  end.

(** What the client gets.  [Status206Raised]: the headers of a 206 answer
    and [body] were written, then the exception left [_serve_file]. *)
Inductive Served : Type :=
| Status200 (content_length : Z) (body : list Byte.byte)
| Status206 (start end_ file_size content_length : Z) (body : list Byte.byte)
| Status206Raised (start end_ file_size content_length : Z)
                  (body : list Byte.byte) (e : Exn)
| Status416 (file_size : Z).

(** [_serve_file]; the result is [None] when a loop needs more than [fuel]
    rounds, and [Raise] when an exception leaves the method before a status
    line is written. *)
Definition _serve_file (max_str_digits fuel : nat) (range_hdr : option string)
           (file : list Byte.byte) : option (Res Served) :=
  let file_size := Z.of_nat (List.length file) in
  let whole :=
    option_map (fun body => Ok (Status200 file_size body))
               (send_all fuel file) in
  match range_hdr with
  | Some h =>
      if PyStr.nonempty h then
        match parse_range max_str_digits h file_size with
        | None => Some (Ok (Status416 file_size))
        | Some (start, end_) =>
            let chunk := (end_ - start + 1)%Z in
            match seek start file with
            | Raise e =>
                Some (Ok (Status206Raised start end_ file_size chunk [] e))
            | Ok rest =>
                match send_range fuel rest chunk with
                | Some (body, Ok _) =>
                    Some (Ok (Status206 start end_ file_size chunk body))
                | Some (body, Raise e) =>
                    Some (Ok (Status206Raised start end_ file_size chunk
                                              body e))
                | None => None
                end
            end
        end
      else whole
  | None => whole
  end.

(** Every character of [s] satisfies [p]. *)
Fixpoint all_chars (p : ascii -> bool) (s : string) : bool :=
  match s with
  | EmptyString => true
  | String c s' => p c && all_chars p s'
  end.

(** The bytes the loop of a 206 answer writes from [rest] and how it ends,
    in closed form. *)
Definition range_sent (rest : list Byte.byte) (remaining : Z)
  : list Byte.byte * Res unit :=
  let bad := Raise (ValueError "read length must be non-negative or -1") in
  if (remaining <? -1)%Z then ([], bad)
  else if (remaining <? 0)%Z then
    match rest with
    | [] => ([], Ok tt)
    | _ :: _ => (rest, bad)
    end
  else (firstn (Z.to_nat remaining) rest, Ok tt).

(* ------------------------------------------------------------------------- *)
(** ** Job ids that repeat

    [add_job] takes the first eight characters of a [uuid4] and does not
    look whether the table or the queue holds that id.  [step] leaves the
    repetition of a live id out; [step_redraw] is that move. *)

Inductive step_redraw : Sys -> Sys -> Prop :=
| redraw_request_add s job_id playlist_id video_id title quality audio_only :
    In job_id (live_ids s) ->
    step_redraw s {| world := world s;
                     pool := Adding job_id
                               (add_job job_id playlist_id video_id title
                                        quality audio_only) :: pool s |}.

Inductive reachable_any (s0 : Sys) : Sys -> Prop :=
| reach_any_refl : reachable_any s0 s0
| reach_any_step s s' :
    reachable_any s0 s -> step s s' \/ step_redraw s s' ->
    reachable_any s0 s'.

(* ------------------------------------------------------------------------- *)
(** ** [POST /api/download] *)

(** [{v["id"]: v.get("title", v["id"]) for v in pl.get("videos", [])}] *)
Definition title_map (vs : list Video) : Dict.dict string :=
  fold_left (fun d v => Dict.set (v_id v) (v_title v) d) vs [].

(** [[add_job(pl_id, vid, title_map.get(vid, vid), quality, audio_only)
      for vid in video_ids]]; [uuid i] is the id drawn for the job of index
    [i]. *)
Fixpoint add_jobs (uuid : nat -> string) (i : nat) (pl_id : string)
         (titles : Dict.dict string) (video_ids : list string)
         (quality : string) (audio_only : bool) : Prog (list string) :=
  match video_ids with
  | [] => Ret []
  | vid :: rest =>
      job_id <- add_job (uuid i) pl_id vid (get_or (Dict.get vid titles) vid)
                        quality audio_only ;;
      job_ids <- add_jobs uuid (S i) pl_id titles rest quality audio_only ;;
      Ret (job_id :: job_ids)
  end.

Definition download_handler (uuid : nat -> string) (pl_id : option string)
           (video_ids : list string) (quality : string) (audio_only : bool)
  : Prog Response :=
  match pl_id, video_ids with
  | Some k, _ :: _ =>
      if PyStr.nonempty k then
        data <- act read_data ;;
        let vs := match Dict.get k (playlists data) with
                  | Some pl => pl_videos pl
                  | None => []
                  end in
        job_ids <- add_jobs uuid 0 k (title_map vs) video_ids
                            quality audio_only ;;
        Ret (RespJobs job_ids)
      else Ret (RespError 400 "playlist_id and video_ids required")
  | _, _ => Ret (RespError 400 "playlist_id and video_ids required")
  end.

(** The record [j'] is [j] but for its queue position. *)
Definition moved (j j' : Job) : Prop := j' = set_queue_pos (j_queue_pos j') j.

(* ------------------------------------------------------------------------- *)
(** ** More scenarios *)

Module Sample.

Definition entry (i : string) : Info :=
  mkInfo (Some i) (Some "Title") None None None None None.

(** What [--dump-single-json] prints for a playlist of two videos with one
    entry that is [null]. *)
Definition listing : Info :=
  mkInfo (Some "PL1") (Some "Mix") None None None None
         (Some [Some (entry "a"); None; Some (entry "c")]).

Definition fetched : YtDlpRun :=
  {| returncode := 0; stderr := ""; stdout_json := Ok listing |}.

Definition refused : YtDlpRun :=
  {| returncode := 1; stderr := "  ERROR: The playlist does not exist.  ";
     stdout_json := Raise Scenario.not_json |}.

(** yt-dlp exits with code 2 and prints nothing but white space. *)
Definition silent_refusal : YtDlpRun :=
  {| returncode := 2; stderr := "   ";
     stdout_json := Raise Scenario.not_json |}.

(** The videos of the playlist once [b] has been downloaded. *)
Definition kept : list Video :=
  mark_downloaded "b" (Some "YTSync/downloads/p1/b.mp4") "best" false
                  (pl_videos Scenario.playlist).

(** The data file after the playlist has been deleted. *)
Definition emptied : World :=
  with_data_file (File (Ok empty_catalog)) (Scenario.queued_world None).

(** A job id drawn twice.  The worker has marked [j1] running when a request
    queues [j2] and a further request draws [j1] again; then the worker
    runs the rest of its turn (yt-dlp prints nothing and exits with 0). *)
Definition redrawn : Sys :=
  let env := Scenario.run_env [] 0 in
  {| world :=
       match advance (_worker_iter env "j1")
                     (with_queue [] (Scenario.queued_world None)) with
       | Some (rest_of_turn, w2) =>
           let w3 := snd (exec (add_job "j2" "p1" "a" "Title" "720p" true) w2) in
           let w4 := snd (exec (add_job "j1" "p1" "b" "Title" "best" false) w3) in
           snd (exec rest_of_turn w4)
       | None => Scenario.queued_world None
       end;
     pool := [Adding "j1" (Ret "j1"); Adding "j2" (Ret "j2");
              Adding "j1" (Ret "j1"); Busy "j1" (Ret tt)] |}.

(** The ids drawn for the jobs of one download request. *)
Definition uuid (i : nat) : string :=
  match i with 0 => "d0" | 1 => "d1" | _ => "d2" end.

End Sample.

(* ========================================================================= *)
(** * Theorems *)

(** ** The rolling log *)

Section RollingLog.
Context {A : Type}.
Implicit Types l : list A.

Lemma lastn_length n l : List.length (lastn n l) = Nat.min n (List.length l).
Proof. unfold lastn. rewrite length_skipn. lia. Qed.

Lemma lastn_short n l : List.length l <= n -> lastn n l = l.
Proof.
  intros H. unfold lastn. replace (List.length l - n) with 0 by lia.
  reflexivity.
Qed.

Lemma lastn_snoc n l x :
  lastn (S n) (l ++ [x]) = lastn n l ++ [x].
Proof.
  unfold lastn. rewrite length_app. simpl.
  replace (List.length l + 1 - S n) with (List.length l - n) by lia.
  rewrite skipn_app.
  replace (List.length l - n - List.length l) with 0 by lia.
  reflexivity.
Qed.

Lemma lastn_lastn n m l : n <= m -> lastn n (lastn m l) = lastn n l.
Proof.
  intros H. unfold lastn. rewrite length_skipn, skipn_skipn. f_equal. lia.
Qed.
End RollingLog.

Lemma log_append_lastn (log : list string) (line : string) :
  log_append (lastn 60 log) line = lastn 60 (log ++ [line]).
Proof.
  unfold log_append.
  destruct (Nat.ltb_spec 60 (List.length (lastn 60 log ++ [line]))) as [H|H];
    rewrite length_app, lastn_length in H; cbn [List.length] in H.
  - rewrite (lastn_snoc 59), (lastn_snoc 59), lastn_lastn by lia. reflexivity.
  - rewrite (lastn_short 60 log) by lia.
    symmetry. apply lastn_short. rewrite length_app. simpl. lia.
Qed.

Lemma apply_line_log line parsed j :
  j_log (apply_line line parsed j) = log_append (j_log j) line.
Proof.
  unfold apply_line, apply_extractaudio, apply_merger, apply_download_phase,
    apply_progress, post_processing.
  repeat match goal with
         | |- context [if ?b then _ else _] => destruct b
         | |- context [match ?x with Some _ => _ | None => _ end] => destruct x
         end; reflexivity.
Qed.

(** C5.  For a job whose log holds at most 60 entries (a new job has none),
    after the per-line block has processed any sequence of output lines the
    log is exactly the last 60 of the lines appended so far, in order, and
    so never holds more than 60 entries. *)
Theorem rolling_log_last_60 (j0 : Job) (output : list (string * option Progress)) :
  List.length (j_log j0) <= 60 ->
  let j := fold_left (fun j lp => apply_line (fst lp) (snd lp) j) output j0 in
  j_log j = lastn 60 (j_log j0 ++ map fst output)
  /\ List.length (j_log j) <= 60.
Proof.
  intros Hlen j.
  assert (H : j_log j = lastn 60 (j_log j0 ++ map fst output)).
  { subst j.
    assert (H0 : j_log j0 = lastn 60 (j_log j0))
      by (symmetry; now apply lastn_short).
    revert H0. generalize (j_log j0) at 2 3 as seen. clear Hlen.
    revert j0.
    induction output as [|[line parsed] rest IH]; intros j1 seen H1; simpl.
    - rewrite app_nil_r. exact H1.
    - replace (seen ++ line :: map fst rest)
        with ((seen ++ [line]) ++ map fst rest)
        by (rewrite <- app_assoc; reflexivity).
      apply IH. rewrite apply_line_log, H1. apply log_append_lastn. }
  split; [exact H|]. rewrite H, lastn_length. lia.
Qed.

Lemma rolling_log_after_61_lines :
  let j0 := Scenario.probe_job "starting" in
  let output := ("first", None) :: repeat ("next", @None Progress) 60 in
  List.length (j_log j0) <= 60
  /\ j_log (fold_left (fun j lp => apply_line (fst lp) (snd lp) j) output j0)
     = repeat "next" 60.
Proof.
  intros j0 output.
  assert (Hlen : List.length (j_log j0) <= 60) by (simpl; lia).
  split; [exact Hlen|].
  rewrite (proj1 (rolling_log_last_60 j0 output Hlen)). reflexivity.
Defined.

(** ** The progress extractor *)

Lemma parse_line_no_match line :
  search _RE_PROGRESS line = None -> parse_line line = Ok None.
Proof. intros H. unfold parse_line. rewrite H. reflexivity. Qed.

(** C6.  The sample progress line yields 42.5 (the fraction 85/2) with its
    size, speed and ETA, and a line that matches neither the progress pattern
    nor the destination pattern yields no signal and no exception. *)
Theorem parse_line_progress_or_none :
  parse_line Scenario.progress_line
  = Ok (Some {| pct := 85 # 2; size := "10.00MiB";
                speed := "512.00KiB/s"; eta := "00:20" |})
  /\ forall line,
      search _RE_PROGRESS line = None -> search _RE_DEST line = None ->
      parse_line line = Ok None.
Proof.
  split.
  - vm_compute. reflexivity.
  - intros line H _. now apply parse_line_no_match.
Qed.

Lemma parse_line_unrelated_line :
  (85 # 2 == 42.5)%Q /\
  search _RE_PROGRESS "some unrelated line" = None /\
  search _RE_DEST "some unrelated line" = None /\
  parse_line "some unrelated line" = Ok None.
Proof.
  split; [reflexivity|].
  split; [vm_compute; reflexivity|].
  split; [vm_compute; reflexivity|].
  apply (proj2 parse_line_progress_or_none); vm_compute; reflexivity.
Defined.

(** C10.  [([\d.]+)] accepts strings that [float] rejects: on a line whose
    percentage reads 1.2.3 the call raises [ValueError]. *)
Theorem parse_line_raises_on_dotted_percentage :
  search _RE_PROGRESS Scenario.dotted_line
  = Some [(4, "00:20"); (3, "5KiB/s"); (2, "10MiB"); (1, "1.2.3")]
  /\ parse_line Scenario.dotted_line
     = Raise (ValueError "could not convert string to float: '1.2.3'").
Proof. split; vm_compute; reflexivity. Qed.

(** Inside [_run_job] that exception ends the job: the line is the whole
    output of a yt-dlp that exits with code 0. *)
Lemma dotted_percentage_fails_job :
  let w := snd (exec (_worker_iter (Scenario.run_env [Scenario.dotted_line] 0) "j1")
                     (Scenario.queued_world None)) in
  option_map j_status (Dict.get "j1" (jobs w)) = Some Error
  /\ option_map j_error (Dict.get "j1" (jobs w))
     = Some (Some "could not convert string to float: '1.2.3'").
Proof. split; vm_compute; reflexivity. Qed.

(** ** The data store *)

(** C8, as stated, fails: a data file that is not valid JSON makes
    [load_data] raise instead of giving the empty catalog. *)
Lemma load_data_malformed_raises :
  load_data (File (Raise Scenario.not_json)) = Raise Scenario.not_json
  /\ load_data (File (Raise Scenario.not_json)) <> Ok empty_catalog.
Proof. split; [reflexivity | discriminate]. Qed.

(** C8, amended.  The empty catalog with the default settings is returned
    exactly when the data file does not exist; when it exists, [load_data]
    gives what decoding it gives, the exception included. *)
Theorem load_data_empty_only_when_missing :
  load_data NoFile
  = Ok {| playlists := [];
          settings := {| download_dir := DOWNLOAD_DIR; threads := 3 |} |}
  /\ (forall d, load_data (File (Ok d)) = Ok d)
  /\ (forall e, load_data (File (Raise e)) = Raise e).
Proof. repeat split. Qed.

(** ** Phase classification *)

(** C7, as stated, fails: a generic progress line does not set the phase to
    downloading once the phase is audio. *)
Lemma progress_line_keeps_audio_phase :
  let p := {| pct := 85 # 2; size := "10.00MiB";
              speed := "512.00KiB/s"; eta := "00:20" |} in
  let j := apply_line Scenario.progress_line (Some p)
                      (Scenario.probe_job "audio") in
  parse_line Scenario.progress_line = Ok (Some p)
  /\ PyStr.contains "[download]" Scenario.progress_line = true
  /\ j_phase j = "audio"
  /\ j_phase j <> "downloading".
Proof.
  cbv zeta. split; [vm_compute; reflexivity|].
  split; [vm_compute; reflexivity|].
  split; [vm_compute; reflexivity|].
  vm_compute. discriminate.
Qed.

(** C7, amended.  The download marker is looked up in the line as it is,
    the words audio and video and the two post-processing markers in its
    lower-cased form.  The extraction marker wins over the merge marker, and
    both win over the download rules; a parsed progress line sets downloading
    only from the phases starting and queued; otherwise the phase stays.
    Progress is 99 under either post-processing marker. *)
Theorem phase_classification line parsed j :
  let low := PyStr.lower line in
  let j' := apply_line line parsed j in
  j_phase j' =
    (if PyStr.contains "[extractaudio]" low then "converting"
     else if PyStr.contains "[merger]" low then "merging"
     else if PyStr.contains "[download]" line then
       if PyStr.contains "audio" low then "audio"
       else if PyStr.contains "video" low then "video"
       else if is_some parsed
               && (String.eqb (j_phase j) "starting"
                   || String.eqb (j_phase j) "queued")
            then "downloading" else j_phase j
     else j_phase j)
  /\ j_progress j' =
    (if PyStr.contains "[extractaudio]" low || PyStr.contains "[merger]" low
     then 99%Q
     else match parsed with Some p => pct p | None => j_progress j end).
Proof.
  unfold apply_line, apply_extractaudio, apply_merger, apply_download_phase,
    phase_in_starting_queued, apply_progress, post_processing.
  cbv zeta.
  destruct (PyStr.contains "[extractaudio]" (PyStr.lower line));
    destruct (PyStr.contains "[merger]" (PyStr.lower line));
    destruct (PyStr.contains "[download]" line);
    destruct (PyStr.contains "audio" (PyStr.lower line));
    destruct (PyStr.contains "video" (PyStr.lower line));
    destruct parsed as [p|]; cbn [is_some andb orb];
    try (split; reflexivity);
    cbn [j_phase set_log set_progress set_speed set_eta set_size];
    destruct (String.eqb (j_phase j) "starting" || String.eqb (j_phase j) "queued");
    split; reflexivity.
Qed.

(** ** Running programs *)

Lemma Forall_swap_middle {A} (P Q : A -> Prop) l1 a b l2 :
  Forall P (l1 ++ a :: l2) ->
  (forall x, In x (l1 ++ l2) -> P x -> Q x) ->
  (P a -> Q b) ->
  Forall Q (l1 ++ b :: l2).
Proof.
  intros H Himp Hab.
  apply Forall_app in H as [H1 H2]. inversion H2 as [|? ? Ha H2']; subst.
  apply Forall_app. split; [|constructor; auto].
  - rewrite Forall_forall in *. intros x Hx. apply Himp; auto.
    apply in_or_app. now left.
  - rewrite Forall_forall in *. intros x Hx. apply Himp; auto.
    apply in_or_app. now right.
Qed.


Lemma exec_bind {A B} (p : Prog A) (f : A -> Prog B) w :
  exec (bind p f) w =
  match exec p w with
  | (Ok a, w') => exec (f a) w'
  | (Raise e, w') => (Raise e, w')
  end.
Proof.
  revert w. induction p as [a|e|X m k IH]; intros w; simpl; try reflexivity.
  destruct (m w) as [x w']. apply IH.
Qed.

Lemma exec_try_catch {A} (p : Prog A) (h : Exn -> Prog A) w :
  exec (try_catch p h) w =
  match exec p w with
  | (Ok a, w') => (Ok a, w')
  | (Raise e, w') => exec (h e) w'
  end.
Proof.
  revert w. induction p as [a|e|X m k IH]; intros w; simpl; try reflexivity.
  destruct (m w) as [x w']. apply IH.
Qed.

Lemma exec_try_finally {A} (p : Prog A) (q : Prog unit) w :
  exec (try_finally p q) w =
  match exec p w with
  | (r, w') =>
      match exec q w' with
      | (Ok _, w'') => (r, w'')
      | (Raise e, w'') => (Raise e, w'')
      end
  end.
Proof.
  revert w. induction p as [a|e|X m k IH]; intros w; simpl.
  - rewrite exec_bind. destruct (exec q w) as [[u|e] w']; reflexivity.
  - rewrite exec_bind. destruct (exec q w) as [[u|e'] w']; reflexivity.
  - destruct (m w) as [x w']. apply IH.
Qed.

Lemma never_throws_try_catch {A} (p : Prog A) h :
  (forall e, never_throws (h e)) -> never_throws (try_catch p h).
Proof.
  intros H. induction p as [a|e|X m k IH]; simpl; auto.
Qed.

Lemma never_throws_try_finally {A} (p : Prog A) q :
  never_throws p -> (forall a : A, never_throws (q ;; Ret a)) ->
  never_throws (try_finally p q).
Proof.
  intros Hp Hq. induction p as [a|e|X m k IH]; simpl in *; auto.
  contradiction.
Qed.

(** ** The worker loop *)

Lemma get_update_other {V} k k' (f : V -> V) d :
  k' <> k -> Dict.get k' (Dict.update k f d) = Dict.get k' d.
Proof.
  intros Hk. induction d as [|[k0 v] d IH]; simpl; [reflexivity|].
  destruct (String.eqb_spec k0 k) as [->|Hne]; simpl.
  - destruct (String.eqb_spec k k'); [congruence|]. exact IH.
  - destruct (String.eqb k0 k'); [reflexivity | exact IH].
Qed.

Lemma get_update_same {V} k (f : V -> V) d :
  Dict.get k (Dict.update k f d) = option_map f (Dict.get k d).
Proof.
  induction d as [|[k0 v] d IH]; simpl; [reflexivity|].
  destruct (String.eqb_spec k0 k) as [->|Hne]; simpl.
  - rewrite String.eqb_refl. reflexivity.
  - destruct (String.eqb_spec k0 k); [congruence | exact IH].
Qed.

Lemma alive_step s s' : Forall alive (pool s) -> step s s' -> Forall alive (pool s').
Proof.
  intros Ht Hstep.
  destruct Hstep as
    [s job_id playlist_id video_id title quality audio_only Hfresh
    |w l1 l2 job_id p p' w' Hadv
    |s
    |s f fault
    |w l1 l2 job_id rest env Hq
    |w l1 l2 job_id p p' w' Hadv
    |w l1 l2 job_id]; cbn [world pool] in *; auto.
  - constructor; [exact I | exact Ht].
  - eapply Forall_swap_middle; [exact Ht| |]; simpl; auto.
  - eapply Forall_swap_middle; [exact Ht|auto|]. intros _. cbn [alive].
    apply never_throws_try_finally.
    + apply never_throws_try_catch. intros e x. exact I.
    + intros a x. exact I.
  - eapply Forall_swap_middle; [exact Ht|auto|]. cbn [alive].
    destruct p as [a|e|X m k]; simpl in Hadv; try discriminate.
    destruct (m w) as [x w1]. injection Hadv as <- <-. intros H. apply H.
  - eapply Forall_swap_middle; [exact Ht| |]; simpl; auto.
Qed.

Lemma alive_reachable n f fault s :
  reachable (boot n f fault) s -> Forall alive (pool s).
Proof.
  induction 1 as [|s s' _ IH Hstep].
  - simpl. induction n; simpl; constructor; simpl; auto.
  - eapply alive_step; eauto.
Qed.

(** C9.  Whatever [_run_job] does, one turn of the worker loop never ends in
    an exception: no continuation of a turn is an uncaught exception, so in
    every state the pool can reach every worker is still able to go on, and
    a turn run alone returns normally.  When [_run_job] raises [e], the turn
    ends in the state the [except] block leaves: the job's own record, if it
    is still in the table, has status error, the message of [e] and a finish
    time; every other record, the queue and the data file are as [_run_job]
    left them. *)
Theorem worker_survives_job_failure env job_id :
  never_throws (_worker_iter env job_id)
  /\ (forall n f fault s l1 l2 i e,
         reachable (boot n f fault) s -> pool s <> l1 ++ Busy i (Throw e) :: l2)
  /\ (forall w, fst (exec (_worker_iter env job_id) w) = Ok tt)
  /\ (forall w e w1,
         exec (_run_job env job_id) w = (Raise e, w1) ->
         let w2 := snd (exec (_worker_iter env job_id) w) in
         (forall k, k <> job_id ->
                    Dict.get k (jobs w2) = Dict.get k (jobs w1))
         /\ Dict.get job_id (jobs w2)
            = option_map (fun j => set_finished (Some (now_caught env))
                                     (set_error (Some (str_exn e))
                                        (set_status Error j)))
                         (Dict.get job_id (jobs w1))
         /\ job_queue w2 = job_queue w1
         /\ data_file w2 = data_file w1).
Proof.
  split; [|split; [|split]].
  - apply never_throws_try_finally.
    + apply never_throws_try_catch. intros e x. exact I.
    + intros a x. exact I.
  - intros n f fault s l1 l2 i e Hr Hp.
    pose proof (alive_reachable _ _ _ _ Hr) as Ha. rewrite Hp in Ha.
    apply Forall_app in Ha as [_ Ha]. inversion Ha as [|? ? H _]. exact H.
  - intros w. unfold _worker_iter.
    rewrite exec_try_finally, exec_try_catch.
    destruct (exec (_run_job env job_id) w) as [[[]|e] w1]; reflexivity.
  - intros w e w1 H w2. subst w2. unfold _worker_iter.
    rewrite exec_try_finally, exec_try_catch, H. cbn.
    unfold Dict.mem.
    destruct (Dict.get job_id (jobs w1)) as [j|] eqn:Hj; cbn.
    + rewrite get_update_same, Hj. repeat split.
      intros k Hk. now apply get_update_other.
    + rewrite Hj. repeat split.
Qed.

Lemma worker_survives_malformed_data_file :
  let env := Scenario.run_env [] 0 in
  let w := with_data_file (File (Raise Scenario.not_json))
                          (Scenario.queued_world None) in
  exists w1,
    exec (_run_job env "j1") w = (Raise Scenario.not_json, w1)
    /\ option_map j_status
         (Dict.get "j1" (jobs (snd (exec (_worker_iter env "j1") w))))
       = Some Error.
Proof.
  intros env w. eexists. split.
  - vm_compute. reflexivity.
  - destruct (worker_survives_job_failure env "j1") as (_ & _ & _ & H).
    destruct (H w Scenario.not_json _ eq_refl) as (_ & Hj & _).
    rewrite Hj. reflexivity.
Defined.

Lemma get_update_positions k pos js j :
  Dict.get k js = Some j -> is_queued j = false ->
  Dict.get k (update_positions_from pos js) = Some j.
Proof.
  revert pos. induction js as [|[k0 j0] js IH]; intros pos; simpl;
    [discriminate|].
  destruct (String.eqb k0 k) eqn:Hk.
  - intros H Hq. injection H as ->. rewrite Hq. simpl. now rewrite Hk.
  - intros H Hq. destruct (is_queued j0); simpl; rewrite Hk; now apply IH.
Qed.

(** An exception raised inside the [try] of [_run_job], here by
    [subprocess.Popen], is recorded by [_run_job] itself in the same way. *)
Lemma popen_failure_recorded env job_id w j data pl e :
  Dict.get job_id (jobs w) = Some j ->
  load_data (data_file w) = Ok data ->
  Dict.get (j_playlist_id j) (playlists data) = Some pl ->
  mkdir env = Ok tt ->
  popen env = Raise e ->
  exists j',
    fst (exec (_run_job env job_id) w) = Ok tt
    /\ Dict.get job_id (jobs (snd (exec (_run_job env job_id) w))) = Some j'
    /\ j_status j' = Error
    /\ j_error j' = Some (str_exn e)
    /\ j_finished j' = Some (now_failed env).
Proof.
  intros Hj Hd Hpl Hmk Hpo.
  set (j1 := set_phase "starting" (set_started (Some (now_started env))
                                     (set_status Running j))).
  assert (Hj1 : Dict.get job_id
                  (jobs (snd (running_block (now_started env) job_id w)))
                = Some j1).
  { unfold running_block. rewrite Hj. simpl. unfold _update_queue_positions.
    apply get_update_positions; [|reflexivity].
    now rewrite get_update_same, Hj. }
  assert (Hrun : running_block (now_started env) job_id w
                 = (Ok tt, snd (running_block (now_started env) job_id w))).
  { unfold running_block. now rewrite Hj. }
  set (w1 := snd (running_block (now_started env) job_id w)) in *.
  assert (Hdf : data_file w1 = data_file w).
  { subst w1. unfold running_block. now rewrite Hj. }
  eexists (fail_with (str_exn e) (now_failed env) j1).
  assert (Hex : exec (_run_job env job_id) w
    = (Ok tt, with_jobs (Dict.update job_id (fail_with (str_exn e) (now_failed env))
                           (jobs w1)) w1)).
  { unfold _run_job. rewrite exec_bind. unfold act at 1. simpl exec at 1.
    rewrite Hrun. simpl lift. cbn [exec].
    rewrite exec_bind. unfold act at 1, read_data. cbn [exec lift]. rewrite Hdf, Hd.
    cbn [exec lift].
    rewrite exec_bind. unfold act at 1, job_get at 1. cbn [exec lift]. rewrite Hj1.
    cbn [exec lift]. change (j_playlist_id j1) with (j_playlist_id j). rewrite Hpl.
    rewrite exec_bind. unfold act at 1, job_get at 1. cbn [exec lift]. rewrite Hj1.
    cbn [exec lift].
    rewrite exec_bind, Hmk. cbn [exec lift].
    rewrite exec_bind. unfold act at 1, job_get at 1. cbn [exec lift]. rewrite Hj1.
    cbn [exec lift].
    rewrite exec_try_catch, exec_bind, Hpo. cbn [exec lift].
    unfold act, job_modify. cbn [exec lift]. rewrite Hj1. reflexivity. }
  rewrite Hex. simpl. rewrite get_update_same, Hj1. repeat split.
Qed.

(** ** Job success and the catalog *)

(** What the paths that create or reset videos keep. *)
Lemma fetch_playlist_info_videos_ok result title vs :
  fetch_playlist_info result = Ok (title, vs) -> Forall video_ok vs.
Proof.
  unfold fetch_playlist_info.
  destruct (negb (returncode result =? 0)%Z); [discriminate|].
  destruct (stdout_json result) as [data|e]; [|discriminate].
  intros H. injection H as _ <-.
  induction (get_or (i_entries data) [Some data]) as [|[e|] es IH]; simpl;
    auto.
  constructor; [|exact IH]. split; [discriminate | intros H; now elim H].
Qed.

Lemma delete_files_videos_ok video_ids vs :
  Forall video_ok vs -> Forall video_ok (delete_files video_ids vs).
Proof.
  intros H. unfold delete_files. apply Forall_map.
  eapply Forall_impl; [|exact H]. intros v Hv.
  destruct (existsb (String.eqb (v_id v)) video_ids && has_file_path v);
    [|exact Hv].
  split; [discriminate | intros H0; now elim H0].
Qed.

Lemma mark_downloaded_videos_ok video_id path quality audio_only vs :
  Forall video_ok vs ->
  Forall video_ok (mark_downloaded video_id (Some path) quality audio_only vs).
Proof.
  induction 1 as [|v vs Hv Hvs IH]; simpl; [constructor|].
  destruct (String.eqb (v_id v) video_id); constructor; auto.
  split; [discriminate | reflexivity].
Qed.

(** The video found by id is the one that is updated, with the path given. *)
Lemma mark_downloaded_first_match video_id output_file quality audio_only vs :
  find (fun v => String.eqb (v_id v) video_id)
       (mark_downloaded video_id output_file quality audio_only vs)
  = option_map (downloaded_as output_file quality audio_only)
               (find (fun v => String.eqb (v_id v) video_id) vs).
Proof.
  induction vs as [|v vs IH]; simpl; [reflexivity|].
  destruct (String.eqb (v_id v) video_id) eqn:Hv; simpl; rewrite Hv;
    [reflexivity | exact IH].
Qed.

Lemma reconcile_with_playlist job_id output_file w data j pl :
  load_data (data_file w) = Ok data ->
  Dict.get job_id (jobs w) = Some j ->
  Dict.get (j_playlist_id j) (playlists data) = Some pl ->
  write_fault w = None ->
  exists data',
    reconcile job_id output_file w = (Ok tt, with_data_file (File (Ok data')) w)
    /\ Dict.get (j_playlist_id j) (playlists data')
       = Some (with_videos
                 (mark_downloaded (j_video_id j) output_file (j_quality j)
                                  (j_audio_only j) (pl_videos pl)) pl).
Proof.
  intros H1 H2 H3 H4. unfold reconcile, save_data. rewrite H1, H2, H3, H4.
  eexists. split; [reflexivity|]. simpl. rewrite get_update_same, H3.
  reflexivity.
Qed.

(** When the playlist is gone at reconciliation time nothing is written. *)
Lemma reconcile_without_playlist job_id output_file w data j :
  load_data (data_file w) = Ok data ->
  Dict.get job_id (jobs w) = Some j ->
  Dict.get (j_playlist_id j) (playlists data) = None ->
  reconcile job_id output_file w = (Ok tt, w).
Proof. intros H1 H2 H3. unfold reconcile. now rewrite H1, H2, H3. Qed.

(** C1 at the failing input: the job is done and its file is [None]. *)
Theorem done_job_without_file :
  fst (exec (_worker_iter (Scenario.run_env [] 0) "j1")
            (Scenario.queued_world None)) = Ok tt
  /\ option_map j_status (Dict.get "j1" (jobs Scenario.silent_success)) = Some Done
  /\ option_map j_file (Dict.get "j1" (jobs Scenario.silent_success)) = Some None.
Proof. repeat split. Qed.

(** C2 at the same input: the catalog satisfied the video invariant before
    the job and holds a video that is downloaded with no file path after. *)
Theorem reconciliation_breaks_video_invariant :
  catalog_ok Scenario.catalog
  /\ exists d v,
      data_file Scenario.silent_success = File (Ok d)
      /\ In ("p1", with_videos [Scenario.video "a"; v] Scenario.playlist)
            (playlists d)
      /\ v_id v = "b" /\ v_downloaded v = true /\ v_file_path v = None
      /\ ~ catalog_ok d.
Proof.
  split.
  - intros k pl v [H|[]] Hv. injection H as _ <-.
    destruct Hv as [<-|[<-|[]]]; split; try discriminate; intros H; now elim H.
  - eexists. eexists. split; [vm_compute; reflexivity|].
    split; [left; reflexivity|].
    split; [reflexivity|]. split; [reflexivity|]. split; [reflexivity|].
    intros H.
    specialize (H "p1" _ _ (or_introl eq_refl) (or_intror (or_introl eq_refl))).
    destruct H as [H _]. now apply H.
Qed.

(** ** The job state machine *)

(** C3 at the failing input: yt-dlp announces its destination and exits with
    code 0, the job is marked done, then the data file cannot be opened for
    writing and the [except] block of [_run_job] marks the same job error. *)
Theorem done_job_turns_error :
  let env := Scenario.run_env
               ["[download] Destination: YTSync/downloads/p1/Title [b].mp4"] 0 in
  let w := Scenario.queued_world (Some Scenario.read_only) in
  status_of "j1" w = Some Queued
  /\ map (status_of "j1") (trace (_worker_iter env "j1") w)
     = [Some Running; Some Running; Some Running; Some Running; Some Running;
        Some Running; Some Running; Some Done; Some Done; Some Error; Some Error]
  /\ allowed Done Error = false.
Proof. repeat split. Qed.

(** ** Queue positions *)

(** *** The job table under its operations *)

Lemma keys_update {V} k (f : V -> V) d :
  Dict.keys (Dict.update k f d) = Dict.keys d.
Proof.
  unfold Dict.keys, Dict.update. rewrite map_map. apply map_ext.
  intros [k0 v]; simpl. now destruct (String.eqb k0 k).
Qed.

Lemma keys_update_positions pos js :
  Dict.keys (update_positions_from pos js) = Dict.keys js.
Proof.
  revert pos. induction js as [|[k j] js IH]; intros pos; simpl;
    [reflexivity|].
  destruct (is_queued j); simpl; now rewrite IH.
Qed.

Lemma queued_positions_cons k j js :
  queued_positions ((k, j) :: js) =
  if is_queued j then j_queue_pos j :: queued_positions js
  else queued_positions js.
Proof. unfold queued_positions. simpl. now destruct (is_queued j). Qed.

Lemma queued_positions_recomputed pos js :
  queued_positions (update_positions_from pos js)
  = List.seq pos (List.length (queued_positions js)).
Proof.
  revert pos. induction js as [|[k j] js IH]; intros pos; simpl;
    [reflexivity|].
  rewrite (queued_positions_cons k j js).
  destruct (is_queued j) eqn:Hq; rewrite queued_positions_cons.
  - change (is_queued (set_queue_pos pos j)) with (is_queued j).
    rewrite Hq, IH. reflexivity.
  - rewrite Hq. apply IH.
Qed.

Lemma contiguous_recomputed js : contiguous (_update_queue_positions js).
Proof.
  unfold contiguous, _update_queue_positions.
  rewrite queued_positions_recomputed, length_seq. reflexivity.
Qed.

Lemma left_queue_recomputed i pos js :
  left_queue i js -> left_queue i (update_positions_from pos js).
Proof.
  unfold left_queue. intros H. revert pos.
  induction H as [|[k j] js Hj _ IH]; intros pos; simpl; [constructor|].
  destruct (is_queued j) eqn:Hq; constructor; auto.
Qed.

Lemma left_queue_update i k f js :
  quiet f -> left_queue i js -> left_queue i (Dict.update k f js).
Proof.
  intros Hf H. unfold left_queue, Dict.update. apply Forall_map.
  eapply Forall_impl; [|exact H]. intros [k0 j] Hj; simpl in *.
  destruct (String.eqb k0 k); simpl; auto.
Qed.

Lemma left_queue_update_same k f js :
  (forall j, is_queued (f j) = false) -> left_queue k (Dict.update k f js).
Proof.
  intros Hf. unfold left_queue, Dict.update. apply Forall_map, Forall_forall.
  intros [k0 j] _; simpl. destruct (String.eqb_spec k0 k); simpl; auto.
  congruence.
Qed.

Lemma queued_positions_update k f js :
  quiet f -> left_queue k js ->
  queued_positions (Dict.update k f js) = queued_positions js.
Proof.
  intros Hf H. induction H as [|[k0 j] js Hj _ IH]; [reflexivity|].
  simpl in *. rewrite (queued_positions_cons k0 j js), <- IH.
  destruct (String.eqb_spec k0 k) as [Hk|Hk]; simpl;
    rewrite queued_positions_cons; [|reflexivity].
  rewrite (Hj Hk), (Hf _ (Hj Hk)). reflexivity.
Qed.

Lemma get_none_left_queue k js :
  Dict.get k js = None -> left_queue k js.
Proof.
  unfold left_queue. induction js as [|[k0 j] js IH]; simpl; [constructor|].
  destruct (String.eqb_spec k0 k) as [Hk|Hk]; [discriminate|].
  intros H. constructor; auto. simpl. congruence.
Qed.

Lemma get_none_not_key {V} k (d : Dict.dict V) :
  Dict.get k d = None -> ~ In k (Dict.keys d).
Proof.
  induction d as [|[k0 v] d IH]; simpl; [tauto|].
  destruct (String.eqb_spec k0 k); [discriminate|]. intros H [?|?]; auto.
  now apply IH.
Qed.

Lemma left_queue_set i k j js :
  i <> k -> left_queue i js -> left_queue i (Dict.set k j js).
Proof.
  intros Hik H. unfold Dict.set. destruct (Dict.mem k js).
  - unfold left_queue, Dict.update. apply Forall_map.
    eapply Forall_impl; [|exact H]. intros [k0 j0] Hj; simpl in *.
    destruct (String.eqb_spec k0 k); simpl; auto. congruence.
  - apply Forall_app. split; [exact H|]. constructor; [|constructor].
    simpl. congruence.
Qed.

Lemma keys_set_nodup k (j : Job) js :
  NoDup (Dict.keys js) -> NoDup (Dict.keys (Dict.set k j js)).
Proof.
  intros H. unfold Dict.set, Dict.mem.
  destruct (Dict.get k js) eqn:Hk.
  - now rewrite keys_update.
  - unfold Dict.keys. rewrite map_app. simpl.
    apply NoDup_app; [exact H | repeat constructor; auto | ].
    intros x Hx [<-|[]]. now apply (get_none_not_key _ _ Hk).
Qed.

(** *** Clearing finished jobs *)

Lemma fold_del_filter {V} ks (d : Dict.dict V) :
  fold_left (fun js jid => Dict.del jid js) ks d
  = filter (fun e => negb (existsb (String.eqb (fst e)) ks)) d.
Proof.
  revert d. induction ks as [|k ks IH]; intros d; simpl.
  - induction d as [|e d IHd]; simpl; [reflexivity | now rewrite <- IHd].
  - rewrite IH. unfold Dict.del.
    induction d as [|e d IHd]; simpl; [reflexivity|].
    destruct (String.eqb (fst e) k); simpl; rewrite IHd; reflexivity.
Qed.

Lemma keys_unique {V} k (a b : V) d :
  NoDup (Dict.keys d) -> In (k, a) d -> In (k, b) d -> a = b.
Proof.
  induction d as [|[k0 v] d IH]; simpl; [tauto|].
  intros Hnd Ha Hb. inversion Hnd as [|? ? Hk Hd]; subst.
  assert (Hin : forall x, In (k0, x) d -> False).
  { intros x Hx. apply Hk. change k0 with (fst (k0, x)). now apply in_map. }
  destruct Ha as [Ha|Ha], Hb as [Hb|Hb].
  - congruence.
  - injection Ha as <- <-. now elim (Hin b).
  - injection Hb as <- <-. now elim (Hin a).
  - now apply IH.
Qed.

Lemma keys_filter_nodup {V} (P : string * V -> bool) d :
  NoDup (Dict.keys d) -> NoDup (Dict.keys (filter P d)).
Proof.
  induction d as [|e d IH]; simpl; [auto|].
  intros Hnd. inversion Hnd as [|? ? Hk Hd]; subst.
  destruct (P e); simpl; auto. constructor; auto.
  intros Hin. apply Hk. unfold Dict.keys in *.
  apply in_map_iff in Hin as (x & Hx & Hf).
  apply filter_In in Hf as [Hf _]. rewrite <- Hx. now apply in_map.
Qed.

Lemma queued_positions_filter (P : string * Job -> bool) js :
  (forall e, In e js -> is_queued (snd e) = true -> P e = true) ->
  queued_positions (filter P js) = queued_positions js.
Proof.
  induction js as [|[k j] js IH]; intros H; simpl; [reflexivity|].
  rewrite (queued_positions_cons k j js), <- IH
    by (intros e He; apply H; now right).
  destruct (P (k, j)) eqn:HP; [now rewrite queued_positions_cons|].
  destruct (is_queued j) eqn:Hq; [|reflexivity].
  rewrite (H (k, j) (or_introl eq_refl) Hq) in HP. discriminate.
Qed.

Lemma terminal_not_queued j : is_terminal j = true -> is_queued j = false.
Proof. unfold is_terminal, is_queued. now destruct (j_status j). Qed.

Lemma jobs_clear_spec w :
  jobs (snd (jobs_clear w))
  = filter (fun e => negb (existsb (String.eqb (fst e))
                             (map fst (filter (fun e => is_terminal (snd e))
                                              (jobs w)))))
           (jobs w)
  /\ job_queue (snd (jobs_clear w)) = job_queue w.
Proof. unfold jobs_clear. simpl. now rewrite fold_del_filter. Qed.

Lemma contiguous_clear w :
  NoDup (Dict.keys (jobs w)) -> contiguous (jobs w) ->
  contiguous (jobs (snd (jobs_clear w))).
Proof.
  intros Hnd Hc. unfold contiguous.
  destruct (jobs_clear_spec w) as [-> _].
  rewrite queued_positions_filter; [exact Hc|].
  intros [k j] He Hq. simpl in *.
  apply negb_true_iff. apply not_true_is_false. intros Hex.
  apply existsb_exists in Hex as (k' & Hk' & Heq).
  apply String.eqb_eq in Heq. subst k'.
  apply in_map_iff in Hk' as ([k' j'] & Hk & Hf). simpl in Hk. subst k'.
  apply filter_In in Hf as [Hin Ht]. simpl in Ht.
  rewrite (keys_unique k j j' _ Hnd He Hin) in Hq.
  rewrite (terminal_not_queued _ Ht) in Hq. discriminate.
Qed.

Lemma left_queue_filter i (P : string * Job -> bool) js :
  left_queue i js -> left_queue i (filter P js).
Proof.
  unfold left_queue. rewrite !Forall_forall. intros H e He.
  apply filter_In in He as [He _]. now apply H.
Qed.

(** *** What each block of the worker guarantees *)

Lemma guar_same_jobs job_id w w' :
  jobs w' = jobs w -> job_queue w' = job_queue w -> guar job_id w w'.
Proof. intros Hj Hq. unfold guar. rewrite Hj, Hq. auto. Qed.

Lemma guar_update job_id f w :
  quiet f ->
  guar job_id w (with_jobs (Dict.update job_id f (jobs w)) w).
Proof.
  intros Hf. unfold guar; simpl. repeat split.
  - apply keys_update.
  - intros i. now apply left_queue_update.
  - intros Hl Hc. unfold contiguous.
    now rewrite queued_positions_update.
Qed.

Lemma guar_job_get {X} job_id (field : Job -> X) w :
  guar job_id w (snd (job_get job_id field w)).
Proof.
  unfold job_get. destruct (Dict.get job_id (jobs w));
    now apply guar_same_jobs.
Qed.

Lemma guar_job_modify job_id f w :
  quiet f -> guar job_id w (snd (job_modify job_id f w)).
Proof.
  intros Hf. unfold job_modify. destruct (Dict.get job_id (jobs w)); simpl.
  - now apply guar_update.
  - now apply guar_same_jobs.
Qed.

Lemma guar_line_block job_id line parsed output_file w :
  guar job_id w (snd (line_block job_id line parsed output_file w)).
Proof.
  unfold line_block. destruct (Dict.get job_id (jobs w)) as [j0|]; simpl.
  - apply guar_update. intros j Hj.
    unfold apply_line, apply_extractaudio, apply_merger, apply_download_phase,
      apply_progress, post_processing.
    repeat match goal with
           | |- context [if ?b then _ else _] => destruct b
           | |- context [match ?x with Some _ => _ | None => _ end] => destruct x
           end; exact Hj.
  - now apply guar_same_jobs.
Qed.

Lemma guar_reconcile job_id output_file w :
  guar job_id w (snd (reconcile job_id output_file w)).
Proof.
  unfold reconcile, save_data.
  repeat match goal with
         | |- context [match ?x with _ => _ end] => destruct x
         end; now apply guar_same_jobs.
Qed.

Lemma guar_caught_block job_id e t w :
  guar job_id w (snd (caught_block job_id e t w)).
Proof.
  unfold caught_block. simpl. destruct (Dict.mem job_id (jobs w)).
  - apply guar_update. intros j _. reflexivity.
  - now apply guar_same_jobs.
Qed.

Lemma guar0_running_block job_id t w :
  guar0 job_id w (snd (running_block t job_id w)).
Proof.
  unfold running_block.
  destruct (Dict.get job_id (jobs w)) as [j0|] eqn:Hj; simpl.
  - unfold guar0, _update_queue_positions; simpl. repeat split.
    + now rewrite keys_update_positions, keys_update.
    + intros i Hi. apply left_queue_recomputed, left_queue_update; auto.
      intros j _. reflexivity.
    + apply left_queue_recomputed, left_queue_update_same. reflexivity.
    + intros _. apply contiguous_recomputed.
  - unfold guar0. repeat split; auto. now apply get_none_left_queue.
Qed.

(** *** The worker's program keeps to its guarantee *)

Lemma follows_bind {A B} job_id (p : Prog A) (f : A -> Prog B) :
  follows job_id p -> (forall a, follows job_id (f a)) ->
  follows job_id (bind p f).
Proof.
  intros Hp Hf. induction p as [a|e|X m k IH]; simpl; auto.
  destruct Hp as [Hm Hk]. split; auto.
Qed.

Lemma follows_try_catch {A} job_id (p : Prog A) h :
  follows job_id p -> (forall e, follows job_id (h e)) ->
  follows job_id (try_catch p h).
Proof.
  intros Hp Hh. induction p as [a|e|X m k IH]; simpl; auto.
  destruct Hp as [Hm Hk]. split; auto.
Qed.

Lemma follows_try_finally {A} job_id (p : Prog A) q :
  follows job_id p -> follows job_id q ->
  follows job_id (try_finally p q).
Proof.
  intros Hp Hq. induction p as [a|e|X m k IH]; simpl.
  - now apply follows_bind.
  - now apply follows_bind.
  - destruct Hp as [Hm Hk]. split; auto.
Qed.

Lemma follows_lift {A} job_id (r : Res A) : follows job_id (lift r).
Proof. now destruct r. Qed.

Lemma follows_act {A} job_id (m : World -> Res A * World) :
  (forall w, guar job_id w (snd (m w))) -> follows job_id (act m).
Proof. intros H. split; [exact H | intros x; apply follows_lift]. Qed.

Lemma quiet_fail_with msg t : quiet (fail_with msg t).
Proof. intros j _. reflexivity. Qed.

Lemma quiet_finish_done output_file t : quiet (finish_done output_file t).
Proof. intros j _. reflexivity. Qed.

Create HintDb worker.
#[local] Hint Resolve follows_lift follows_act guar_job_get guar_job_modify
  guar_line_block guar_reconcile quiet_fail_with quiet_finish_done : worker.

Lemma follows_stream job_id lines output_file :
  follows job_id (stream job_id lines output_file).
Proof.
  revert output_file. induction lines as [|raw rest IH]; intros o;
    cbn [stream]; [exact I|].
  apply follows_bind; [apply follows_lift|]. intros parsed.
  apply follows_bind; auto with worker.
Qed.

Lemma starts_bind {A B} job_id (p : Prog A) (f : A -> Prog B) :
  starts job_id p -> (forall a, follows job_id (f a)) ->
  starts job_id (bind p f).
Proof.
  intros Hp Hf. destruct p as [a|e|X m k]; simpl in *; try contradiction.
  destruct Hp as [Hm Hk]. split; [exact Hm|].
  intros x. now apply follows_bind.
Qed.

Lemma starts_try_catch {A} job_id (p : Prog A) h :
  starts job_id p -> (forall e, follows job_id (h e)) ->
  starts job_id (try_catch p h).
Proof.
  intros Hp Hh. destruct p as [a|e|X m k]; simpl in *; try contradiction.
  destruct Hp as [Hm Hk]. split; [exact Hm|].
  intros x. now apply follows_try_catch.
Qed.

Lemma starts_try_finally {A} job_id (p : Prog A) q :
  starts job_id p -> follows job_id q ->
  starts job_id (try_finally p q).
Proof.
  intros Hp Hq. destruct p as [a|e|X m k]; simpl in *; try contradiction.
  destruct Hp as [Hm Hk]. split; [exact Hm|].
  intros x. now apply follows_try_finally.
Qed.

Lemma starts_act {A} job_id (m : World -> Res A * World) :
  (forall w, guar0 job_id w (snd (m w))) -> starts job_id (act m).
Proof. intros H. split; [exact H | intros x; apply follows_lift]. Qed.

Lemma worker_iter_starts env job_id : starts job_id (_worker_iter env job_id).
Proof.
  unfold _worker_iter, _run_job.
  apply starts_try_finally.
  2:{ split; [|intros; exact I]. intros w. now apply guar_same_jobs. }
  apply starts_try_catch.
  2:{ intros e. split; [|intros; exact I]. intros w. apply guar_caught_block. }
  apply starts_bind.
  { apply starts_act. intros w. apply guar0_running_block. }
  intros _. apply follows_bind.
  { apply follows_act. intros w. now apply guar_same_jobs. }
  intros data. apply follows_bind; [auto with worker|]. intros playlist_id.
  destruct (Dict.get playlist_id (playlists data)); [|auto with worker].
  apply follows_bind; [auto with worker|]. intros _.
  apply follows_bind; [auto with worker|]. intros _.
  apply follows_bind; [auto with worker|]. intros _.
  apply follows_try_catch; [|auto with worker].
  apply follows_bind; [auto with worker|]. intros proc.
  apply follows_bind; [apply follows_stream|]. intros output_file.
  destruct (Z.eqb (snd proc) 0).
  - apply follows_bind.
    { destruct (needs_scan env output_file); [|exact I].
      apply follows_bind; [auto with worker|]. intros; exact I. }
    intros o. apply follows_bind; auto with worker.
  - apply follows_act. intros w. apply guar_job_modify.
    intros j _. reflexivity.
Qed.

(** *** The pool invariant *)

Lemma live_ids_split w l1 t l2 :
  live_ids {| world := w; pool := l1 ++ t :: l2 |}
  = (job_queue w ++ flat_map thread_ids l1) ++ thread_ids t
      ++ flat_map thread_ids l2.
Proof.
  unfold live_ids. simpl. rewrite flat_map_app. simpl.
  now rewrite <- app_assoc.
Qed.

Lemma thread_ok_mono w w' t :
  (forall i, left_queue i (jobs w) -> left_queue i (jobs w')) ->
  thread_ok w t -> thread_ok w' t.
Proof.
  intros H. destruct t as [|job_id p|job_id p]; simpl; auto.
  intros [Hs|[Hl Hf]]; auto.
Qed.

Lemma thread_ok_mono_except k w w' t :
  (forall i, i <> k -> left_queue i (jobs w) -> left_queue i (jobs w')) ->
  ~ In k (thread_ids t) ->
  thread_ok w t -> thread_ok w' t.
Proof.
  intros H Hk. destruct t as [|job_id p|job_id p]; simpl in *; auto.
  intros [Hs|[Hl Hf]]; [now left|]. right. split; [|exact Hf].
  apply H; [|exact Hl]. intros ->. apply Hk. now left.
Qed.

Lemma others_hold_other_ids w l1 t l2 k :
  NoDup (live_ids {| world := w; pool := l1 ++ t :: l2 |}) ->
  thread_ids t = [k] ->
  forall x, In x (l1 ++ l2) -> ~ In k (thread_ids x).
Proof.
  intros Hnd Ht x Hx Hk. rewrite live_ids_split, Ht in Hnd. simpl in Hnd.
  apply NoDup_remove_2 in Hnd. apply Hnd.
  apply in_or_app. apply in_app_or in Hx as [Hx|Hx].
  - left. apply in_or_app. right. apply in_flat_map. eauto.
  - right. apply in_flat_map. eauto.
Qed.

Lemma pool_inv_boot n f fault : pool_inv (boot n f fault).
Proof.
  constructor; simpl.
  - reflexivity.
  - constructor.
  - unfold live_ids; simpl. induction n; simpl; [constructor | assumption].
  - induction n; simpl; constructor; simpl; auto.
Qed.

Lemma pool_inv_step s s' : pool_inv s -> step s s' -> pool_inv s'.
Proof.
  intros [Hc Hk Hl Ht] Hstep.
  destruct Hstep as
    [s job_id playlist_id video_id title quality audio_only Hfresh
    |w l1 l2 job_id p p' w' Hadv
    |s
    |s f fault
    |w l1 l2 job_id rest env Hq
    |w l1 l2 job_id p p' w' Hadv
    |w l1 l2 job_id]; cbn [world pool] in *.
  - (* a request draws an id *)
    constructor; simpl; auto.
    + unfold live_ids in *; simpl.
      eapply Permutation_NoDup; [apply Permutation_middle|].
      now constructor.
    + constructor; [|exact Ht]. left. repeat eexists.
  - (* add_job goes on *)
    assert (Hp : adding_ok job_id p).
    { apply Forall_app in Ht as [_ Ht]. now inversion Ht. }
    destruct Hp as [(pl & vid & ti & qu & ao & ->)|[->| ->]];
      simpl in Hadv; [| |discriminate]; injection Hadv as <- <-.
    + (* the locked block *)
      constructor; simpl.
      * apply contiguous_recomputed.
      * unfold _update_queue_positions.
        rewrite keys_update_positions. now apply keys_set_nodup.
      * rewrite live_ids_split in *. exact Hl.
      * eapply Forall_swap_middle; [exact Ht| |].
        -- intros x Hx. apply (thread_ok_mono_except job_id).
           ++ intros i Hi Hlq. simpl.
              apply left_queue_recomputed. now apply left_queue_set.
           ++ eapply others_hold_other_ids; eauto.
        -- intros _. right. now left.
    + (* job_queue.put *)
      constructor; simpl; auto.
      * rewrite live_ids_split in *. simpl in *.
        eapply Permutation_NoDup; [|exact Hl].
        rewrite <- !app_assoc. apply Permutation_app_head. simpl.
        apply Permutation_sym, Permutation_middle.
      * eapply Forall_swap_middle; [exact Ht| |].
        -- intros x _. now apply thread_ok_mono.
        -- intros _. right. now right.
  - (* clearing *)
    destruct (jobs_clear_spec (world s)) as [Hj Hq].
    constructor; cbn [world pool].
    + now apply contiguous_clear.
    + rewrite Hj. now apply keys_filter_nodup.
    + unfold live_ids in *; cbn [world pool]. now rewrite Hq.
    + eapply Forall_impl; [|exact Ht]. intros t. apply thread_ok_mono.
      intros i. rewrite Hj. apply left_queue_filter.
  - (* another writer of the data file *)
    constructor; simpl; auto.
  - (* a worker dequeues *)
    constructor; simpl; auto.
    + rewrite live_ids_split in *. simpl in *. rewrite Hq in Hl. simpl in Hl.
      eapply Permutation_NoDup; [|exact Hl].
      apply Permutation_middle.
    + eapply Forall_swap_middle; [exact Ht| |].
      * intros x _. now apply thread_ok_mono.
      * intros _. left. apply worker_iter_starts.
  - (* a worker runs one atomic section *)
    assert (Hp : thread_ok w (Busy job_id p)).
    { apply Forall_app in Ht as [_ Ht]. now inversion Ht. }
    destruct p as [a|e|X m k]; simpl in Hadv; try discriminate.
    destruct (m w) as [x w1] eqn:Hm. injection Hadv as <- <-.
    assert (Hw : w1 = snd (m w)) by now rewrite Hm.
    assert (Hg : job_queue w1 = job_queue w
                 /\ Dict.keys (jobs w1) = Dict.keys (jobs w)
                 /\ (forall i, left_queue i (jobs w) -> left_queue i (jobs w1))
                 /\ left_queue job_id (jobs w1)
                 /\ contiguous (jobs w1)
                 /\ follows job_id (k x)).
    { destruct Hp as [[Hg Hf]|[Hlq [Hg Hf]]]; specialize (Hg w);
        rewrite <- Hw in Hg.
      - destruct Hg as (? & ? & ? & ? & ?). repeat split; auto.
      - destruct Hg as (? & ? & ? & ?). repeat split; auto. }
    destruct Hg as (Hq & Hkeys & Hmono & Hlq & Hcont & Hf).
    constructor; simpl; auto.
    + now rewrite Hkeys.
    + rewrite live_ids_split in *. simpl in *. now rewrite Hq.
    + eapply Forall_swap_middle; [exact Ht| |].
      * intros t _. now apply thread_ok_mono.
      * intros _. right. now split.
  - (* a worker goes back to job_queue.get *)
    constructor; simpl; auto.
    + rewrite live_ids_split in *. simpl in *.
      now apply NoDup_remove_1 in Hl.
    + eapply Forall_swap_middle; [exact Ht| |]; simpl; auto.
Qed.

Lemma pool_inv_reachable s0 s : pool_inv s0 -> reachable s0 s -> pool_inv s.
Proof.
  intros H0 Hr. induction Hr as [|s s' _ IH Hstep]; [exact H0|].
  eapply pool_inv_step; eauto.
Qed.

(** C4, amended.  Provided no request draws a job id that is still queued
    or being worked on, in every state the thread pool can reach from its
    start, whatever the interleaving of requests and workers, the positions
    of the queued jobs read 1, 2, ..., k in table order. *)
Theorem queue_positions_contiguous n f fault s :
  reachable (boot n f fault) s ->
  queued_positions (jobs (world s))
  = List.seq 1 (List.length (filter is_queued (Dict.values (jobs (world s))))).
Proof.
  intros Hr.
  destruct (pool_inv_reachable _ _ (pool_inv_boot n f fault) Hr) as [Hc _ _ _].
  unfold contiguous in Hc. rewrite Hc at 1.
  unfold queued_positions. now rewrite length_map.
Qed.

Lemma queue_positions_after_two_requests :
  reachable (boot 1 (File (Ok Scenario.catalog)) None) Scenario.two_queued
  /\ queued_positions (jobs (world Scenario.two_queued)) = [1; 2].
Proof.
  assert (H : reachable (boot 1 (File (Ok Scenario.catalog)) None) Scenario.two_queued).
  { pose proof (reach_refl (boot 1 (File (Ok Scenario.catalog)) None)) as H.
    eapply reach_step in H;
      [|apply (step_request_add _ "j1" "p1" "b" "Title" "best" false);
        intros []].
    eapply reach_step in H; [|eapply (step_adding _ []); reflexivity].
    eapply reach_step in H; [|eapply (step_adding _ []); reflexivity].
    eapply reach_step in H;
      [|apply (step_request_add _ "j2" "p1" "a" "Title" "720p" true);
        intros [H'|[]]; discriminate H'].
    eapply reach_step in H; [|eapply (step_adding _ []); reflexivity].
    eapply reach_step in H; [|eapply (step_adding _ []); reflexivity].
    exact H. }
  split; [exact H|].
  exact (queue_positions_contiguous _ _ _ _ H).
Defined.

(** C4, as stated, fails.  A job id drawn again while its job is running:
    [j1] is in work when a later request draws [j1] once more, [add_job]
    puts a new queued record under that key, and the worker, going on,
    writes [done] into it.  The job [j2], queued in between, is then the
    only queued job and its position is 2. *)
Lemma repeated_job_id_breaks_positions :
  reachable_any (boot 1 (File (Ok Scenario.catalog)) None) Sample.redrawn
  /\ map (fun e => (fst e, j_status (snd e), j_queue_pos (snd e)))
         (jobs (world Sample.redrawn))
     = [("j1", Done, 1); ("j2", Queued, 2)]
  /\ queued_positions (jobs (world Sample.redrawn)) = [2]
  /\ queued_positions (jobs (world Sample.redrawn))
     <> List.seq 1 (List.length (filter is_queued
                                        (Dict.values
                                           (jobs (world Sample.redrawn))))).
Proof.
  split.
  - pose proof (reach_any_refl (boot 1 (File (Ok Scenario.catalog)) None)) as H.
    eapply reach_any_step in H;
      [|left; apply (step_request_add _ "j1" "p1" "b" "Title" "best" false);
        intros []].
    eapply reach_any_step in H;
      [|left; eapply (step_adding _ []); vm_compute; reflexivity].
    eapply reach_any_step in H;
      [|left; eapply (step_adding _ []); vm_compute; reflexivity].
    eapply reach_any_step in H;
      [|left; eapply (step_dequeue _ [_] [] "j1" _ (Scenario.run_env [] 0));
        reflexivity].
    eapply reach_any_step in H;
      [|left; eapply (step_worker _ [_] []); vm_compute; reflexivity].
    eapply reach_any_step in H;
      [|left; apply (step_request_add _ "j2" "p1" "a" "Title" "720p" true);
        intros [H'|[]]; discriminate H'].
    eapply reach_any_step in H;
      [|left; eapply (step_adding _ []); vm_compute; reflexivity].
    eapply reach_any_step in H;
      [|left; eapply (step_adding _ []); vm_compute; reflexivity].
    eapply reach_any_step in H;
      [|right; apply (redraw_request_add _ "j1" "p1" "b" "Title" "best" false);
        vm_compute; auto].
    eapply reach_any_step in H;
      [|left; eapply (step_adding _ []); vm_compute; reflexivity].
    eapply reach_any_step in H;
      [|left; eapply (step_adding _ []); vm_compute; reflexivity].
    repeat (eapply reach_any_step in H;
            [|left; eapply (step_worker _ [_; _; _] []);
              vm_compute; reflexivity]).
    vm_compute. vm_compute in H. exact H.
  - split; [vm_compute; reflexivity|].
    split; [vm_compute; reflexivity|].
    vm_compute. discriminate.
Qed.

(* ========================================================================= *)
(** * Further properties of the code *)

(** ** [build_ydl_args] *)

Lemma length_append (a b : string) :
  String.length (a ++ b) = String.length a + String.length b.
Proof. induction a as [|c a IH]; simpl; [reflexivity | now rewrite IH]. Qed.

(** X1.  For an audio-only download the quality tier plays no part: the
    command line is the same for every tier, asks for extraction to mp3 and
    carries no format selector. *)
Theorem build_ydl_args_audio_ignores_quality video_id quality quality' out_dir :
  build_ydl_args video_id quality true out_dir
  = build_ydl_args video_id quality' true out_dir
  /\ firstn 7 (build_ydl_args video_id quality true out_dir)
     = ["yt-dlp"; "--no-playlist"; "-x"; "--audio-format"; "mp3";
        "--audio-quality"; "0"]
  /\ ~ In "-f" (build_ydl_args video_id quality true out_dir).
Proof.
  split; [reflexivity|]. split; [reflexivity|].
  unfold build_ydl_args, path_join. simpl.
  intros H. repeat (destruct H as [H|H]; [discriminate H|]).
  destruct H as [H|H].
  - apply (f_equal String.length) in H. rewrite length_append in H.
    simpl in H. lia.
  - repeat (destruct H as [H|H]; [discriminate H|]). exact H.
Qed.

(** X2.  A quality tier that is not a key of the format table gives exactly
    the command line of [best]. *)
Theorem build_ydl_args_unknown_tier_is_best video_id quality out_dir :
  known_tier quality = false ->
  build_ydl_args video_id quality false out_dir
  = build_ydl_args video_id "best" false out_dir.
Proof.
  intros H. unfold known_tier, Dict.mem in H.
  destruct (Dict.get quality fmt_map) eqn:Hq; [discriminate|].
  unfold build_ydl_args. rewrite Hq. reflexivity.
Qed.

Lemma build_ydl_args_unknown_tier_example :
  known_tier "4k" = false
  /\ build_ydl_args "dQw4w9WgXcQ" "4k" false "YTSync/downloads/p1"
     = build_ydl_args "dQw4w9WgXcQ" "best" false "YTSync/downloads/p1".
Proof.
  split; [reflexivity|].
  apply build_ydl_args_unknown_tier_is_best. reflexivity.
Defined.
(** ** [fetch_playlist_info] *)

Lemma videos_of_entries_present es :
  videos_of_entries es = map video_of_entry (present_entries es).
Proof.
  induction es as [|[e|] es IH]; simpl; [reflexivity| |exact IH].
  now rewrite IH.
Qed.

(** X3.  A successful fetch gives one video per non-empty entry, in the
    order of the entries, each with the id of its entry (or the empty id),
    not downloaded, without file path or quality, and with the watch url of
    its id; an answer without [entries] is taken as one video. *)
Theorem fetch_playlist_info_fresh_videos result title vs :
  fetch_playlist_info result = Ok (title, vs) ->
  exists data,
    stdout_json result = Ok data
    /\ vs = map video_of_entry
               (present_entries (get_or (i_entries data) [Some data]))
    /\ map v_id vs
       = map (fun e => get_or (i_id e) "")
             (present_entries (get_or (i_entries data) [Some data]))
    /\ Forall fresh_video vs
    /\ (i_entries data = None -> vs = [video_of_entry data]).
Proof.
  unfold fetch_playlist_info.
  destruct (negb (returncode result =? 0)%Z); [discriminate|].
  destruct (stdout_json result) as [data|e]; [|discriminate].
  intros H. injection H as _ <-. exists data.
  rewrite videos_of_entries_present.
  split; [reflexivity|]. split; [reflexivity|]. split; [|split].
  - rewrite map_map. reflexivity.
  - apply Forall_map, Forall_forall. intros e _. repeat split.
  - intros ->. reflexivity.
Qed.

(** X4.  When [subprocess.run] raises (the output does not decode, yt-dlp
    cannot be started), the fetch raises the same exception.  When it
    returns with a non-zero code, the fetch raises [RuntimeError] whatever
    stdout holds; the message is the stripped stderr when that is not
    empty and the fixed text ["yt-dlp failed"] otherwise, so it is never
    empty. *)
Theorem fetch_playlist_info_failure :
  (forall e, fetch_playlist_info_run (Raise e) = Raise e)
  /\ forall result,
      returncode result <> 0%Z ->
      let hint := PyStr.strip (stderr result) in
      let msg := if PyStr.nonempty hint then hint else "yt-dlp failed" in
      fetch_playlist_info_run (Ok result) = Raise (RuntimeError msg)
      /\ PyStr.nonempty msg = true.
Proof.
  split; [reflexivity|].
  intros result H hint msg. subst hint msg. cbn [fetch_playlist_info_run].
  unfold fetch_playlist_info.
  apply Z.eqb_neq in H. rewrite H. cbn [negb]. split; [reflexivity|].
  now destruct (PyStr.nonempty (PyStr.strip (stderr result))) eqn:Hs.
Qed.

Lemma fetch_playlist_info_skips_null_entry :
  exists vs,
    fetch_playlist_info Sample.fetched = Ok ("Mix", vs)
    /\ map v_id vs = ["a"; "c"]
    /\ Forall fresh_video vs.
Proof.
  eexists. split; [reflexivity|].
  destruct (fetch_playlist_info_fresh_videos Sample.fetched "Mix" _ eq_refl)
    as (data & Hd & _ & Hids & Hf & _).
  split; [|exact Hf].
  rewrite Hids. injection Hd as <-. reflexivity.
Defined.

Lemma fetch_playlist_info_refused :
  fetch_playlist_info_run (Ok Sample.refused)
  = Raise (RuntimeError "ERROR: The playlist does not exist.")
  /\ fetch_playlist_info_run (Ok Sample.silent_refusal)
     = Raise (RuntimeError "yt-dlp failed").
Proof.
  destruct fetch_playlist_info_failure as [_ H]. split.
  - exact (proj1 (H Sample.refused ltac:(simpl; lia))).
  - exact (proj1 (H Sample.silent_refusal ltac:(simpl; lia))).
Defined.
(** ** Dictionaries *)

Lemma get_app {V} k (d1 d2 : Dict.dict V) :
  Dict.get k (d1 ++ d2)
  = match Dict.get k d1 with Some v => Some v | None => Dict.get k d2 end.
Proof.
  induction d1 as [|[k0 v0] d1 IH]; simpl; [reflexivity|].
  now destruct (String.eqb k0 k).
Qed.

Lemma get_set_same {V} k (v : V) d : Dict.get k (Dict.set k v d) = Some v.
Proof.
  unfold Dict.set, Dict.mem. destruct (Dict.get k d) eqn:Hk.
  - now rewrite get_update_same, Hk.
  - rewrite get_app, Hk. simpl. now rewrite String.eqb_refl.
Qed.

Lemma get_set_other {V} k k' (v : V) d :
  k' <> k -> Dict.get k' (Dict.set k v d) = Dict.get k' d.
Proof.
  intros Hk. unfold Dict.set. destruct (Dict.mem k d).
  - now apply get_update_other.
  - rewrite get_app. destruct (Dict.get k' d); [reflexivity|]. simpl.
    destruct (String.eqb_spec k k'); congruence.
Qed.

Lemma get_del_same {V} k (d : Dict.dict V) : Dict.get k (Dict.del k d) = None.
Proof.
  induction d as [|[k0 v0] d IH]; simpl; [reflexivity|].
  destruct (String.eqb_spec k0 k); simpl; [exact IH|].
  destruct (String.eqb_spec k0 k); [congruence | exact IH].
Qed.

Lemma get_del_other {V} k k' (d : Dict.dict V) :
  k' <> k -> Dict.get k' (Dict.del k d) = Dict.get k' d.
Proof.
  intros Hk. induction d as [|[k0 v0] d IH]; simpl; [reflexivity|].
  destruct (String.eqb_spec k0 k); simpl.
  - destruct (String.eqb_spec k0 k'); [congruence | exact IH].
  - destruct (String.eqb k0 k'); [reflexivity | exact IH].
Qed.

(** ** Synchronising a playlist *)

Lemma find_append {A} (f : A -> bool) l1 l2 :
  find f (l1 ++ l2)
  = match find f l1 with Some x => Some x | None => find f l2 end.
Proof.
  induction l1 as [|a l1 IH]; simpl; [reflexivity|]. now destruct (f a).
Qed.

Lemma index_by_id_get_from k vs d0 :
  Dict.get k (fold_left (fun d v => Dict.set (v_id v) v d) vs d0)
  = match find (fun v => String.eqb (v_id v) k) (rev vs) with
    | Some v => Some v
    | None => Dict.get k d0
    end.
Proof.
  revert d0. induction vs as [|v vs IH]; intros d0; simpl; [reflexivity|].
  rewrite IH, find_append.
  destruct (find (fun v0 => String.eqb (v_id v0) k) (rev vs)); [reflexivity|].
  simpl. destruct (String.eqb_spec (v_id v) k) as [<-|Hk].
  - apply get_set_same.
  - apply get_set_other. congruence.
Qed.

Lemma index_by_id_get k vs :
  Dict.get k (index_by_id vs) = find (fun v => String.eqb (v_id v) k) (rev vs).
Proof.
  unfold index_by_id. rewrite index_by_id_get_from.
  now destruct (find _ (rev vs)).
Qed.

Lemma index_by_id_some k vs e :
  Dict.get k (index_by_id vs) = Some e -> In e vs /\ v_id e = k.
Proof.
  rewrite index_by_id_get. intros H. apply find_some in H as [Hin Hk].
  split; [now apply in_rev | now apply String.eqb_eq].
Qed.

Lemma index_by_id_none k vs :
  Dict.get k (index_by_id vs) = None -> ~ In k (map v_id vs).
Proof.
  rewrite index_by_id_get. intros H Hin.
  apply in_map_iff in Hin as (v & Hv & Hin).
  apply in_rev in Hin. pose proof (find_none _ _ H v Hin) as Hf.
  simpl in Hf. apply String.eqb_neq in Hf. contradiction.
Qed.

Lemma find_unique_id vs e :
  NoDup (map v_id vs) -> In e vs ->
  find (fun v => String.eqb (v_id v) (v_id e)) vs = Some e.
Proof.
  induction vs as [|v vs IH]; simpl; [tauto|].
  intros Hnd [->|Hin].
  - now rewrite String.eqb_refl.
  - inversion Hnd as [|? ? Hv Hvs]; subst.
    destruct (String.eqb_spec (v_id v) (v_id e)) as [Heq|_]; [|auto].
    exfalso. apply Hv. rewrite Heq. now apply in_map.
Qed.

Lemma index_by_id_unique vs e :
  NoDup (map v_id vs) -> In e vs ->
  Dict.get (v_id e) (index_by_id vs) = Some e.
Proof.
  intros Hnd Hin. rewrite index_by_id_get. apply find_unique_id.
  - rewrite map_rev. now apply NoDup_rev.
  - now apply in_rev in Hin.
Qed.

Lemma find_rev_last {A} (p : A -> bool) (l : list A) (d : A) :
  match find p (rev l) with Some x => x | None => d end
  = last (filter p l) d.
Proof.
  induction l as [|a l IH] using rev_ind; [reflexivity|].
  rewrite rev_app_distr, filter_app. simpl.
  destruct (p a); [now rewrite last_last|].
  now rewrite app_nil_r.
Qed.

(** X5.  A sync answers with one video per video of the remote, in the
    remote's order and with the remote's ids: a video whose id the playlist
    holds is replaced by the playlist's last record with that id (download
    state and file path included), any other is taken as fetched; records
    whose id the remote no longer lists are dropped. *)
Theorem sync_videos_follows_remote old remote :
  sync_videos old remote
  = map (fun v => last (filter (fun known => String.eqb (v_id known) (v_id v))
                               old) v) remote
  /\ map v_id (sync_videos old remote) = map v_id remote
  /\ (forall r, In r (sync_videos old remote) -> In r old \/ In r remote).
Proof.
  assert (Heq : sync_videos old remote
                = map (fun v => last (filter (fun known =>
                                                String.eqb (v_id known) (v_id v))
                                             old) v) remote).
  { unfold sync_videos. apply map_ext. intros v.
    rewrite index_by_id_get. apply find_rev_last. }
  split; [exact Heq|]. split.
  - unfold sync_videos. rewrite map_map. apply map_ext. intros v.
    destruct (Dict.get (v_id v) (index_by_id old)) as [e|] eqn:He;
      [|reflexivity].
    now apply index_by_id_some in He.
  - unfold sync_videos. intros r Hr. apply in_map_iff in Hr as (v & <- & Hv).
    destruct (Dict.get (v_id v) (index_by_id old)) as [e|] eqn:He;
      [|now right].
    left. now apply index_by_id_some in He.
Qed.

Lemma sync_videos_takes_last_record :
  sync_videos [Scenario.video "b"; nth 1 Sample.kept (Scenario.video "b")]
              [Scenario.video "b"]
  = [nth 1 Sample.kept (Scenario.video "b")]
  /\ map v_downloaded
       (sync_videos [Scenario.video "b"; nth 1 Sample.kept (Scenario.video "b")]
                    [Scenario.video "b"]) = [true].
Proof.
  destruct (sync_videos_follows_remote
              [Scenario.video "b"; nth 1 Sample.kept (Scenario.video "b")]
              [Scenario.video "b"]) as [H _].
  rewrite H. split; vm_compute; reflexivity.
Defined.

(** X6.  When the remote reports exactly the ids the playlist holds, in the
    same order and without repetition, a sync leaves the list of videos as
    it is, so nothing of the download state is lost. *)
Theorem sync_videos_same_remote old remote :
  NoDup (map v_id old) ->
  map v_id remote = map v_id old ->
  sync_videos old remote = old.
Proof.
  intros Hnd. unfold sync_videos.
  assert (H : forall sub rem,
             incl sub old -> map v_id rem = map v_id sub ->
             map (fun v => match Dict.get (v_id v) (index_by_id old) with
                           | Some known => known
                           | None => v
                           end) rem = sub).
  { induction sub as [|e sub IH]; intros [|v rem] Hsub Hids;
      try discriminate; [reflexivity|].
    simpl in *. injection Hids as Hv Hids. rewrite Hv.
    rewrite (index_by_id_unique old e Hnd) by (apply Hsub; now left).
    f_equal. apply IH; [|exact Hids]. intros x Hx. apply Hsub. now right. }
  apply H. apply incl_refl.
Qed.

Lemma sync_videos_keeps_download :
  sync_videos Sample.kept (pl_videos Scenario.playlist) = Sample.kept.
Proof.
  apply sync_videos_same_remote.
  - vm_compute. repeat constructor; simpl; intuition discriminate.
  - reflexivity.
Defined.
(** ** Adding and removing videos *)

Lemma existsb_eqb_in k ks :
  existsb (String.eqb k) ks = true <-> In k ks.
Proof.
  rewrite existsb_exists. split.
  - intros (x & Hx & He). apply String.eqb_eq in He. now subst.
  - intros H. exists k. split; [exact H | apply String.eqb_refl].
Qed.

Lemma new_videos_unknown old remote v :
  In v (new_videos old remote) <-> In v remote /\ ~ In (v_id v) (map v_id old).
Proof.
  unfold new_videos. rewrite filter_In, negb_true_iff.
  rewrite <- not_true_iff_false, existsb_eqb_in. reflexivity.
Qed.

Lemma new_videos_again old remote :
  new_videos (old ++ new_videos old remote) remote = [].
Proof.
  unfold new_videos at 1.
  assert (H : forall v, In v remote ->
                        In (v_id v) (map v_id (old ++ new_videos old remote))).
  { intros v Hv. rewrite map_app. apply in_or_app.
    destruct (in_dec string_dec (v_id v) (map v_id old)) as [Hin|Hout];
      [now left|right].
    apply in_map. now apply new_videos_unknown. }
  revert H. generalize (map v_id (old ++ new_videos old remote)) as known.
  intros known H. induction remote as [|v remote IH]; simpl; [reflexivity|].
  rewrite (proj2 (existsb_eqb_in _ _) (H v (or_introl eq_refl))). simpl.
  apply IH. intros x Hx. apply H. now right.
Qed.

(** ** Clearing finished jobs, again *)

(** X8.  With distinct job ids, clearing removes exactly the jobs that are
    done or failed and keeps the others as they are and in their order; it
    reports how many it removed, leaves the admission queue alone, and a
    second clearing right after removes nothing. *)
Theorem jobs_clear_removes_terminal w :
  NoDup (Dict.keys (jobs w)) ->
  let w' := snd (jobs_clear w) in
  jobs w' = filter (fun e => negb (is_terminal (snd e))) (jobs w)
  /\ fst (jobs_clear w)
     = List.length (filter (fun e => is_terminal (snd e)) (jobs w))
  /\ List.length (jobs w) = fst (jobs_clear w) + List.length (jobs w')
  /\ job_queue w' = job_queue w
  /\ jobs_clear w' = (0, w').
Proof.
  intros Hnd w'.
  assert (Hj : jobs w' = filter (fun e => negb (is_terminal (snd e))) (jobs w)).
  { subst w'. destruct (jobs_clear_spec w) as [-> _].
    apply filter_ext_in. intros [k j] Hin. simpl. f_equal.
    destruct (is_terminal j) eqn:Ht.
    - apply existsb_exists. exists k. split; [|apply String.eqb_refl].
      apply in_map_iff. exists (k, j). split; [reflexivity|].
      apply filter_In. now split.
    - apply not_true_iff_false. intros He.
      apply existsb_exists in He as (k' & Hk' & Heq).
      apply String.eqb_eq in Heq. subst k'.
      apply in_map_iff in Hk' as ([k' j'] & Hk & Hf). simpl in Hk. subst k'.
      apply filter_In in Hf as [Hin' Ht']. simpl in Ht'.
      rewrite (keys_unique k j j' _ Hnd Hin Hin') in Ht. congruence. }
  split; [exact Hj|]. split; [|split; [|split]].
  - unfold jobs_clear. simpl. now rewrite length_map.
  - rewrite Hj. unfold jobs_clear. simpl. rewrite length_map.
    symmetry. apply filter_length.
  - subst w'. apply jobs_clear_spec.
  - assert (Hnone : filter (fun e => is_terminal (snd e)) (jobs w') = []).
    { rewrite Hj. clear. induction (jobs w) as [|[k j] js IH]; simpl;
        [reflexivity|].
      destruct (is_terminal j) eqn:Ht; simpl; [exact IH|].
      rewrite Ht. exact IH. }
    unfold jobs_clear. rewrite Hnone. reflexivity.
Qed.

(** ** Deleting downloaded files *)

(** X9.  Deleting files keeps every video and its place; a video that is
    not named, or that has no file path, is left exactly as it is; a named
    video with a file path ends not downloaded, without path, quality or
    audio flag; and deleting the same files again changes nothing. *)
Theorem delete_files_resets_named video_ids vs :
  map v_id (delete_files video_ids vs) = map v_id vs
  /\ Forall2 (fun v v' =>
                if existsb (String.eqb (v_id v)) video_ids && has_file_path v
                then v_downloaded v' = false /\ v_file_path v' = None
                     /\ v_quality v' = None /\ v_audio_only v' = None
                else v' = v)
             vs (delete_files video_ids vs)
  /\ Forall (fun v' => In (v_id v') video_ids -> has_file_path v' = false)
            (delete_files video_ids vs)
  /\ delete_files video_ids (delete_files video_ids vs)
     = delete_files video_ids vs.
Proof.
  unfold delete_files. repeat split.
  - rewrite map_map. apply map_ext. intros v.
    now destruct (existsb _ video_ids && has_file_path v).
  - induction vs as [|v vs IH]; simpl; constructor; [|exact IH].
    destruct (existsb _ video_ids && has_file_path v); repeat split.
  - apply Forall_map, Forall_forall. intros v _ Hin.
    destruct (existsb (String.eqb (v_id v)) video_ids) eqn:He; simpl.
    + destruct (has_file_path v) eqn:Hp; [reflexivity | exact Hp].
    + apply existsb_eqb_in in Hin. simpl in *. congruence.
  - rewrite map_map. apply map_ext. intros v.
    destruct (existsb (String.eqb (v_id v)) video_ids && has_file_path v) eqn:H.
    + simpl. now rewrite andb_false_r.
    + now rewrite H.
Qed.

(** ** Enqueuing *)

Lemma update_positions_app pos a b :
  update_positions_from pos (a ++ b)
  = update_positions_from pos a
    ++ update_positions_from (pos + List.length (queued_positions a)) b.
Proof.
  revert pos. induction a as [|[k j] a IH]; intros pos; simpl.
  - now rewrite Nat.add_0_r.
  - rewrite (queued_positions_cons k j a).
    destruct (is_queued j); simpl; rewrite IH; do 3 f_equal; lia.
Qed.

Lemma get_update_positions_none k pos js :
  Dict.get k js = None -> Dict.get k (update_positions_from pos js) = None.
Proof.
  revert pos. induction js as [|[k0 j] js IH]; intros pos; simpl;
    [reflexivity|].
  destruct (String.eqb k0 k) eqn:Hk; [discriminate|]. intros H.
  destruct (is_queued j); simpl; rewrite Hk; now apply IH.
Qed.

(** X10.  [add_job] with an id the table does not hold puts the job at the
    end of the table and of the admission queue, queued, with the position
    after all jobs already queued; the keys before it stay in place. *)
Theorem add_job_takes_last_position
        job_id playlist_id video_id title quality audio_only w :
  Dict.get job_id (jobs w) = None ->
  let r := exec (add_job job_id playlist_id video_id title quality audio_only) w in
  fst r = Ok job_id
  /\ job_queue (snd r) = job_queue w ++ [job_id]
  /\ Dict.keys (jobs (snd r)) = Dict.keys (jobs w) ++ [job_id]
  /\ Dict.get job_id (jobs (snd r))
     = Some (set_queue_pos (S (List.length (queued_positions (jobs w))))
               (new_job job_id playlist_id video_id title quality audio_only))
  /\ data_file (snd r) = data_file w.
Proof.
  intros Hnone r. subst r. unfold add_job. cbn [exec queue_put fst snd].
  unfold Dict.set, Dict.mem. rewrite Hnone. cbn [with_jobs with_queue jobs
    job_queue data_file].
  unfold _update_queue_positions. repeat split.
  - rewrite keys_update_positions. unfold Dict.keys. now rewrite map_app.
  - rewrite update_positions_app, get_app.
    rewrite (get_update_positions_none _ _ _ Hnone). simpl.
    now rewrite String.eqb_refl.
Qed.

Lemma jobs_clear_after_silent_success :
  let w' := snd (jobs_clear Scenario.silent_success) in
  jobs w' = []
  /\ fst (jobs_clear Scenario.silent_success) = 1
  /\ jobs_clear w' = (0, w').
Proof.
  destruct (jobs_clear_removes_terminal Scenario.silent_success)
    as (Hj & Hn & _ & _ & Hi).
  - vm_compute. repeat constructor. intros [].
  - cbv zeta. split; [|split; [|exact Hi]]; vm_compute; reflexivity.
Defined.

Lemma add_job_second_request :
  let r := exec (add_job "j2" "p1" "a" "Title" "720p" true)
                (Scenario.queued_world None) in
  job_queue (snd r) = ["j1"; "j2"]
  /\ Dict.keys (jobs (snd r)) = ["j1"; "j2"]
  /\ option_map j_queue_pos (Dict.get "j2" (jobs (snd r))) = Some 2.
Proof.
  destruct (add_job_takes_last_position "j2" "p1" "a" "Title" "720p" true
              (Scenario.queued_world None) eq_refl)
    as (_ & Hq & Hk & Hj & _).
  cbv zeta. rewrite Hq, Hk, Hj. split; [|split]; vm_compute; reflexivity.
Defined.
(** ** Progress signals *)

Lemma drop_prefix_startswith l s s' :
  drop_prefix l s = Some s' -> PyStr.startswith l s = true.
Proof.
  revert s. induction l as [|a l IH]; intros [|b s]; simpl; try discriminate;
    auto.
  destruct (Ascii.eqb a b); [apply IH | discriminate].
Qed.

Lemma search_lit_prefix l r s g :
  search (Cat (Lit l) r) s = Some g -> PyStr.contains l s = true.
Proof.
  induction s as [|c s IH]; simpl.
  - destruct (drop_prefix l "") as [s'|] eqn:Hd; [|discriminate].
    intros _. apply drop_prefix_startswith in Hd. now rewrite Hd.
  - destruct (drop_prefix l (String c s)) as [s'|] eqn:Hd.
    + intros _. apply drop_prefix_startswith in Hd. now rewrite Hd.
    + simpl. intros H. rewrite (IH H). apply orb_true_r.
Qed.

Lemma digits_value_nonneg s acc v n rest :
  digits_value acc s = (v, n, rest) -> (0 <= acc)%Z -> (0 <= v)%Z.
Proof.
  revert acc v n rest.
  induction s as [|c s IH]; intros acc v n rest; cbn [digits_value].
  - intros H. injection H as <- _ _. auto.
  - destruct (PyStr.isdigit c).
    + destruct (digits_value _ s) as [[v' n'] rest'] eqn:Hd.
      intros H Hacc. injection H as <- _ _. eapply IH; [exact Hd|]. lia.
    + intros H. injection H as <- _ _. auto.
Qed.

Lemma float_nonneg s q : float s = Ok q -> (0 <= q)%Q.
Proof.
  unfold float.
  destruct (digits_value 0 s) as [[i ni] rest] eqn:Hi.
  pose proof (digits_value_nonneg _ _ _ _ _ Hi (Z.le_refl 0)) as Hpos.
  destruct rest as [|c frac].
  - destruct (Nat.eqb ni 0); [discriminate|]. intros H.
    assert (Hq : q = Qred (Qmake i 1)) by congruence. rewrite Hq.
    setoid_rewrite Qred_correct. unfold Qle. cbn [Qnum Qden]. lia.
  - destruct (Ascii.eqb c "."); [|discriminate].
    destruct (digits_value i frac) as [[v nf] [|c' rest']] eqn:Hv;
      [|discriminate].
    destruct (Nat.eqb (ni + nf) 0); [discriminate|].
    intros H.
    assert (Hq : q = Qred (Qmake v (Z.to_pos (10 ^ Z.of_nat nf))))
      by congruence.
    pose proof (digits_value_nonneg _ _ _ _ _ Hv Hpos).
    rewrite Hq. setoid_rewrite Qred_correct.
    unfold Qle. cbn [Qnum Qden]. lia.
Qed.

Lemma progress_line_has_marker line p :
  parse_line line = Ok (Some p) ->
  PyStr.contains "[download]" line = true.
Proof.
  unfold parse_line.
  destruct (search _RE_PROGRESS line) as [m|] eqn:Hm; [|discriminate].
  intros _. eapply (search_lit_prefix "[download]"). exact Hm.
Qed.

(** X11.  A progress signal is only ever read off a line that holds the
    [download] marker, and its percentage is never negative. *)
Theorem parse_line_signal_needs_marker line p :
  parse_line line = Ok (Some p) ->
  PyStr.contains "[download]" line = true /\ (0 <= pct p)%Q.
Proof.
  intros H. split; [now apply progress_line_has_marker in H|].
  unfold parse_line in H.
  destruct (search _RE_PROGRESS line) as [m|]; [|discriminate].
  destruct (float (group_or_empty 1 m)) as [q|e] eqn:Hq; [|discriminate].
  injection H as <-. simpl. now apply float_nonneg in Hq.
Qed.

Lemma parse_line_sample_signal :
  parse_line Scenario.progress_line
  = Ok (Some {| pct := 85 # 2; size := "10.00MiB";
                speed := "512.00KiB/s"; eta := "00:20" |})
  /\ PyStr.contains "[download]" Scenario.progress_line = true
  /\ (0 <= 85 # 2)%Q.
Proof.
  assert (H : parse_line Scenario.progress_line
              = Ok (Some {| pct := 85 # 2; size := "10.00MiB";
                            speed := "512.00KiB/s"; eta := "00:20" |}))
    by (vm_compute; reflexivity).
  split; [exact H|]. exact (parse_line_signal_needs_marker _ _ H).
Defined.

(** X12.  The first progress line a job sees takes it out of the phases
    queued and starting: after a line that parsed, the phase is one of
    audio, video, downloading, merging and converting, and the progress is
    the parsed percentage or 99. *)
Theorem first_progress_line_sets_phase line p j :
  parse_line line = Ok (Some p) ->
  phase_in_starting_queued j = true ->
  let j' := apply_line line (Some p) j in
  In (j_phase j') ["audio"; "video"; "downloading"; "merging"; "converting"]
  /\ (j_progress j' = pct p \/ j_progress j' = 99%Q).
Proof.
  intros Hp Hph. apply progress_line_has_marker in Hp as Hm.
  unfold apply_line, apply_extractaudio, apply_merger, apply_download_phase,
    apply_progress, post_processing.
  rewrite Hm.
  change (phase_in_starting_queued (set_size _ _)) with
    (phase_in_starting_queued j). rewrite Hph.
  cbv zeta.
  destruct (PyStr.contains "[extractaudio]" (PyStr.lower line));
    destruct (PyStr.contains "[merger]" (PyStr.lower line));
    destruct (PyStr.contains "audio" (PyStr.lower line));
    destruct (PyStr.contains "video" (PyStr.lower line));
    simpl; tauto.
Qed.

Lemma first_progress_line_example :
  let p := {| pct := 85 # 2; size := "10.00MiB";
              speed := "512.00KiB/s"; eta := "00:20" |} in
  let j' := apply_line Scenario.progress_line (Some p)
                       (Scenario.probe_job "starting") in
  j_phase j' = "downloading"
  /\ In (j_phase j') ["audio"; "video"; "downloading"; "merging"; "converting"]
  /\ (j_progress j' = pct p \/ j_progress j' = 99%Q).
Proof.
  intros p j'. split; [vm_compute; reflexivity|].
  apply (first_progress_line_sets_phase Scenario.progress_line p
           (Scenario.probe_job "starting")).
  - vm_compute. reflexivity.
  - reflexivity.
Defined.

(** ** The error hint *)

(** X13.  The hint taken from the log of a failed run is never empty: it is
    the last line that is not blank, stripped, and the fixed text when every
    line is blank or the log is empty. *)
Theorem last_nonblank_is_last_line :
  (forall log, PyStr.nonempty (last_nonblank log) = true)
  /\ (forall before l after,
         PyStr.nonempty (PyStr.strip l) = true -> Forall blank after ->
         last_nonblank (before ++ l :: after) = PyStr.strip l)
  /\ (forall log, Forall blank log -> last_nonblank log = "yt-dlp error").
Proof.
  split; [|split].
  - intros log. unfold last_nonblank.
    destruct (find _ (rev log)) as [l|] eqn:Hf; [|reflexivity].
    now apply find_some in Hf.
  - intros before l after Hl Hb. unfold last_nonblank.
    rewrite rev_app_distr. simpl. rewrite <- app_assoc, find_append.
    assert (Hn : find (fun l0 => PyStr.nonempty (PyStr.strip l0)) (rev after)
                 = None).
    { apply Forall_rev in Hb. induction Hb as [|x xs Hx _ IH]; simpl;
        [reflexivity|]. unfold blank in Hx. now rewrite Hx. }
    rewrite Hn. simpl. now rewrite Hl.
  - intros log Hb. unfold last_nonblank.
    apply Forall_rev in Hb. induction Hb as [|x xs Hx _ IH]; simpl;
      [reflexivity|]. unfold blank in Hx. now rewrite Hx.
Qed.

Lemma last_nonblank_skips_trailing_blank :
  last_nonblank ["[youtube] b: Downloading webpage";
                 "  ERROR: Video unavailable "; "   "; ""]
  = "ERROR: Video unavailable".
Proof.
  destruct last_nonblank_is_last_line as (_ & H & _).
  apply (H ["[youtube] b: Downloading webpage"]
           "  ERROR: Video unavailable " ["   "; ""]).
  - reflexivity.
  - repeat constructor.
Defined.
(** ** One run of [_run_job], alone *)

Lemma update_update {V} k (f g : V -> V) d :
  Dict.update k g (Dict.update k f d) = Dict.update k (fun v => g (f v)) d.
Proof.
  unfold Dict.update. rewrite map_map. apply map_ext. intros [k0 v]. simpl.
  destruct (String.eqb k0 k) eqn:Hk; simpl; now rewrite Hk.
Qed.

Lemma update_ext {V} k (f g : V -> V) d :
  (forall v, f v = g v) -> Dict.update k f d = Dict.update k g d.
Proof.
  intros H. unfold Dict.update. apply map_ext. intros [k0 v]. simpl.
  now rewrite H.
Qed.

Lemma exec_act {A} (m : World -> Res A * World) w :
  exec (act m) w = m w.
Proof. unfold act. simpl. destruct (m w) as [[a|e] w']; reflexivity. Qed.

Lemma exec_lift {A} (r : Res A) w : exec (lift r) w = (r, w).
Proof. now destruct r. Qed.

Lemma exec_stream job_id lines output_file w j :
  Forall parses lines ->
  Dict.get job_id (jobs w) = Some j ->
  exec (stream job_id lines output_file) w
  = (Ok (streamed_output lines output_file),
     with_jobs (Dict.update job_id (streamed_job lines) (jobs w)) w).
Proof.
  intros Hp. revert output_file w j.
  induction Hp as [|raw lines [parsed Hraw] _ IH]; intros o w j Hj.
  - simpl. f_equal. unfold streamed_job. simpl.
    assert (H : Dict.update job_id (fun j0 => j0) (jobs w) = jobs w).
    { unfold Dict.update. rewrite <- (map_id (jobs w)) at 2.
      apply map_ext. intros [k0 v]. simpl. now destruct (String.eqb k0 job_id). }
    rewrite H. now destruct w.
  - assert (Hs : signal (PyStr.rstrip raw) = parsed)
      by (unfold signal; now rewrite Hraw).
    cbn [stream]. rewrite exec_bind, exec_lift, Hraw.
    rewrite exec_bind, exec_act. unfold line_block. rewrite Hj.
    erewrite IH.
    2:{ cbn [jobs with_jobs]. rewrite get_update_same, Hj. reflexivity. }
    unfold streamed_output, streamed_job. cbn [jobs with_jobs fold_left].
    rewrite Hs, update_update. reflexivity.
Qed.

Lemma running_block_started t job_id w j :
  Dict.get job_id (jobs w) = Some j ->
  let w1 := snd (running_block t job_id w) in
  running_block t job_id w = (Ok tt, w1)
  /\ Dict.get job_id (jobs w1) = Some (started_job t j)
  /\ data_file w1 = data_file w
  /\ write_fault w1 = write_fault w
  /\ job_queue w1 = job_queue w.
Proof.
  intros Hj. unfold running_block. rewrite Hj.
  cbn [snd jobs with_jobs data_file write_fault job_queue]. repeat split.
  unfold _update_queue_positions.
  apply get_update_positions; [|reflexivity].
  now rewrite get_update_same, Hj.
Qed.

(** Runs the blocks of [_run_job] that come before the subprocess, given the
    facts about the world after the first block. *)
Ltac run_to_validation Hrun Hdf Hd Hj1 :=
  unfold _run_job; rewrite exec_bind, exec_act, Hrun;
  rewrite exec_bind, exec_act; unfold read_data; rewrite Hdf, Hd;
  rewrite exec_bind, exec_act; unfold job_get at 1; rewrite Hj1;
  change (j_playlist_id (started_job _ ?j)) with (j_playlist_id j).

Ltac run_to_subprocess Hmk Hj1 :=
  rewrite exec_bind, exec_act; unfold job_get at 1; rewrite Hj1;
  rewrite exec_bind, exec_lift, Hmk;
  rewrite exec_bind, exec_act; unfold job_get at 1; rewrite Hj1;
  rewrite exec_try_catch, exec_bind, exec_lift.

Lemma run_job_without_playlist_exec env job_id w j data :
  Dict.get job_id (jobs w) = Some j ->
  load_data (data_file w) = Ok data ->
  Dict.get (j_playlist_id j) (playlists data) = None ->
  let w1 := snd (running_block (now_started env) job_id w) in
  exec (_run_job env job_id) w
  = (Ok tt,
     with_jobs (Dict.update job_id
                  (fail_with "Playlist not found" (now_finished env))
                  (jobs w1)) w1).
Proof.
  intros Hj Hd Hpl w1.
  destruct (running_block_started (now_started env) job_id w j Hj)
    as (Hrun & Hj1 & Hdf & _ & Hq).
  fold w1 in Hrun, Hj1, Hdf, Hq.
  run_to_validation Hrun Hdf Hd Hj1.
  rewrite Hpl, exec_act. unfold job_modify. now rewrite Hj1.
Qed.

(** X14.  A job whose playlist is not in the catalog when it starts ends in
    error with the message "Playlist not found", started and finished at the
    two clock readings; the data file and the queue are untouched, and what
    the subprocess or the file system would have answered plays no part. *)
Theorem run_job_without_playlist env job_id w j data :
  Dict.get job_id (jobs w) = Some j ->
  load_data (data_file w) = Ok data ->
  Dict.get (j_playlist_id j) (playlists data) = None ->
  let r := exec (_run_job env job_id) w in
  fst r = Ok tt
  /\ Dict.get job_id (jobs (snd r))
     = Some (fail_with "Playlist not found" (now_finished env)
               (started_job (now_started env) j))
  /\ data_file (snd r) = data_file w
  /\ job_queue (snd r) = job_queue w
  /\ forall env',
      now_started env' = now_started env ->
      now_finished env' = now_finished env ->
      exec (_run_job env' job_id) w = r.
Proof.
  intros Hj Hd Hpl r. subst r.
  rewrite (run_job_without_playlist_exec env job_id w j data Hj Hd Hpl).
  destruct (running_block_started (now_started env) job_id w j Hj)
    as (_ & Hj1 & Hdf & _ & Hq).
  cbn [fst snd jobs with_jobs data_file job_queue].
  rewrite get_update_same, Hj1. repeat split; auto.
  intros env' Hs Hf.
  rewrite (run_job_without_playlist_exec env' job_id w j data Hj Hd Hpl).
  now rewrite Hs, Hf.
Qed.

(** X15.  A run whose subprocess exits with a non-zero code, and whose
    output lines all parse, ends in error: the job holds the log of the
    run, and its error message is the last non-blank line of that log (or
    the fixed text), never empty; the data file is untouched. *)
Theorem run_job_nonzero_exit env job_id w j data pl lines rc :
  Dict.get job_id (jobs w) = Some j ->
  load_data (data_file w) = Ok data ->
  Dict.get (j_playlist_id j) (playlists data) = Some pl ->
  mkdir env = Ok tt ->
  popen env = Ok (lines, rc) ->
  rc <> 0%Z ->
  Forall parses lines ->
  let r := exec (_run_job env job_id) w in
  let streamed := streamed_job lines (started_job (now_started env) j) in
  fst r = Ok tt
  /\ Dict.get job_id (jobs (snd r))
     = Some (fail_with (last_nonblank (j_log streamed)) (now_finished env)
                       streamed)
  /\ PyStr.nonempty (last_nonblank (j_log streamed)) = true
  /\ data_file (snd r) = data_file w.
Proof.
  intros Hj Hd Hpl Hmk Hpo Hrc Hp r streamed.
  destruct (running_block_started (now_started env) job_id w j Hj)
    as (Hrun & Hj1 & Hdf & _ & Hq).
  set (w1 := snd (running_block (now_started env) job_id w)) in *.
  assert (Hex : exec (_run_job env job_id) w
    = (Ok tt,
       with_jobs
         (Dict.update job_id
            (fun j0 => fail_with (last_nonblank (j_log j0)) (now_finished env) j0)
            (Dict.update job_id (streamed_job lines) (jobs w1))) w1)).
  { run_to_validation Hrun Hdf Hd Hj1. rewrite Hpl.
    run_to_subprocess Hmk Hj1. rewrite Hpo.
    rewrite exec_bind. cbn [fst snd].
    rewrite (exec_stream job_id lines None w1 _ Hp Hj1).
    apply Z.eqb_neq in Hrc. rewrite Hrc.
    rewrite exec_act. unfold job_modify. cbn [jobs with_jobs].
    rewrite get_update_same, Hj1. reflexivity. }
  subst r. rewrite Hex. cbn [fst snd jobs with_jobs data_file].
  rewrite !get_update_same, Hj1. repeat split; auto.
  unfold last_nonblank.
  destruct (find _ (rev (j_log streamed))) as [l|] eqn:Hf; [|reflexivity].
  now apply find_some in Hf.
Qed.

Lemma run_job_after_playlist_deleted :
  let r := exec (_run_job (Scenario.run_env [Scenario.progress_line] 0) "j1")
                Sample.emptied in
  fst r = Ok tt
  /\ option_map j_status (Dict.get "j1" (jobs (snd r))) = Some Error
  /\ option_map j_error (Dict.get "j1" (jobs (snd r)))
     = Some (Some "Playlist not found")
  /\ data_file (snd r) = File (Ok empty_catalog).
Proof.
  destruct (run_job_without_playlist
              (Scenario.run_env [Scenario.progress_line] 0) "j1"
              Sample.emptied _ empty_catalog eq_refl eq_refl eq_refl)
    as (Hr & Hj & Hd & _).
  cbv zeta. rewrite Hr, Hj, Hd.
  split; [|split; [|split]]; vm_compute; reflexivity.
Defined.

Lemma run_job_video_unavailable :
  let r := exec (_run_job (Scenario.run_env
                             ["[youtube] b: Downloading webpage";
                              "ERROR: Video unavailable "] 1) "j1")
                (Scenario.queued_world None) in
  fst r = Ok tt
  /\ option_map j_status (Dict.get "j1" (jobs (snd r))) = Some Error
  /\ option_map j_error (Dict.get "j1" (jobs (snd r)))
     = Some (Some "ERROR: Video unavailable").
Proof.
  destruct (run_job_nonzero_exit
              (Scenario.run_env ["[youtube] b: Downloading webpage";
                                 "ERROR: Video unavailable "] 1) "j1"
              (Scenario.queued_world None) _ Scenario.catalog
              Scenario.playlist _ 1%Z eq_refl eq_refl eq_refl eq_refl eq_refl)
    as (Hr & Hj & _).
  - simpl. lia.
  - repeat constructor; eexists; vm_compute; reflexivity.
  - cbv zeta. rewrite Hr, Hj. split; [|split]; vm_compute; reflexivity.
Defined.

(** ** Handlers of the catalog *)

Lemma exec_resumed_act {A B} (m : World -> Res A * World) (f : A -> Prog B)
      w1 w2 :
  exec_resumed (bind (act m) f) w1 w2 = exec (bind (lift (fst (m w1))) f) w2.
Proof.
  unfold exec_resumed, act. cbn [bind advance]. now destruct (m w1).
Qed.

(** X17.  A sync writes back the playlist it read before the fetch, merged
    with the remote: whatever the catalog holds under that playlist id by
    the time the fetch is over (nothing after a deletion, a newer download
    state after a finished job) is replaced, and the other playlists keep
    what they have. *)
Theorem playlist_sync_writes_back_snapshot
        k run now w1 d1 pl title remote w2 d2 :
  load_data (data_file w1) = Ok d1 ->
  Dict.get k (playlists d1) = Some pl ->
  fetch_playlist_info run = Ok (title, remote) ->
  load_data (data_file w2) = Ok d2 ->
  write_fault w2 = None ->
  let pl' := synced_playlist title (sync_videos (pl_videos pl) remote) now pl in
  exists d2',
    exec_resumed (playlist_sync_handler (Some k) run now) w1 w2
    = (Ok (RespPlaylist pl'), with_data_file (File (Ok d2')) w2)
    /\ Dict.get k (playlists d2') = Some pl'
    /\ forall k', k' <> k ->
                  Dict.get k' (playlists d2') = Dict.get k' (playlists d2).
Proof.
  intros H1 Hpl Hf H2 Hw pl'.
  exists (with_playlists (Dict.set k pl' (playlists d2)) d2).
  split; [|split].
  - unfold playlist_sync_handler. rewrite exec_resumed_act.
    unfold find_playlist at 1. rewrite H1, Hpl. cbn [fst].
    rewrite exec_bind, exec_lift. cbv beta iota.
    rewrite exec_try_catch, exec_bind, exec_lift, Hf.
    cbv beta iota. cbn [fst snd]. fold pl'.
    rewrite exec_bind, exec_act. unfold store_playlist, save_data.
    now rewrite H2, Hw.
  - apply get_set_same.
  - intros k' Hk. now apply get_set_other.
Qed.

(** X18.  Deleting a playlist that exists removes it and nothing else from
    the catalog; a job for that playlist that runs afterwards ends in error
    with "Playlist not found", whatever the subprocess would have done. *)
Theorem playlist_delete_then_job env job_id w j data :
  load_data (data_file w) = Ok data ->
  write_fault w = None ->
  Dict.get job_id (jobs w) = Some j ->
  Dict.mem (j_playlist_id j) (playlists data) = true ->
  let d := playlist_delete_block (j_playlist_id j) w in
  let r := exec (_worker_iter env job_id) (snd d) in
  fst d = Ok RespOk
  /\ (exists data',
         load_data (data_file (snd d)) = Ok data'
         /\ Dict.get (j_playlist_id j) (playlists data') = None
         /\ forall k, k <> j_playlist_id j ->
                      Dict.get k (playlists data') = Dict.get k (playlists data))
  /\ fst r = Ok tt
  /\ option_map j_status (Dict.get job_id (jobs (snd r))) = Some Error
  /\ option_map j_error (Dict.get job_id (jobs (snd r)))
     = Some (Some "Playlist not found").
Proof.
  intros Hd Hw Hj Hm d r.
  assert (Hdel : d = (Ok RespOk,
                      with_data_file
                        (File (Ok (with_playlists
                                     (Dict.del (j_playlist_id j) (playlists data))
                                     data))) w)).
  { subst d. unfold playlist_delete_block, save_data. now rewrite Hd, Hm, Hw. }
  subst r. rewrite Hdel. cbn [fst snd].
  split; [reflexivity|]. split.
  - eexists. split; [reflexivity|]. cbn [playlists with_playlists]. split.
    + apply get_del_same.
    + intros k Hk. now apply get_del_other.
  - unfold _worker_iter. rewrite exec_try_finally, exec_try_catch.
    erewrite run_job_without_playlist_exec; [|exact Hj|reflexivity|].
    2:{ cbn [playlists with_playlists]. apply get_del_same. }
    cbn [exec task_done fst snd jobs with_jobs].
    destruct (running_block_started (now_started env) job_id
                (with_data_file
                   (File (Ok (with_playlists
                                (Dict.del (j_playlist_id j) (playlists data))
                                data))) w) j Hj) as (_ & Hj1 & _).
    rewrite get_update_same, Hj1. repeat split.
Qed.

Lemma playlist_sync_revives_deleted_playlist :
  exists d2',
    exec_resumed (playlist_sync_handler (Some "p1") Sample.fetched 5%Q)
                 (Scenario.queued_world None) Sample.emptied
    = (Ok (RespPlaylist
             (synced_playlist "Mix"
                (sync_videos (pl_videos Scenario.playlist)
                             [Scenario.video "a"; Scenario.video "c"])
                5%Q Scenario.playlist)),
       with_data_file (File (Ok d2')) Sample.emptied)
    /\ Dict.mem "p1" (playlists d2') = true.
Proof.
  destruct (playlist_sync_writes_back_snapshot
              "p1" Sample.fetched 5%Q (Scenario.queued_world None)
              Scenario.catalog Scenario.playlist "Mix"
              [Scenario.video "a"; Scenario.video "c"]
              Sample.emptied empty_catalog
              eq_refl eq_refl eq_refl eq_refl eq_refl)
    as (d2' & He & Hk & _).
  exists d2'. split; [exact He|].
  unfold Dict.mem. now rewrite Hk.
Defined.

Lemma playlist_delete_then_queued_job :
  let d := playlist_delete_block "p1" (Scenario.queued_world None) in
  let r := exec (_worker_iter (Scenario.run_env [Scenario.progress_line] 0) "j1")
                (snd d) in
  fst d = Ok RespOk
  /\ fst r = Ok tt
  /\ option_map j_status (Dict.get "j1" (jobs (snd r))) = Some Error
  /\ option_map j_error (Dict.get "j1" (jobs (snd r)))
     = Some (Some "Playlist not found").
Proof.
  destruct (playlist_delete_then_job
              (Scenario.run_env [Scenario.progress_line] 0) "j1"
              (Scenario.queued_world None) _ Scenario.catalog
              eq_refl eq_refl eq_refl eq_refl)
    as (Hd & _ & Hr & Hs & He).
  cbv zeta. repeat split; assumption.
Defined.
(** ** The bound on running jobs *)

Lemma running_ids_cons k j js :
  running_ids ((k, j) :: js)
  = if is_running j then k :: running_ids js else running_ids js.
Proof. unfold running_ids. simpl. now destruct (is_running j). Qed.

Lemma running_ids_in k js :
  In k (running_ids js) <-> exists j, In (k, j) js /\ is_running j = true.
Proof.
  unfold running_ids. rewrite in_map_iff. split.
  - intros ([k0 j] & Hk & Hf). simpl in Hk. subst k0.
    apply filter_In in Hf as [Hin Hr]. now exists j.
  - intros (j & Hin & Hr). exists (k, j). split; [reflexivity|].
    apply filter_In. now split.
Qed.

Lemma running_ids_recomputed pos js :
  running_ids (update_positions_from pos js) = running_ids js.
Proof.
  revert pos. induction js as [|[k j] js IH]; intros pos; simpl;
    [reflexivity|].
  destruct (is_queued j); rewrite !running_ids_cons, IH; reflexivity.
Qed.

Lemma running_ids_update k f js :
  (forall j, is_running (f j) = true -> is_running j = true) ->
  incl (running_ids (Dict.update k f js)) (running_ids js).
Proof.
  intros Hf i Hi. apply running_ids_in in Hi as (j & Hin & Hr).
  unfold Dict.update in Hin. apply in_map_iff in Hin as ([k0 j0] & He & Hin).
  simpl in He. apply running_ids_in.
  destruct (String.eqb k0 k); injection He as <- <-; exists j0; auto.
Qed.

Lemma running_ids_update_first k f js :
  incl (running_ids (Dict.update k f js)) (k :: running_ids js).
Proof.
  intros i Hi. apply running_ids_in in Hi as (j & Hin & Hr).
  unfold Dict.update in Hin. apply in_map_iff in Hin as ([k0 j0] & He & Hin).
  simpl in He. destruct (String.eqb_spec k0 k) as [->|Hk];
    injection He as <- <-; [now left|right].
  apply running_ids_in. now exists j0.
Qed.

Lemma running_ids_update_settled k f js :
  (forall j, is_running (f j) = false) ->
  ~ In k (running_ids (Dict.update k f js)).
Proof.
  intros Hf Hi. apply running_ids_in in Hi as (j & Hin & Hr).
  unfold Dict.update in Hin. apply in_map_iff in Hin as ([k0 j0] & He & Hin).
  simpl in He. destruct (String.eqb_spec k0 k) as [->|Hk].
  - injection He as <-. now rewrite Hf in Hr.
  - injection He as He _. congruence.
Qed.

Lemma running_ids_absent k js :
  Dict.get k js = None -> ~ In k (running_ids js).
Proof.
  intros Hn Hi. apply running_ids_in in Hi as (j & Hin & _).
  apply (get_none_not_key _ _ Hn). unfold Dict.keys.
  change k with (fst (k, j)). now apply in_map.
Qed.

Lemma running_ids_set_queued k j js :
  is_running j = false ->
  incl (running_ids (Dict.set k j js)) (running_ids js).
Proof.
  intros Hj. unfold Dict.set. destruct (Dict.mem k js).
  - apply running_ids_update. intros j0. now rewrite Hj.
  - intros i Hi. apply running_ids_in in Hi as (j0 & Hin & Hr).
    apply in_app_or in Hin as [Hin|[He|[]]].
    + apply running_ids_in. now exists j0.
    + injection He as <- <-. congruence.
Qed.

Lemma running_ids_filter (P : string * Job -> bool) js :
  incl (running_ids (filter P js)) (running_ids js).
Proof.
  intros i Hi. apply running_ids_in in Hi as (j & Hin & Hr).
  apply filter_In in Hin as [Hin _]. apply running_ids_in. now exists j.
Qed.

Lemma running_ids_nodup js : NoDup (Dict.keys js) -> NoDup (running_ids js).
Proof.
  unfold running_ids. apply keys_filter_nodup.
Qed.

(** *** The blocks of the worker *)

Lemma tame_job_get {X} job_id (field : Job -> X) w :
  incl (running_ids (jobs (snd (job_get job_id field w)))) (running_ids (jobs w)).
Proof. unfold job_get. destruct (Dict.get job_id (jobs w)); apply incl_refl. Qed.

Lemma tame_job_modify job_id f w :
  keeps_status f ->
  incl (running_ids (jobs (snd (job_modify job_id f w)))) (running_ids (jobs w)).
Proof.
  intros Hf. unfold job_modify. destruct (Dict.get job_id (jobs w)); simpl.
  - now apply running_ids_update.
  - apply incl_refl.
Qed.

Lemma apply_line_status line parsed j :
  j_status (apply_line line parsed j) = j_status j.
Proof.
  unfold apply_line, apply_extractaudio, apply_merger, apply_download_phase,
    apply_progress, post_processing.
  repeat match goal with
         | |- context [if ?b then _ else _] => destruct b
         | |- context [match ?x with Some _ => _ | None => _ end] => destruct x
         end; reflexivity.
Qed.

Lemma tame_line_block job_id line parsed output_file w :
  incl (running_ids (jobs (snd (line_block job_id line parsed output_file w))))
       (running_ids (jobs w)).
Proof.
  unfold line_block. destruct (Dict.get job_id (jobs w)) as [j0|]; simpl.
  - apply running_ids_update. intros j. unfold is_running.
    now rewrite apply_line_status.
  - apply incl_refl.
Qed.

Lemma tame_reconcile job_id output_file w :
  incl (running_ids (jobs (snd (reconcile job_id output_file w))))
       (running_ids (jobs w)).
Proof.
  unfold reconcile, save_data.
  repeat match goal with
         | |- context [match ?x with _ => _ end] => destruct x
         end; apply incl_refl.
Qed.

Lemma tame_caught_block job_id e t w :
  incl (running_ids (jobs (snd (caught_block job_id e t w))))
       (running_ids (jobs w)).
Proof.
  unfold caught_block. simpl. destruct (Dict.mem job_id (jobs w)); simpl.
  - apply running_ids_update. intros j1 H. discriminate H.
  - apply incl_refl.
Qed.

Lemma keeps_status_fail_with msg t : keeps_status (fail_with msg t).
Proof. intros j H. discriminate H. Qed.

Lemma keeps_status_finish_done o t : keeps_status (finish_done o t).
Proof. intros j H. discriminate H. Qed.

(** *** Tameness of the worker's program *)

Lemma tame_bind {A B} (p : Prog A) (f : A -> Prog B) :
  tame p -> (forall a, tame (f a)) -> tame (bind p f).
Proof.
  intros Hp Hf. induction p as [a|e|X m k IH]; simpl; auto.
  destruct Hp as [Hm Hk]. split; auto.
Qed.

Lemma tame_try_catch {A} (p : Prog A) h :
  tame p -> (forall e, tame (h e)) -> tame (try_catch p h).
Proof.
  intros Hp Hh. induction p as [a|e|X m k IH]; simpl; auto.
  destruct Hp as [Hm Hk]. split; auto.
Qed.

Lemma tame_try_finally {A} (p : Prog A) q :
  tame p -> tame q -> tame (try_finally p q).
Proof.
  intros Hp Hq. induction p as [a|e|X m k IH]; simpl.
  - now apply tame_bind.
  - now apply tame_bind.
  - destruct Hp as [Hm Hk]. split; auto.
Qed.

Lemma tame_lift {A} (r : Res A) : tame (lift r).
Proof. now destruct r. Qed.

Lemma tame_act {A} (m : World -> Res A * World) :
  (forall w, incl (running_ids (jobs (snd (m w)))) (running_ids (jobs w))) ->
  tame (act m).
Proof. intros H. split; [exact H | intros x; apply tame_lift]. Qed.

Create HintDb tameness.
#[local] Hint Resolve tame_lift tame_act tame_job_get tame_job_modify
  tame_line_block tame_reconcile keeps_status_fail_with
  keeps_status_finish_done incl_refl : tameness.

Lemma tame_stream job_id lines output_file :
  tame (stream job_id lines output_file).
Proof.
  revert output_file. induction lines as [|raw rest IH]; intros o;
    cbn [stream]; [exact I|].
  apply tame_bind; [apply tame_lift|]. intros parsed.
  apply tame_bind; auto with tameness.
Qed.

Lemma tame_after_first_bind {A B} job_id (p : Prog A) (f : A -> Prog B) :
  tame_after_first job_id p -> (forall a, tame (f a)) ->
  tame_after_first job_id (bind p f).
Proof.
  intros Hp Hf. destruct p as [a|e|X m k]; simpl in *; try contradiction.
  destruct Hp as [Hm Hk]. split; [exact Hm|]. intros x. now apply tame_bind.
Qed.

Lemma tame_after_first_try_catch {A} job_id (p : Prog A) h :
  tame_after_first job_id p -> (forall e, tame (h e)) ->
  tame_after_first job_id (try_catch p h).
Proof.
  intros Hp Hh. destruct p as [a|e|X m k]; simpl in *; try contradiction.
  destruct Hp as [Hm Hk]. split; [exact Hm|].
  intros x. now apply tame_try_catch.
Qed.

Lemma tame_after_first_try_finally {A} job_id (p : Prog A) q :
  tame_after_first job_id p -> tame q ->
  tame_after_first job_id (try_finally p q).
Proof.
  intros Hp Hq. destruct p as [a|e|X m k]; simpl in *; try contradiction.
  destruct Hp as [Hm Hk]. split; [exact Hm|].
  intros x. now apply tame_try_finally.
Qed.

Lemma worker_iter_tame env job_id :
  tame_after_first job_id (_worker_iter env job_id).
Proof.
  unfold _worker_iter, _run_job.
  apply tame_after_first_try_finally.
  2:{ split; [|intros; exact I]. intros w. apply incl_refl. }
  apply tame_after_first_try_catch.
  2:{ intros e. split; [|intros; exact I]. intros w. apply tame_caught_block. }
  apply tame_after_first_bind.
  { split; [|intros x; apply tame_lift].
    intros w. unfold running_block.
    destruct (Dict.get job_id (jobs w)); simpl.
    - unfold _update_queue_positions. rewrite running_ids_recomputed.
      apply running_ids_update_first.
    - apply incl_tl, incl_refl. }
  intros _. apply tame_bind.
  { apply tame_act. intros w. apply incl_refl. }
  intros data. apply tame_bind; [auto with tameness|]. intros playlist_id.
  destruct (Dict.get playlist_id (playlists data)); [|auto with tameness].
  apply tame_bind; [auto with tameness|]. intros _.
  apply tame_bind; [auto with tameness|]. intros _.
  apply tame_bind; [auto with tameness|]. intros _.
  apply tame_try_catch; [|auto with tameness].
  apply tame_bind; [auto with tameness|]. intros proc.
  apply tame_bind; [apply tame_stream|]. intros output_file.
  destruct (Z.eqb (snd proc) 0).
  - apply tame_bind.
    { destruct (needs_scan env output_file); [|exact I].
      apply tame_bind; [auto with tameness|]. intros; exact I. }
    intros o. apply tame_bind; auto with tameness.
  - apply tame_act. intros w. apply tame_job_modify.
    intros j1 H. discriminate H.
Qed.
(** *** Every turn of a worker settles its job *)

Lemma settles_mono {A} job_id (Q Q' : A -> Prop) (E E' : Exn -> Prop) p :
  (forall a, Q a -> Q' a) -> (forall e, E e -> E' e) ->
  settles job_id Q E p -> settles job_id Q' E' p.
Proof.
  intros HQ HE. induction p as [a|e|X m k IH]; simpl; auto.
  intros H w. destruct (H w) as [Hs|Hs]; [now left | right; now apply IH].
Qed.

Lemma settles_bind {A B} job_id (Q : B -> Prop) E (p : Prog A) (f : A -> Prog B) :
  settles job_id (fun a => settles job_id Q E (f a)) E p ->
  settles job_id Q E (bind p f).
Proof.
  induction p as [a|e|X m k IH]; simpl; auto.
  intros H w. destruct (H w) as [Hs|Hs]; [now left | right; now apply IH].
Qed.

Lemma settles_try_catch {A} job_id (Q : A -> Prop) E (p : Prog A) h :
  settles job_id Q (fun e => settles job_id Q E (h e)) p ->
  settles job_id Q E (try_catch p h).
Proof.
  induction p as [a|e|X m k IH]; simpl; auto.
  intros H w. destruct (H w) as [Hs|Hs]; [now left | right; now apply IH].
Qed.

Lemma settles_try_finally {A} job_id (Q : A -> Prop) E (p : Prog A) q :
  settles job_id (fun _ => False) (fun _ => False) p ->
  settles job_id Q E (try_finally p q).
Proof.
  induction p as [a|e|X m k IH]; simpl; try contradiction.
  intros H w. destruct (H w) as [Hs|Hs]; [now left | right; now apply IH].
Qed.

Lemma settles_lift {A} job_id (Q : A -> Prop) E (r : Res A) :
  match r with Ok a => Q a | Raise e => E e end ->
  settles job_id Q E (lift r).
Proof. now destruct r. Qed.

Lemma settles_act {A} job_id (Q : A -> Prop) E (m : World -> Res A * World) :
  (forall w, ~ In job_id (running_ids (jobs (snd (m w))))
             \/ match fst (m w) with Ok a => Q a | Raise e => E e end) ->
  settles job_id Q E (act m).
Proof.
  intros H w. destruct (H w) as [Hs|Hs]; [now left|right].
  now apply settles_lift.
Qed.

(** An atomic section after which the job is not running, whatever it
    returns. *)
Lemma settles_now {A} job_id (Q : A -> Prop) E (m : World -> Res A * World) :
  (forall w, ~ In job_id (running_ids (jobs (snd (m w))))) ->
  settles job_id Q E (act m).
Proof. intros H. apply settles_act. intros w. left. apply H. Qed.

(** An atomic section that only reads: the run goes on, or raises. *)
Lemma settles_later {A} job_id (Q : A -> Prop) (m : World -> Res A * World) :
  (forall a, Q a) -> settles job_id Q (fun _ => True) (act m).
Proof.
  intros H. apply settles_act. intros w. right.
  destruct (fst (m w)); auto.
Qed.

Lemma job_modify_settles job_id f w :
  (forall j, is_running (f j) = false) ->
  ~ In job_id (running_ids (jobs (snd (job_modify job_id f w)))).
Proof.
  intros Hf. unfold job_modify.
  destruct (Dict.get job_id (jobs w)) eqn:Hj; simpl.
  - now apply running_ids_update_settled.
  - now apply running_ids_absent.
Qed.

Lemma caught_block_settles job_id e t w :
  ~ In job_id (running_ids (jobs (snd (caught_block job_id e t w)))).
Proof.
  unfold caught_block, Dict.mem. simpl.
  destruct (Dict.get job_id (jobs w)) eqn:Hj; simpl.
  - now apply running_ids_update_settled.
  - now apply running_ids_absent.
Qed.

Lemma settles_stream job_id lines output_file
      (Q : option string -> Prop) :
  (forall o, Q o) ->
  settles job_id Q (fun _ => True) (stream job_id lines output_file).
Proof.
  intros HQ. revert output_file.
  induction lines as [|raw rest IH]; intros o; cbn [stream]; [apply HQ|].
  apply settles_bind, settles_lift.
  destruct (parse_line (PyStr.rstrip raw)) as [parsed|e]; [|exact I].
  apply settles_bind, settles_later. intros o'. apply IH.
Qed.

Lemma worker_iter_settles env job_id :
  settles_job job_id (_worker_iter env job_id).
Proof.
  unfold settles_job, _worker_iter.
  apply settles_try_finally, settles_try_catch.
  apply settles_mono with (Q := fun _ : unit => False) (E := fun _ => True);
    [auto| |].
  { intros e _ w. left. apply caught_block_settles. }
  unfold _run_job.
  apply settles_bind, settles_later. intros _.
  apply settles_bind, settles_later. intros data.
  apply settles_bind, settles_later. intros playlist_id.
  destruct (Dict.get playlist_id (playlists data)).
  2:{ apply settles_now. intros w. now apply job_modify_settles. }
  apply settles_bind, settles_later. intros _.
  apply settles_bind, settles_lift. destruct (mkdir env); [|exact I].
  apply settles_bind, settles_later. intros _.
  apply settles_try_catch.
  apply settles_mono with (Q := fun _ : unit => False) (E := fun _ => True);
    [auto| |].
  { intros e _. apply settles_now. intros w. now apply job_modify_settles. }
  apply settles_bind, settles_lift. destruct (popen env) as [proc|e]; [|exact I].
  apply settles_bind, settles_stream. intros output_file.
  destruct (Z.eqb (snd proc) 0).
  - apply settles_bind.
    assert (Hdone : forall o,
      settles job_id (fun _ : unit => False) (fun _ => True)
        (act (job_modify job_id (finish_done o (now_finished env))) ;;
         act (reconcile job_id o))).
    { intros o. apply settles_bind, settles_now. intros w.
      now apply job_modify_settles. }
    destruct (needs_scan env output_file); [|apply Hdone].
    apply settles_bind, settles_later. intros vid_id. apply Hdone.
  - apply settles_now. intros w. now apply job_modify_settles.
Qed.
(** *** The workers and the running jobs *)

Lemma busy_ids_split l1 t l2 :
  busy_ids (l1 ++ t :: l2)
  = busy_ids l1 ++ busy_ids [t] ++ busy_ids l2.
Proof.
  unfold busy_ids. rewrite flat_map_app. simpl. now rewrite app_nil_r.
Qed.

Lemma workers_split l1 t l2 :
  List.length (filter is_worker (l1 ++ t :: l2))
  = List.length (filter is_worker l1)
    + (if is_worker t then 1 else 0)
    + List.length (filter is_worker l2).
Proof.
  rewrite filter_app, length_app. simpl.
  destruct (is_worker t); simpl; lia.
Qed.

Lemma busy_ids_workers ts :
  List.length (busy_ids ts) <= List.length (filter is_worker ts).
Proof.
  induction ts as [|[|job_id p|job_id p] ts IH]; simpl; lia.
Qed.

Lemma worker_ok_mono w w' t :
  incl (running_ids (jobs w')) (running_ids (jobs w)) ->
  worker_ok w t -> worker_ok w' t.
Proof.
  intros H. destruct t as [|job_id p|job_id p]; simpl; auto.
  intros [Hs|[Ht [Hn|Hs]]]; auto.
  right. split; [exact Ht|]. left. intros Hi. apply Hn, H, Hi.
Qed.

Lemma worker_ok_mono_except k w w' t :
  incl (running_ids (jobs w')) (k :: running_ids (jobs w)) ->
  ~ In k (thread_ids t) ->
  worker_ok w t -> worker_ok w' t.
Proof.
  intros H Hk. destruct t as [|job_id p|job_id p]; simpl in *; auto.
  intros [Hs|[Ht [Hn|Hs]]]; auto.
  right. split; [exact Ht|]. left. intros Hi.
  apply H in Hi as [->|Hi]; auto.
Qed.

Lemma workers_inv_boot n f fault : workers_inv n (boot n f fault).
Proof.
  constructor; simpl.
  - apply pool_inv_boot.
  - intros x [].
  - induction n; simpl; constructor; simpl; auto.
  - induction n; simpl; auto.
Qed.

Lemma workers_inv_step n s s' : workers_inv n s -> step s s' -> workers_inv n s'.
Proof.
  intros [Hp Hr Ht Hn] Hstep.
  pose proof (pool_inv_step _ _ Hp Hstep) as Hp'.
  destruct Hp as [_ _ Hl Hto].
  destruct Hstep as
    [s job_id playlist_id video_id title quality audio_only Hfresh
    |w l1 l2 job_id p p' w' Hadv
    |s
    |s f fault
    |w l1 l2 job_id rest env Hq
    |w l1 l2 job_id p p' w' Hadv
    |w l1 l2 job_id]; cbn [world pool] in *.
  - (* a request draws an id *)
    constructor; cbn [world pool]; auto.
    constructor; [exact I | exact Ht].
  - (* add_job goes on *)
    assert (Ha : adding_ok job_id p).
    { apply Forall_app in Hto as [_ Hto]. now inversion Hto. }
    assert (Hincl : incl (running_ids (jobs w')) (running_ids (jobs w))).
    { destruct Ha as [(pl & vid & ti & qu & ao & ->)|[->| ->]];
        simpl in Hadv; [| |discriminate]; injection Hadv as <- <-; simpl.
      - unfold _update_queue_positions. rewrite running_ids_recomputed.
        now apply running_ids_set_queued.
      - apply incl_refl. }
    constructor; cbn [world pool]; auto.
    + rewrite busy_ids_split in *. simpl in *.
      eapply incl_tran; eassumption.
    + eapply Forall_swap_middle; [exact Ht| |]; simpl; auto.
      intros x _. now apply worker_ok_mono.
    + rewrite workers_split in *. exact Hn.
  - (* clearing *)
    destruct (jobs_clear_spec (world s)) as [Hj _].
    assert (Hincl : incl (running_ids (jobs (snd (jobs_clear (world s)))))
                         (running_ids (jobs (world s)))).
    { rewrite Hj. apply running_ids_filter. }
    constructor; cbn [world pool]; auto.
    + eapply incl_tran; eassumption.
    + eapply Forall_impl; [|exact Ht]. intros t. now apply worker_ok_mono.
  - (* another writer of the data file *)
    constructor; cbn [world pool]; auto.
  - (* a worker dequeues *)
    constructor; cbn [world pool]; auto.
    + rewrite busy_ids_split in *. simpl in *.
      intros x Hx. apply Hr in Hx. apply in_or_app.
      apply in_app_or in Hx as [Hx|Hx]; [now left | right; now right].
    + eapply Forall_swap_middle; [exact Ht| |].
      * intros x _ Hx. exact Hx.
      * intros _. left. split;
          [apply worker_iter_tame | apply worker_iter_settles].
    + rewrite workers_split in *. exact Hn.
  - (* a worker runs one atomic section *)
    assert (Hw : worker_ok w (Busy job_id p)).
    { apply Forall_app in Ht as [_ Ht]. now inversion Ht. }
    destruct p as [a|e|X m k]; simpl in Hadv; try discriminate.
    destruct (m w) as [x w1] eqn:Hm. injection Hadv as <- <-.
    assert (Hw1 : w1 = snd (m w)) by now rewrite Hm.
    assert (Hx : x = fst (m w)) by now rewrite Hm.
    assert (Hg : incl (running_ids (jobs w1)) (job_id :: running_ids (jobs w))
                 /\ worker_ok w1 (Busy job_id (k x))).
    { destruct Hw as [[[Hi Hk] Hs]|[[Hi Hk] Hs]].
      - split; [rewrite Hw1; apply Hi|]. right. split; [apply Hk|].
        specialize (Hs w). rewrite <- Hw1, <- Hx in Hs. exact Hs.
      - split; [rewrite Hw1; apply incl_tl, Hi|]. right. split; [apply Hk|].
        destruct Hs as [Hs|Hs].
        + left. intros Hin. apply Hs. apply (Hi w). now rewrite <- Hw1.
        + specialize (Hs w). rewrite <- Hw1, <- Hx in Hs. exact Hs. }
    destruct Hg as [Hi Hk].
    constructor; cbn [world pool]; auto.
    + rewrite busy_ids_split in *. simpl in *.
      intros i Hin. apply Hi in Hin as [<-|Hin]; [|now apply Hr].
      apply in_or_app. right. now left.
    + eapply Forall_swap_middle; [exact Ht| |].
      * intros t Hin. apply (worker_ok_mono_except job_id); [exact Hi|].
        eapply others_hold_other_ids; eauto.
      * intros _. exact Hk.
    + rewrite workers_split in *. exact Hn.
  - (* a worker goes back to job_queue.get *)
    assert (Hw : worker_ok w (Busy job_id (Ret tt))).
    { apply Forall_app in Ht as [_ Ht]. now inversion Ht. }
    assert (Hs : ~ In job_id (running_ids (jobs w))).
    { destruct Hw as [[[] _]|[_ [Hs|[]]]]. exact Hs. }
    constructor; cbn [world pool]; auto.
    + rewrite busy_ids_split in *. simpl in *.
      intros i Hin. specialize (Hr i Hin). apply in_or_app.
      apply in_app_or in Hr as [Hr|[<-|Hr]]; auto. contradiction.
    + eapply Forall_swap_middle; [exact Ht| |]; simpl; auto.
    + rewrite workers_split in *. exact Hn.
Qed.

Lemma workers_inv_reachable n f fault s :
  reachable (boot n f fault) s -> workers_inv n s.
Proof.
  intros Hr. induction Hr as [|s s' _ IH Hstep];
    [apply workers_inv_boot|].
  eapply workers_inv_step; eauto.
Qed.

Lemma active_jobs_running_ids w :
  active_jobs w = List.length (running_ids (jobs w)).
Proof.
  unfold active_jobs, running_ids, Dict.values.
  rewrite length_map. generalize (jobs w) as js.
  induction js as [|[k j] js IH]; simpl; [reflexivity|].
  destruct (is_running j); simpl; now rewrite IH.
Qed.

(** X19.  With [n] workers started by [start_thread_pool n], in every state
    the process can reach -- whatever requests add jobs, clear the table or
    touch the data file, and however the threads interleave -- the count
    of running jobs that [GET /api/status] reports as ["active_jobs"] is
    at most [n]. *)
Theorem active_jobs_at_most_workers n f fault s :
  reachable (boot n f fault) s -> active_jobs (world s) <= n.
Proof.
  intros Hr. apply workers_inv_reachable in Hr.
  destruct Hr as [Hp Hi _ Hn].
  rewrite active_jobs_running_ids, <- Hn.
  eapply Nat.le_trans; [|apply busy_ids_workers].
  apply NoDup_incl_length; [|exact Hi].
  apply running_ids_nodup, (inv_keys _ Hp).
Qed.

Lemma active_jobs_one_worker_one_running :
  exists s,
    reachable (boot 1 (File (Ok Scenario.catalog)) None) s
    /\ 1 <= active_jobs (world s) <= 1.
Proof.
  pose proof (reach_refl (boot 1 (File (Ok Scenario.catalog)) None)) as H.
  eapply reach_step in H;
    [|apply (step_request_add _ "j1" "p1" "b" "Title" "best" false);
      intros []].
  eapply reach_step in H; [|eapply (step_adding _ []); reflexivity].
  eapply reach_step in H; [|eapply (step_adding _ []); reflexivity].
  eapply reach_step in H;
    [|apply (step_request_add _ "j2" "p1" "a" "Title" "720p" true);
      intros [H'|[]]; discriminate H'].
  eapply reach_step in H; [|eapply (step_adding _ []); reflexivity].
  eapply reach_step in H; [|eapply (step_adding _ []); reflexivity].
  eapply reach_step in H;
    [|eapply (step_dequeue _ [_; _] [] "j1" _ (Scenario.run_env [] 0));
      reflexivity].
  eapply reach_step in H; [|eapply (step_worker _ [_; _] []); reflexivity].
  eexists. split; [exact H|]. split.
  - vm_compute. apply le_n.
  - exact (active_jobs_at_most_workers _ _ _ _ H).
Defined.
(** ** Adding a playlist, removing a video *)

(** One request of [POST /api/video/add] that finds its playlist and whose
    fetch and write succeed. *)
Lemma video_add_exec k url run w d pl title remote :
  load_data (data_file w) = Ok d ->
  Dict.get k (playlists d) = Some pl ->
  fetch_playlist_info_run run = Ok (title, remote) ->
  write_fault w = None ->
  exec (video_add_handler (Some k) (UrlStr url) run) w
  = (Ok (RespAdded (new_videos (pl_videos pl) remote)),
     with_data_file
       (File (Ok (with_playlists
                    (Dict.set k
                       (with_videos
                          (pl_videos pl ++ new_videos (pl_videos pl) remote) pl)
                       (playlists d)) d))) w).
Proof.
  intros Hd Hpl Hf Hw. unfold video_add_handler.
  rewrite exec_bind, exec_lift. cbn [url_of_body]. cbv beta iota.
  rewrite exec_bind, exec_act. unfold find_playlist at 1. rewrite Hd, Hpl.
  cbv beta iota. rewrite exec_try_catch, exec_bind, exec_lift, Hf.
  cbv beta iota zeta. cbn [fst snd]. rewrite exec_bind, exec_act.
  unfold store_playlist, save_data. now rewrite Hd, Hw.
Qed.

(** X7.  [POST /api/video/add] on a playlist of the catalog, with a string
    url, a fetch that succeeds and a data file that can be read and
    written: the answer lists, in the remote's order, exactly the fetched
    videos whose id the playlist did not hold; the playlist is stored with
    its own videos in place and those appended; the other playlists and
    the jobs are as before; and the same request made again answers with
    no video and stores the same list. *)
Theorem video_add_appends_unknown k url run w d pl title remote :
  load_data (data_file w) = Ok d ->
  Dict.get k (playlists d) = Some pl ->
  fetch_playlist_info_run run = Ok (title, remote) ->
  write_fault w = None ->
  let added :=
    filter (fun v => negb (existsb (String.eqb (v_id v))
                                   (map v_id (pl_videos pl)))) remote in
  let stored := with_videos (pl_videos pl ++ added) pl in
  let r := exec (video_add_handler (Some k) (UrlStr url) run) w in
  let r' := exec (video_add_handler (Some k) (UrlStr url) run) (snd r) in
  fst r = Ok (RespAdded added)
  /\ (forall v, In v added <->
                In v remote /\ ~ In (v_id v) (map v_id (pl_videos pl)))
  /\ jobs (snd r) = jobs w
  /\ (exists d',
        data_file (snd r) = File (Ok d')
        /\ Dict.get k (playlists d') = Some stored
        /\ forall k', k' <> k ->
                      Dict.get k' (playlists d') = Dict.get k' (playlists d))
  /\ fst r' = Ok (RespAdded [])
  /\ exists d'',
        data_file (snd r') = File (Ok d'')
        /\ Dict.get k (playlists d'') = Some stored.
Proof.
  intros Hd Hpl Hf Hw added stored r r'.
  change added with (new_videos (pl_videos pl) remote) in *.
  assert (Hr : r = (Ok (RespAdded added),
                    with_data_file
                      (File (Ok (with_playlists
                                   (Dict.set k stored (playlists d)) d))) w))
    by (apply video_add_exec with (title := title); assumption).
  assert (Hr' : r' = (Ok (RespAdded (new_videos (pl_videos stored) remote)),
                      with_data_file
                        (File (Ok (with_playlists
                           (Dict.set k
                              (with_videos
                                 (pl_videos stored
                                  ++ new_videos (pl_videos stored) remote)
                                 stored)
                              (Dict.set k stored (playlists d)))
                           (with_playlists
                              (Dict.set k stored (playlists d)) d))))
                        (snd r))).
  { subst r'. rewrite Hr. cbn [snd].
    apply (video_add_exec k url run _
             (with_playlists (Dict.set k stored (playlists d)) d)
             stored title remote);
      [reflexivity | | exact Hf | exact Hw].
    cbn [playlists with_playlists]. apply get_set_same. }
  assert (Hagain : new_videos (pl_videos stored) remote = [])
    by apply new_videos_again.
  rewrite Hagain, app_nil_r in Hr'.
  rewrite Hr'. rewrite Hr. cbn [fst snd jobs data_file with_data_file].
  split; [reflexivity|]. split; [intros v; apply new_videos_unknown|].
  split; [reflexivity|]. split; [|split; [reflexivity|]].
  - eexists. split; [reflexivity|]. cbn [playlists with_playlists]. split.
    + apply get_set_same.
    + intros k' Hk. now apply get_set_other.
  - eexists. split; [reflexivity|]. cbn [playlists with_playlists].
    rewrite get_set_same. reflexivity.
Qed.

Lemma video_add_to_sample_playlist :
  let run := Ok Sample.fetched in
  let r := exec (video_add_handler (Some "p1") (UrlStr "https://youtu.be/c") run)
                (Scenario.queued_world None) in
  fst r = Ok (RespAdded [Scenario.video "c"])
  /\ exists d',
      data_file (snd r) = File (Ok d')
      /\ option_map (fun pl => map v_id (pl_videos pl))
                    (Dict.get "p1" (playlists d')) = Some ["a"; "b"; "c"].
Proof.
  destruct (video_add_appends_unknown "p1" "https://youtu.be/c"
              (Ok Sample.fetched) (Scenario.queued_world None)
              Scenario.catalog Scenario.playlist "Mix"
              [Scenario.video "a"; Scenario.video "c"]
              eq_refl eq_refl eq_refl eq_refl)
    as (Hr & _ & _ & (d' & Hd & Hk & _) & _).
  cbv zeta. split; [exact Hr|]. exists d'. split; [exact Hd|].
  rewrite Hk. vm_compute. reflexivity.
Defined.




Lemma remove_video_spec video_id vs :
  (forall i, video_id = Some i -> ~ In i (map v_id (remove_video video_id vs)))
  /\ (forall v, In v vs -> Some (v_id v) <> video_id ->
                In v (remove_video video_id vs))
  /\ (video_id = None -> remove_video video_id vs = vs).
Proof.
  unfold remove_video. split; [|split].
  - intros i -> Hin. apply in_map_iff in Hin as (v & Hv & Hin).
    apply filter_In in Hin as [_ Hne]. rewrite Hv, String.eqb_refl in Hne.
    discriminate.
  - intros v Hin Hne. apply filter_In. split; [exact Hin|].
    destruct video_id as [i|]; [|reflexivity].
    destruct (String.eqb_spec (v_id v) i); [congruence | reflexivity].
  - intros ->. induction vs as [|v vs IH]; simpl; [reflexivity|].
    now rewrite IH.
Qed.

(** X21.  [DELETE /api/video/remove] on a playlist of the catalog answers
    ok, also when no video has the id; afterwards the playlist holds, in
    their order, exactly its videos with another id (every video with the
    id is gone, not only the first), all of them when the body names no
    video; the other playlists and the jobs are as before. *)
Theorem video_remove_drops_every_match k video_id w d pl :
  load_data (data_file w) = Ok d ->
  write_fault w = None ->
  Dict.get k (playlists d) = Some pl ->
  let r := video_remove_block (Some k) video_id w in
  fst r = Ok RespOk
  /\ jobs (snd r) = jobs w
  /\ exists d',
      data_file (snd r) = File (Ok d')
      /\ Dict.get k (playlists d')
         = Some (with_videos (remove_video video_id (pl_videos pl)) pl)
      /\ (forall i, video_id = Some i ->
                    ~ In i (map v_id (remove_video video_id (pl_videos pl))))
      /\ (forall v, In v (pl_videos pl) -> Some (v_id v) <> video_id ->
                    In v (remove_video video_id (pl_videos pl)))
      /\ (video_id = None -> remove_video video_id (pl_videos pl) = pl_videos pl)
      /\ forall k', k' <> k ->
                    Dict.get k' (playlists d') = Dict.get k' (playlists d).
Proof.
  intros Hd Hw Hpl r. subst r.
  unfold video_remove_block, save_data, Dict.mem. rewrite Hd, Hpl, Hw.
  cbn [fst snd jobs data_file with_data_file].
  split; [reflexivity|]. split; [reflexivity|].
  eexists. split; [reflexivity|]. cbn [playlists with_playlists].
  destruct (remove_video_spec video_id (pl_videos pl)) as (H1 & H2 & H3).
  repeat split; auto.
  - now rewrite get_update_same, Hpl.
  - intros k' Hk. now apply get_update_other.
Qed.

Lemma video_remove_from_sample_playlist :
  let r := video_remove_block (Some "p1") (Some "a")
                              (Scenario.queued_world None) in
  fst r = Ok RespOk
  /\ exists d',
      data_file (snd r) = File (Ok d')
      /\ option_map (fun pl => map v_id (pl_videos pl))
                    (Dict.get "p1" (playlists d')) = Some ["b"].
Proof.
  destruct (video_remove_drops_every_match "p1" (Some "a")
              (Scenario.queued_world None) Scenario.catalog Scenario.playlist
              eq_refl eq_refl eq_refl)
    as (Hr & _ & d' & Hd & Hk & _).
  cbv zeta. split; [exact Hr|]. exists d'. split; [exact Hd|].
  rewrite Hk. vm_compute. reflexivity.
Defined.

(** X22.  A video removed from a playlist comes back with the next sync
    when the remote still lists it, as the remote reports it: whatever the
    playlist knew about its download is not restored. *)
Theorem removed_video_returns_on_sync i old remote v :
  In v remote -> v_id v = i ->
  In v (sync_videos (remove_video (Some i) old) remote).
Proof.
  intros Hin Hid. unfold sync_videos. apply in_map_iff. exists v.
  split; [|exact Hin].
  destruct (Dict.get (v_id v) (index_by_id (remove_video (Some i) old)))
    as [e|] eqn:He; [|reflexivity].
  apply index_by_id_some in He as [Hin' Hk].
  destruct (remove_video_spec (Some i) old) as (H & _).
  exfalso. apply (H i eq_refl). apply in_map_iff. exists e.
  split; [congruence | exact Hin'].
Qed.

Lemma removed_video_returns_without_download :
  In (Scenario.video "b")
     (sync_videos (remove_video (Some "b") Sample.kept)
                  (pl_videos Scenario.playlist)).
Proof.
  apply (removed_video_returns_on_sync "b").
  - simpl. auto.
  - reflexivity.
Defined.
(** ** Serving a file *)

(** *** The two loops *)

Lemma firstn_split {A} a b (l : list A) :
  firstn (a + b) l = firstn a l ++ firstn b (skipn a l).
Proof.
  revert l. induction a as [|a IH]; intros l; [reflexivity|].
  destruct l as [|x l]; simpl; [now rewrite firstn_nil|].
  now rewrite IH.
Qed.

Lemma send_range_sends fuel rest remaining :
  List.length rest < fuel ->
  send_range fuel rest remaining = Some (range_sent rest remaining).
Proof.
  revert rest remaining.
  induction fuel as [|fuel IH]; intros rest remaining Hf; [lia|].
  cbn [send_range]. unfold range_sent.
  destruct (Z.eqb_spec remaining 0) as [->|Hne]; [reflexivity|].
  unfold read, read_bytes.
  destruct (Z.ltb_spec remaining (-1)) as [Hlow|Hhigh].
  - (* a read length below -1 *)
    assert (Hm : (Z.min 65536 remaining <? -1)%Z = true)
      by (apply Z.ltb_lt; lia).
    now rewrite Hm.
  - assert (Hm : (Z.min 65536 remaining <? -1)%Z = false)
      by (apply Z.ltb_ge; lia).
    rewrite Hm.
    destruct (Z.ltb_spec remaining 0) as [Hneg|Hpos].
    + (* -1: everything that is left, then a read length below -1 *)
      assert (Hm0 : (Z.min 65536 remaining <? 0)%Z = true)
        by (apply Z.ltb_lt; lia).
      rewrite Hm0. destruct rest as [|x rest]; [reflexivity|].
      rewrite IH by (simpl in *; lia). unfold range_sent.
      assert (Hn : (remaining - Z.of_nat (List.length (x :: rest)) <? -1)%Z
                   = true) by (apply Z.ltb_lt; simpl List.length; lia).
      rewrite Hn. now rewrite app_nil_r.
    + assert (Hm0 : (Z.min 65536 remaining <? 0)%Z = false)
        by (apply Z.ltb_ge; lia).
      rewrite Hm0.
      set (n := Z.to_nat (Z.min 65536 remaining)).
      assert (Hn : 0 < n <= Z.to_nat remaining) by (subst n; lia).
      destruct (firstn n rest) as [|x buf] eqn:Hbuf.
      * destruct rest as [|y rest]; [now rewrite firstn_nil|].
        destruct n; [lia | discriminate].
      * rewrite <- Hbuf.
        assert (Hlen : List.length (firstn n rest)
                       = Nat.min n (List.length rest)) by apply length_firstn.
        assert (Hpos' : 0 < List.length (firstn n rest))
          by (rewrite Hbuf; simpl; lia).
        rewrite IH by (rewrite length_skipn; lia). unfold range_sent.
        assert (Hr1 : (remaining - Z.of_nat (List.length (firstn n rest))
                       <? -1)%Z = false) by (apply Z.ltb_ge; lia).
        assert (Hr0 : (remaining - Z.of_nat (List.length (firstn n rest))
                       <? 0)%Z = false) by (apply Z.ltb_ge; lia).
        rewrite Hr1, Hr0. do 2 f_equal.
        destruct (Nat.le_gt_cases n (List.length rest)) as [Hle|Hgt].
        -- replace (Z.to_nat (remaining
                               - Z.of_nat (List.length (firstn n rest))))
             with (Z.to_nat remaining - n) by lia.
           replace (Z.to_nat remaining) with (n + (Z.to_nat remaining - n))
             at 2 by lia.
           now rewrite firstn_split.
        -- rewrite (skipn_all2 rest) by lia. rewrite firstn_nil, app_nil_r.
           rewrite !firstn_all2 by lia. reflexivity.
Qed.

Lemma send_all_sends fuel rest :
  List.length rest < fuel -> send_all fuel rest = Some rest.
Proof.
  revert rest. induction fuel as [|fuel IH]; intros rest Hf; [lia|].
  cbn [send_all]. unfold read_bytes.
  set (n := Z.to_nat 65536).
  assert (Hn : 0 < n) by (subst n; lia).
  destruct (firstn n rest) as [|x buf] eqn:Hbuf.
  - destruct rest as [|y rest]; [reflexivity|].
    destruct n; [lia | discriminate].
  - rewrite <- Hbuf.
    assert (Hpos : 0 < List.length (firstn n rest))
      by (rewrite Hbuf; simpl; lia).
    rewrite length_firstn in Hpos.
    rewrite IH by (rewrite length_skipn; lia).
    cbn [option_map]. now rewrite firstn_skipn.
Qed.

(** *** The range *)

Lemma int_digits_nonneg s acc n v m rest :
  (0 <= acc)%Z -> Py.int_digits acc n s = (v, m, rest) -> (0 <= v)%Z.
Proof.
  assert (H : forall k s acc n,
             String.length s <= k -> (0 <= acc)%Z ->
             Py.int_digits acc n s = (v, m, rest) -> (0 <= v)%Z).
  { clear. induction k as [|k IH]; intros s acc n Hk Hacc;
      (destruct s as [|c s]; cbn [Py.int_digits];
       [intros H; injection H as <- _ _; exact Hacc|]);
      simpl in Hk; [lia|].
    destruct (PyStr.isdigit c).
    - apply IH; lia.
    - destruct (Ascii.eqb c "_");
        [|intros H; injection H as <- _ _; exact Hacc].
      destruct s as [|c' s]; [intros H; injection H as <- _ _; exact Hacc|].
      destruct (PyStr.isdigit c');
        [|intros H; injection H as <- _ _; exact Hacc].
      apply IH; [simpl in Hk; lia | lia]. }
  apply (H (String.length s)). lia.
Qed.

Lemma int_unsigned_nonneg max s v :
  Py.int_unsigned max s = Some v -> (0 <= v)%Z.
Proof.
  unfold Py.int_unsigned. destruct s as [|c s]; [discriminate|].
  destruct (PyStr.isdigit c); [|discriminate].
  destruct (Py.int_digits _ 1 s) as [[v' n] rest] eqn:Hd.
  destruct (PyStr.lstrip_by Py.int_space rest); [|discriminate].
  destruct (_ && _); [discriminate|]. intros H. injection H as <-.
  eapply int_digits_nonneg; [|exact Hd]. lia.
Qed.

Lemma lstrip_by_keeps p c s :
  In c (list_ascii_of_string (PyStr.lstrip_by p s)) ->
  In c (list_ascii_of_string s).
Proof.
  induction s as [|a s IH]; simpl; [auto|].
  destruct (p a); simpl; auto.
Qed.

(** The only way to a negative [int] is a minus sign. *)
Lemma int_nonneg_without_minus max s v :
  Py.int max s = Some v ->
  ~ In "-"%char (list_ascii_of_string s) -> (0 <= v)%Z.
Proof.
  unfold Py.int. intros H Hm.
  destruct (PyStr.lstrip_by Py.int_space s) as [|c s'] eqn:Hs; [discriminate|].
  destruct (Ascii.eqb c "+"); [now apply int_unsigned_nonneg in H|].
  destruct (Ascii.eqb_spec c "-") as [->|_];
    [|now apply int_unsigned_nonneg in H].
  exfalso. apply Hm. apply (lstrip_by_keeps Py.int_space). rewrite Hs.
  now left.
Qed.

Lemma split_parts_without_sep sep s :
  Forall (fun p => ~ In sep (list_ascii_of_string p)) (Py.split sep s).
Proof.
  induction s as [|c s IH]; cbn [Py.split].
  - constructor; [intros []|constructor].
  - destruct (Ascii.eqb_spec c sep) as [->|Hne].
    + constructor; [intros []|exact IH].
    + destruct (Py.split sep s) as [|p ps].
      * constructor; [|constructor]. simpl. intros [H|[]]. congruence.
      * inversion IH as [|? ? Hp Hps]; subst. constructor; [|exact Hps].
        simpl. intros [H|H]; [congruence | contradiction].
Qed.

Lemma parse_range_bounds max h size start end_ :
  parse_range max h size = Some (start, end_) ->
  (0 <= start)%Z /\ (end_ <= size - 1)%Z /\ (0 <= size -> -1 <= end_)%Z.
Proof.
  unfold parse_range.
  pose proof (split_parts_without_sep "-"
                (Py.replace "bytes=" "" (PyStr.strip h))) as Hparts.
  destruct (Py.split "-" _) as [|start_str [|end_str [|? ?]]];
    try discriminate.
  inversion Hparts as [|? ? Hs Hrest]; subst.
  inversion Hrest as [|? ? He _]; subst.
  destruct (if PyStr.nonempty start_str then Py.int max start_str else Some 0%Z)
    as [st|] eqn:Hst; [|discriminate].
  destruct (if PyStr.nonempty end_str then Py.int max end_str
            else Some (size - 1)%Z) as [en|] eqn:Hen; [|discriminate].
  intros H. injection H as <- <-.
  assert (H0 : (0 <= st)%Z).
  { destruct (PyStr.nonempty start_str).
    - eapply int_nonneg_without_minus; eauto.
    - injection Hst as <-. lia. }
  assert (H1 : (0 <= size -> -1 <= en)%Z).
  { destruct (PyStr.nonempty end_str).
    - intros _. apply int_nonneg_without_minus in Hen; [lia | exact He].
    - injection Hen as <-. lia. }
  lia.
Qed.

Lemma serve_file_parsed max fuel h file start end_ :
  PyStr.nonempty h = true ->
  List.length file < fuel ->
  parse_range max h (Z.of_nat (List.length file)) = Some (start, end_) ->
  let size := Z.of_nat (List.length file) in
  let chunk := (end_ - start + 1)%Z in
  _serve_file max fuel (Some h) file
  = Some (Ok match range_sent (skipn (Z.to_nat start) file) chunk with
             | (body, Ok _) => Status206 start end_ size chunk body
             | (body, Raise e) => Status206Raised start end_ size chunk body e
             end).
Proof.
  intros Hh Hf Hp size chunk. unfold _serve_file. rewrite Hh, Hp.
  apply parse_range_bounds in Hp as (H0 & _).
  cbv zeta. unfold seek.
  assert (Hs : (start <? 0)%Z = false) by (apply Z.ltb_ge; lia).
  rewrite Hs.
  rewrite send_range_sends by (rewrite length_skipn; lia).
  fold size. fold chunk.
  now destruct (range_sent (skipn (Z.to_nat start) file) chunk) as [body [[]|e]].
Qed.

(** The four ways the loop of a 206 answer goes. *)
Lemma range_sent_cases rest chunk :
  ((0 <= chunk)%Z ->
     range_sent rest chunk = (firstn (Z.to_nat chunk) rest, Ok tt))
  /\ (chunk = (-1)%Z -> rest = [] -> range_sent rest chunk = ([], Ok tt))
  /\ (chunk = (-1)%Z -> rest <> [] ->
      range_sent rest chunk
      = (rest, Raise (ValueError "read length must be non-negative or -1")))
  /\ ((chunk < -1)%Z ->
      range_sent rest chunk
      = ([], Raise (ValueError "read length must be non-negative or -1"))).
Proof.
  unfold range_sent. repeat split.
  - intros H. assert (H1 : (chunk <? -1)%Z = false) by (apply Z.ltb_ge; lia).
    assert (H0 : (chunk <? 0)%Z = false) by (apply Z.ltb_ge; lia).
    now rewrite H1, H0.
  - intros -> ->. reflexivity.
  - intros -> Hr. destruct rest; [congruence | reflexivity].
  - intros H. assert (H1 : (chunk <? -1)%Z = true) by (apply Z.ltb_lt; lia).
    now rewrite H1.
Qed.



(** X24.  Without a [Range] header, or with an empty one, the answer is 200
    with the size of the file as [Content-Length] and the whole file, byte
    for byte, as body. *)
Theorem serve_file_whole max fuel h file :
  h = None \/ h = Some "" ->
  List.length file < fuel ->
  _serve_file max fuel h file
  = Some (Ok (Status200 (Z.of_nat (List.length file)) file)).
Proof.
  intros [-> | ->] Hf; unfold _serve_file; cbn [PyStr.nonempty];
    now rewrite send_all_sends.
Qed.

Lemma serve_file_whole_sample :
  _serve_file 4300 4 None [Byte.x00; Byte.x01; Byte.x02]
  = Some (Ok (Status200 3 [Byte.x00; Byte.x01; Byte.x02])).
Proof.
  apply (serve_file_whole 4300 4 None [Byte.x00; Byte.x01; Byte.x02]).
  - now left.
  - simpl. lia.
Defined.

(** *** Ranges written with digits *)

Lemma all_chars_app p a b :
  all_chars p (a ++ b)%string = all_chars p a && all_chars p b.
Proof.
  induction a as [|c a IH]; simpl; [reflexivity|].
  now rewrite IH, andb_assoc.
Qed.

Lemma all_chars_impl (p q : ascii -> bool) s :
  (forall c, p c = true -> q c = true) ->
  all_chars p s = true -> all_chars q s = true.
Proof.
  intros Hpq. induction s as [|c s IH]; simpl; [reflexivity|].
  intros H. apply andb_prop in H as [Hc Hs]. now rewrite (Hpq c Hc), IH.
Qed.

Lemma digit_is_plain c :
  PyStr.isdigit c = true ->
  negb (PyStr.isspace c) && negb (Ascii.eqb c "b") && negb (Ascii.eqb c "-")
  = true.
Proof.
  destruct c as [[] [] [] [] [] [] [] []]; vm_compute; congruence.
Qed.

Lemma rstrip_by_plain p s :
  all_chars (fun c => negb (p c)) s = true -> PyStr.rstrip_by p s = s.
Proof.
  induction s as [|c s IH]; simpl; [reflexivity|].
  intros H. apply andb_prop in H as [Hc Hs]. rewrite (IH Hs).
  apply negb_true_iff in Hc. rewrite Hc. now destruct s.
Qed.

Lemma strip_plain s :
  all_chars (fun c => negb (PyStr.isspace c)) s = true -> PyStr.strip s = s.
Proof.
  intros H. unfold PyStr.strip. rewrite (rstrip_by_plain _ _ H).
  destruct s as [|c s]; [reflexivity|]. simpl in *.
  apply andb_prop in H as [Hc _]. apply negb_true_iff in Hc. now rewrite Hc.
Qed.

Lemma replace_without_first_char ch old new s :
  all_chars (fun c => negb (Ascii.eqb c ch)) s = true ->
  Py.replace_from 0 (String ch old) new s = s.
Proof.
  induction s as [|c s IH]; [reflexivity|].
  cbn [all_chars Py.replace_from PyStr.startswith].
  intros H. apply andb_prop in H as [Hc Hs]. apply negb_true_iff in Hc.
  rewrite Ascii.eqb_sym, Hc. cbn [andb]. now rewrite (IH Hs).
Qed.

Lemma split_plain sep s :
  all_chars (fun c => negb (Ascii.eqb c sep)) s = true ->
  Py.split sep s = [s].
Proof.
  induction s as [|c s IH]; [reflexivity|]. cbn [all_chars Py.split].
  intros H. apply andb_prop in H as [Hc Hs]. apply negb_true_iff in Hc.
  now rewrite Hc, (IH Hs).
Qed.

Lemma split_at_first sep a b :
  all_chars (fun c => negb (Ascii.eqb c sep)) a = true ->
  Py.split sep (a ++ String sep b) = a :: Py.split sep b.
Proof.
  induction a as [|c a IH]; cbn [all_chars Py.split String.append].
  - intros _. now rewrite Ascii.eqb_refl.
  - intros H. apply andb_prop in H as [Hc Hs]. apply negb_true_iff in Hc.
    now rewrite Hc, (IH Hs).
Qed.

Lemma range_of_digit_strings max a b size :
  all_chars PyStr.isdigit a = true -> all_chars PyStr.isdigit b = true ->
  parse_range max ("bytes=" ++ a ++ "-" ++ b)%string size
  = match (if PyStr.nonempty a then Py.int max a else Some 0%Z),
          (if PyStr.nonempty b then Py.int max b else Some (size - 1)%Z) with
    | Some x, Some y => Some (x, Z.min y (size - 1))
    | _, _ => None
    end.
Proof.
  intros Ha Hb.
  assert (Hplain : forall (q : ascii -> bool) s,
             (forall c, PyStr.isdigit c = true -> q c = true) ->
             all_chars PyStr.isdigit s = true -> all_chars q s = true)
    by (intros q s Hq; now apply all_chars_impl).
  assert (Hd : forall c, PyStr.isdigit c = true ->
                         negb (PyStr.isspace c) = true
                         /\ negb (Ascii.eqb c "b") = true
                         /\ negb (Ascii.eqb c "-") = true).
  { intros c Hc. apply digit_is_plain in Hc.
    apply andb_prop in Hc as [Hc H3]. apply andb_prop in Hc as [H1 H2]. auto. }
  unfold parse_range.
  rewrite strip_plain.
  2:{ rewrite !all_chars_app.
      rewrite (Hplain _ a (fun c Hc => proj1 (Hd c Hc)) Ha).
      rewrite (Hplain _ b (fun c Hc => proj1 (Hd c Hc)) Hb). reflexivity. }
  unfold Py.replace.
  change (Py.replace_from 0 "bytes=" "" ("bytes=" ++ a ++ "-" ++ b)%string)
    with (Py.replace_from 0 "bytes=" "" (a ++ "-" ++ b)%string).
  rewrite replace_without_first_char.
  2:{ rewrite !all_chars_app.
      rewrite (Hplain _ a (fun c Hc => proj1 (proj2 (Hd c Hc))) Ha).
      rewrite (Hplain _ b (fun c Hc => proj1 (proj2 (Hd c Hc))) Hb).
      reflexivity. }
  change (a ++ "-" ++ b)%string with (a ++ String "-" b)%string.
  rewrite split_at_first
    by exact (Hplain _ a (fun c Hc => proj2 (proj2 (Hd c Hc))) Ha).
  rewrite split_plain
    by exact (Hplain _ b (fun c Hc => proj2 (proj2 (Hd c Hc))) Hb).
  destruct (if PyStr.nonempty a then Py.int max a else Some 0%Z);
    [|reflexivity].
  now destruct (if PyStr.nonempty b then Py.int max b else Some (size - 1)%Z).
Qed.



(** X26.  A suffix range, [bytes=-N], is not served as the last [N] bytes:
    when [N] converts, the answer starts at byte 0 and its body is the
    first [N + 1] bytes of the file, or the whole file when that is
    shorter. *)
Theorem suffix_range_served_from_start max fuel b y file :
  all_chars PyStr.isdigit b = true ->
  Py.int max b = Some y ->
  List.length file < fuel ->
  let size := Z.of_nat (List.length file) in
  let end_ := Z.min y (size - 1) in
  _serve_file max fuel (Some ("bytes=-" ++ b)%string) file
  = Some (Ok (Status206 0 end_ size (end_ + 1)
                        (firstn (Z.to_nat (y + 1)) file))).
Proof.
  intros Hb Hy Hf size end_.
  assert (Hy0 : (0 <= y)%Z).
  { eapply int_nonneg_without_minus; [exact Hy|].
    clear - Hb. induction b as [|c b IH]; simpl in *; [tauto|].
    apply andb_prop in Hb as [Hc Hb]. intros [->|H]; [discriminate Hc|].
    now apply IH. }
  rewrite (serve_file_parsed max fuel _ file 0 end_); [|reflexivity|exact Hf|].
  - cbv zeta. cbn [Z.to_nat skipn].
    destruct (range_sent_cases file (end_ - 0 + 1)) as (C1 & _).
    rewrite C1 by lia.
    replace (end_ - 0 + 1)%Z with (end_ + 1)%Z by lia.
    do 3 f_equal.
    destruct (Z.le_gt_cases y (size - 1)) as [Hle|Hgt].
    + now replace end_ with y by lia.
    + rewrite !firstn_all2 by lia. reflexivity.
  - change ("bytes=-" ++ b)%string with ("bytes=" ++ "" ++ "-" ++ b)%string.
    rewrite (range_of_digit_strings max "" b _ eq_refl Hb).
    assert (Hnb : PyStr.nonempty b = true)
      by (destruct b; [discriminate Hy | reflexivity]).
    cbn [PyStr.nonempty]. now rewrite Hnb, Hy.
Qed.

Lemma suffix_range_last_two_bytes :
  _serve_file 4300 6 (Some "bytes=-2")
              [Byte.x00; Byte.x01; Byte.x02; Byte.x03; Byte.x04]
  = Some (Ok (Status206 0 2 5 3 [Byte.x00; Byte.x01; Byte.x02])).
Proof.
  exact (suffix_range_served_from_start 4300 6 "2" 2
           [Byte.x00; Byte.x01; Byte.x02; Byte.x03; Byte.x04]
           eq_refl eq_refl ltac:(simpl; lia)).
Defined.
(** ** [POST /api/download] *)

Lemma add_job_exec job_id playlist_id video_id title quality audio_only w :
  Dict.get job_id (jobs w) = None ->
  exec (add_job job_id playlist_id video_id title quality audio_only) w
  = (Ok job_id,
     with_queue (job_queue w ++ [job_id])
       (with_jobs
          (_update_queue_positions
             (jobs w ++ [(job_id, new_job job_id playlist_id video_id title
                                          quality audio_only)])) w)).
Proof.
  intros Hnone. unfold add_job. cbn [exec queue_put fst snd].
  unfold Dict.set, Dict.mem. now rewrite Hnone.
Qed.

Lemma moved_refl j : moved j j.
Proof. unfold moved. now destruct j. Qed.

Lemma moved_trans j1 j2 j3 : moved j1 j2 -> moved j2 j3 -> moved j1 j3.
Proof. unfold moved. intros H12 H23. rewrite H23 at 1. now rewrite H12. Qed.

Lemma get_update_positions_moved k pos js j :
  Dict.get k js = Some j ->
  exists j', Dict.get k (update_positions_from pos js) = Some j' /\ moved j j'.
Proof.
  revert pos. induction js as [|[k0 j0] js IH]; intros pos; simpl;
    [discriminate|].
  destruct (String.eqb k0 k) eqn:Hk.
  - intros H. injection H as ->.
    destruct (is_queued j); simpl; rewrite Hk; eexists;
      (split; [reflexivity|]); [reflexivity | apply moved_refl].
  - intros H. destruct (is_queued j0); simpl; rewrite Hk; now apply IH.
Qed.

Lemma add_jobs_exec uuid k titles quality audio_only video_ids :
  forall i w,
    NoDup (map uuid (List.seq i (List.length video_ids))) ->
    (forall m, i <= m < i + List.length video_ids ->
               Dict.get (uuid m) (jobs w) = None) ->
    let ids := map uuid (List.seq i (List.length video_ids)) in
    let r := exec (add_jobs uuid i k titles video_ids quality audio_only) w in
    fst r = Ok ids
    /\ job_queue (snd r) = job_queue w ++ ids
    /\ Dict.keys (jobs (snd r)) = Dict.keys (jobs w) ++ ids
    /\ data_file (snd r) = data_file w
    /\ (video_ids <> [] -> contiguous (jobs (snd r)))
    /\ (forall key j, Dict.get key (jobs w) = Some j ->
          exists j', Dict.get key (jobs (snd r)) = Some j' /\ moved j j')
    /\ (forall m vid, nth_error video_ids m = Some vid ->
          exists j,
            Dict.get (uuid (i + m)) (jobs (snd r)) = Some j
            /\ moved (new_job (uuid (i + m)) k vid
                              (get_or (Dict.get vid titles) vid)
                              quality audio_only) j).
Proof.
  induction video_ids as [|vid rest IH]; intros i w Hnd Hfresh ids r.
  - subst ids r. simpl. rewrite !app_nil_r.
    do 4 (split; [reflexivity|]). split; [congruence|]. split.
    + intros key j Hj. exists j. split; [exact Hj | apply moved_refl].
    + intros [|m] v H; discriminate H.
  - subst ids r. cbn [add_jobs List.length List.seq map].
    cbn [List.length List.seq map] in Hnd. apply NoDup_cons_iff in Hnd as [Hni Hnd].
    rewrite exec_bind.
    rewrite add_job_exec by (apply Hfresh; simpl; lia).
    set (nj := new_job (uuid i) k vid (get_or (Dict.get vid titles) vid)
                       quality audio_only).
    set (w1 := with_queue _ _).
    assert (Hfresh1 : forall m, S i <= m < S i + List.length rest ->
                                Dict.get (uuid m) (jobs w1) = None).
    { intros m Hm. subst w1. cbn [jobs with_jobs with_queue].
      apply get_update_positions_none. rewrite get_app.
      rewrite Hfresh by (simpl; lia). simpl.
      destruct (String.eqb_spec (uuid i) (uuid m)) as [He|]; [|reflexivity].
      exfalso. apply Hni. rewrite He. apply in_map, in_seq. lia. }
    destruct (IH (S i) w1 Hnd Hfresh1) as (Hr & Hq & Hk & Hd & Hc & Hold & Hnew).
    rewrite exec_bind.
    destruct (exec (add_jobs uuid (S i) k titles rest quality audio_only) w1)
      as [[job_ids|e] w2] eqn:Hex; cbn [fst snd] in *; [|discriminate].
    injection Hr as ->. cbn [exec fst snd].
    assert (Hj1 : exists j1, Dict.get (uuid i) (jobs w1) = Some j1 /\ moved nj j1).
    { subst w1. cbn [jobs with_jobs with_queue].
      apply get_update_positions_moved. rewrite get_app.
      rewrite Hfresh by (simpl; lia). simpl. now rewrite String.eqb_refl. }
    split; [reflexivity|]. split; [|split; [|split; [|split; [|split]]]].
    + rewrite Hq. subst w1. cbn [job_queue with_queue].
      now rewrite <- app_assoc.
    + rewrite Hk. subst w1. cbn [jobs with_jobs with_queue].
      unfold _update_queue_positions. rewrite keys_update_positions.
      unfold Dict.keys. rewrite map_app, <- app_assoc. reflexivity.
    + rewrite Hd. reflexivity.
    + intros _. destruct rest as [|v' rest'].
      * simpl in Hex. injection Hex as <-. subst w1.
        cbn [jobs with_jobs with_queue]. apply contiguous_recomputed.
      * apply Hc. discriminate.
    + intros key j Hj.
      assert (H1 : exists j1, Dict.get key (jobs w1) = Some j1 /\ moved j j1).
      { subst w1. cbn [jobs with_jobs with_queue].
        apply get_update_positions_moved. rewrite get_app. now rewrite Hj. }
      destruct H1 as (j1 & H1 & Hm1).
      destruct (Hold key j1 H1) as (j2 & H2 & Hm2).
      exists j2. split; [exact H2 | eapply moved_trans; eauto].
    + intros [|m] v Hv.
      * simpl in Hv. injection Hv as <-. rewrite Nat.add_0_r.
        destruct Hj1 as (j1 & H1 & Hm1).
        destruct (Hold _ j1 H1) as (j2 & H2 & Hm2).
        exists j2. split; [exact H2 | eapply moved_trans; eauto].
      * simpl in Hv. destruct (Hnew m v Hv) as (j & Hj & Hm).
        replace (i + S m) with (S i + m) by lia. now exists j.
Qed.

(** X27.  A download request with a playlist id and at least one video id
    queues one job per video id, in the order of the request and behind
    the jobs already there, whether or not the catalog holds the playlist;
    the answer lists the drawn ids in that order; every new job is queued
    for that playlist and video with the requested quality and audio flag,
    the queue positions are contiguous afterwards, the jobs that were there
    keep everything but their queue position, and the data file is only
    read. *)
Theorem download_enqueues_every_video
        uuid k video_ids quality audio_only w data :
  PyStr.nonempty k = true ->
  video_ids <> [] ->
  load_data (data_file w) = Ok data ->
  NoDup (map uuid (List.seq 0 (List.length video_ids))) ->
  (forall m, m < List.length video_ids ->
             Dict.get (uuid m) (jobs w) = None) ->
  let ids := map uuid (List.seq 0 (List.length video_ids)) in
  let r := exec (download_handler uuid (Some k) video_ids quality audio_only) w in
  fst r = Ok (RespJobs ids)
  /\ job_queue (snd r) = job_queue w ++ ids
  /\ Dict.keys (jobs (snd r)) = Dict.keys (jobs w) ++ ids
  /\ data_file (snd r) = data_file w
  /\ contiguous (jobs (snd r))
  /\ (forall key j, Dict.get key (jobs w) = Some j ->
        exists j', Dict.get key (jobs (snd r)) = Some j' /\ moved j j')
  /\ (forall m vid, nth_error video_ids m = Some vid ->
        exists j,
          Dict.get (uuid m) (jobs (snd r)) = Some j
          /\ j_status j = Queued /\ j_playlist_id j = k /\ j_video_id j = vid
          /\ j_quality j = quality /\ j_audio_only j = audio_only).
Proof.
  intros Hk Hne Hd Hnd Hfresh ids r. subst ids r.
  unfold download_handler. destruct video_ids as [|v0 vs]; [congruence|].
  rewrite Hk, exec_bind, exec_act. unfold read_data. rewrite Hd.
  cbv beta iota zeta. cbn [fst snd]. rewrite exec_bind.
  set (titles := title_map _).
  destruct (add_jobs_exec uuid k titles quality audio_only (v0 :: vs) 0 w
              Hnd ltac:(intros m Hm; apply Hfresh; lia))
    as (Hr & Hq & Hks & Hdf & Hc & Hold & Hnew).
  destruct (exec (add_jobs uuid 0 k titles (v0 :: vs) quality audio_only) w)
    as [[job_ids|e] w2]; cbn [fst snd] in *; [|discriminate].
  injection Hr as ->. cbn [exec fst snd].
  split; [reflexivity|]. split; [exact Hq|]. split; [exact Hks|].
  split; [exact Hdf|]. split; [apply Hc; discriminate|]. split; [exact Hold|].
  intros m vid Hv. destruct (Hnew m vid Hv) as (j & Hj & Hm).
  exists j. split; [exact Hj|]. rewrite Hm. repeat split.
Qed.

Lemma download_for_deleted_playlist :
  let r := exec (download_handler Sample.uuid (Some "p1") ["a"; "b"] "720p" true)
                Sample.emptied in
  fst r = Ok (RespJobs ["d0"; "d1"])
  /\ job_queue (snd r) = ["j1"; "d0"; "d1"]
  /\ queued_positions (jobs (snd r)) = [1; 2; 3].
Proof.
  destruct (download_enqueues_every_video Sample.uuid "p1" ["a"; "b"] "720p"
              true Sample.emptied empty_catalog eq_refl)
    as (Hr & Hq & _).
  - discriminate.
  - reflexivity.
  - vm_compute. repeat constructor; simpl; intuition discriminate.
  - intros [|[|m]] Hm; reflexivity.
  - cbv zeta. split; [exact Hr|]. split; [exact Hq|].
    vm_compute. reflexivity.
Defined.
